(** * Node reordering between firedrake and meshmode numberings

    A shallow embedding of
    [firedrake_to_pytential/analogs/function_space.py]
    ([FunctionSpaceAnalog._compute_fd_cell_nodes], [_reordering_array],
    [reorder_nodes]) and of [firedrake_to_pytential/op.py]
    ([FunctionConverter.get_converter], [OpConnection.__init__],
    [OpConnection.__call__]), together with the properties the
    specification states about them.

    Conventions.
    - numpy integer arrays are [list Z]; a 2-D array is a list of rows.
      Indices keep numpy's meaning: [-n <= i < 0] counts from the end and
      anything outside [-n, n) raises [IndexError].
    - Python exceptions are the constructors of [exn]; a fallible
      computation returns [result].  Methods of [FunctionSpaceAnalog] read
      and write the object's attributes, so they live in the monad [M]:
      an exception keeps the attribute writes made before it was raised.
    - The flip matrix is the only floating-point input the reordering
      reads.  It is rounded ([np.rint]) before any arithmetic, so every
      later product is a product of integer-valued doubles and is exact
      as long as the sums stay below 2^53 ([Mat.float64_exact]); the
      matrix is a matrix over [Q] here, its rounding a matrix over [Z].
    - What firedrake, FInAT and meshmode compute (the cell-node list,
      the orientations, the flip matrix, the boundary nodes of a marker,
      the bound operator) is input: the record [analogs] and the section
      variables of [OpConnection] and [FunctionConverter].
    - The order in which Python iterates a [set] is input as well: of a
      list made from a set only its elements are known, each once. *)

From Stdlib Require Import ZArith QArith Qround Qabs Lia Bool.
From stdpp Require Import base tactics option list gmap sets strings.

Set Default Proof Using "Type".

(** ** Exceptions and results *)

Inductive exn : Type :=
| ValueError
| IndexError
| AssertionError
| ZeroDivisionError
| TypeError
| LookupError
| OverflowError.

Inductive result (A : Type) : Type :=
| Ok (a : A)
| Raise (e : exn).

Arguments Ok {A} a.
Arguments Raise {A} e.

Definition is_ok {A} (r : result A) : bool :=
  match r with Ok _ => true | Raise _ => false end.

Definition rbind {A B} (r : result A) (k : A -> result B) : result B :=
  match r with
  | Ok a => k a
  | Raise e => Raise e
  end.

Fixpoint rmapM {A B} (f : A -> result B) (l : list A) : result (list B) :=
  match l with
  | [] => Ok []
  | x :: l' =>
      rbind (f x) (fun y => rbind (rmapM f l') (fun ys => Ok (y :: ys)))
  end.

(** ** numpy primitives *)

Module Np.

(** Rows of a C-ordered buffer. *)
Fixpoint chunks (rows cols : nat) (l : list Z) : list (list Z) :=
  match rows with
  | O => []
  | S r => take cols l :: chunks r cols (drop cols l)
  end.

(** Position addressed by the integer index [i] in an axis of length [n]. *)
Definition index (n : nat) (i : Z) : option nat :=
  if ((0 <=? i) && (i <? Z.of_nat n))%Z then Some (Z.to_nat i)
  else if ((- Z.of_nat n <=? i) && (i <? 0))%Z
       then Some (Z.to_nat (i + Z.of_nat n))
       else None.

(** [a[i]] for an integer [i]. *)
Definition get {A} (a : list A) (i : Z) : result A :=
  match index (length a) i with
  | Some k =>
      match a !! k with
      | Some x => Ok x
      | None => Raise IndexError
      end
  | None => Raise IndexError
  end.

(** [a[idx]] for a 1-D integer array [idx]: a gather along the first
    axis, into a new array. *)
Definition take {A} (a : list A) (idx : list Z) : result (list A) :=
  rmapM (get a) idx.

(** [a[idx]] for a 2-D integer array [idx] and a 1-D [a]. *)
Definition take2 {A} (a : list A) (idx : list (list Z))
  : result (list (list A)) :=
  rmapM (take a) idx.

(** [np.arange(n)]: empty when [n <= 0]. *)
Definition arange (n : Z) : list Z := seqZ 0 n.

(** [np.max(t)] of a 2-D array: no identity on a zero-size array. *)
Definition max (t : list (list Z)) : result Z :=
  match concat t with
  | [] => Raise ValueError
  | x :: l => Ok (foldr Z.max x l)
  end.

(** [a.reshape((rows, cols))] of a 1-D array. *)
Definition reshape (a : list Z) (rows cols : nat) : result (list (list Z)) :=
  if (rows * cols =? length a)%nat then Ok (chunks rows cols a)
  else Raise ValueError.

(** [a.flatten()] of a 2-D array. *)
Definition flatten (t : list (list Z)) : list Z := concat t.

(** Storing into an [np.int32] array wraps around. *)
Definition to_int32 (v : Z) : Z := ((v + 2 ^ 31) mod 2 ^ 32 - 2 ^ 31)%Z.

(** [np.rint]: to the nearest integer, ties to the even one. *)
Definition rint (q : Q) : Z :=
  let f := Qfloor q in
  match Qcompare (q - inject_Z f)%Q (1 # 2)%Q with
  | Lt => f
  | Gt => (f + 1)%Z
  | Eq => if Z.even f then f else (f + 1)%Z
  end.

End Np.

(** ** Integer matrices *)

Module Mat.

Definition dot (u v : list Z) : Z := foldr Z.add 0%Z (zip_with Z.mul u v).

Definition nrows (m : list (list Z)) : nat := length m.

Definition ncols (m : list (list Z)) : nat :=
  match m with
  | [] => O
  | r :: _ => length r
  end.

Definition is_square (m : list (list Z)) : bool :=
  forallb (fun r => (length r =? length m)%nat) m.

Definition column (j : nat) (m : list (list Z)) : list Z :=
  map (fun r => nth j r 0%Z) m.

(** [m.shape == (rows, cols)] *)
Definition shaped (rows cols : nat) (m : list (list Z)) : Prop :=
  length m = rows ∧ Forall (fun r => length r = cols) m.

(** [m[i, j]] *)
Definition entry (m : list (list Z)) (i j : nat) : Z :=
  nth j (nth i m []) 0%Z.

(** [m.T] *)
Definition transpose (m : list (list Z)) : list (list Z) :=
  map (fun j => column j m) (seq 0 (ncols m)).

(** [np.dot(a, b)] for 2-D arrays of matching shapes. *)
Definition mul (a b : list (list Z)) : list (list Z) :=
  map (fun r => map (fun j => dot r (column j b)) (seq 0 (ncols b))) a.

(** [np.eye(n)] *)
Definition eye (n : nat) : list (list Z) :=
  map (fun i => map (fun j => if (i =? j)%nat then 1%Z else 0%Z) (seq 0 n))
      (seq 0 n).

Definition sub (a b : list (list Z)) : list (list Z) :=
  zip_with (zip_with Z.sub) a b.

(** The matrix-vector product [einsum("ij,j->i", m, v)]. *)
Definition vec (m : list (list Z)) (v : list Z) : list Z :=
  map (fun r => dot r v) m.

(** Square of the Frobenius norm, [la.norm(m) ** 2]. *)
Definition norm_sq (m : list (list Z)) : Z :=
  foldr Z.add 0%Z (map (fun x => (x * x)%Z) (concat m)).

(** [la.norm(m) < tol] for a positive [tol]: the norm is the square
    root of [norm_sq], so the test compares the squares. *)
Definition norm_lt (m : list (list Z)) (tol : Q) : bool :=
  negb (Qle_bool (tol * tol)%Q (inject_Z (norm_sq m))).

(** numpy holds these matrices in float64.  For every entry of
    [np.dot(m, m)] the absolute values of the products that are summed
    add up to less than [2^53]: then every product and every partial sum,
    in whatever order they are formed, is an integer that float64
    represents, no operation rounds, and [np.dot(m, m) - np.eye(n)] is the
    integer matrix computed here; its norm is zero when it is the zero
    matrix and at least one otherwise.  Outside this range the integer
    operations of this module do not describe numpy's. *)
Definition float64_exact (m : list (list Z)) : bool :=
  forallb (fun r =>
             forallb (fun j => (dot (map Z.abs r) (map Z.abs (column j m))
                                <? 2 ^ 53)%Z)
                     (seq 0 (ncols m)))
          m.

End Mat.

(** ** Arrays of node values *)

(** Function data handed to [reorder_nodes]: shape [(nodes,)] for a
    scalar space, [(nodes, dim)] (one row per node) for a vector space.
    [Arr2 c rows] has [c] columns; the column count is kept so that an
    array with no rows still has a shape. *)
Inductive ndarray (V : Type) : Type :=
| Arr1 (data : list V)
| Arr2 (ncols : nat) (rows : list (list V)).

Arguments Arr1 {V} data.
Arguments Arr2 {V} ncols rows.

Definition ndim {V} (x : ndarray V) : nat :=
  match x with Arr1 _ => 1 | Arr2 _ _ => 2 end.

(** [x[idx]]: the integer array indexes the first axis. *)
Definition nd_take {V} (x : ndarray V) (idx : list Z) : result (ndarray V) :=
  match x with
  | Arr1 d => rbind (Np.take d idx) (fun d' => Ok (Arr1 d'))
  | Arr2 c rows => rbind (Np.take rows idx) (fun rows' => Ok (Arr2 c rows'))
  end.

(** Component [j] of every row. *)
Definition nd_column {V} (j : nat) (rows : list (list V)) : list V :=
  omap (fun r : list V => r !! j) rows.

(** [x.T.copy()] *)
Definition nd_transpose {V} (x : ndarray V) : ndarray V :=
  match x with
  | Arr1 d => Arr1 d
  | Arr2 c rows => Arr2 (length rows) (map (fun j => nd_column j rows) (seq 0 c))
  end.

(** ** FunctionSpaceAnalog *)

Inductive mesh_analog_type : Type :=
| MeshAnalog
| MeshAnalogNearBdy
| MeshAnalogOnBdy.

(** What the object reads from firedrake, FInAT and its mesh analog;
    none of it changes after construction. *)
Record analogs : Type := {
  (** [type(self._mesh_analog)] *)
  mesh_analog : mesh_analog_type;
  (** the cell-node list firedrake builds for the whole mesh
      ([function_space.cell_node_list], or [mesh.make_cell_node_list]) *)
  fd_cell_node_list : list (list Z);
  (** [self._mesh_analog.cell_id_to_fd_cell_id()] *)
  cell_id_to_fd_cell_id : list Z;
  (** [self._mesh_analog.vertex_indices()], one row per meshmode element *)
  vertex_indices : list (list Z);
  (** [self._finat_element_analog.analog().degree] *)
  degree : Z;
  (** [self._mesh_analog.orientations()] *)
  orientations : list Z;
  (** [self.get_finat_element_analog().flip_matrix()] *)
  flip_matrix : list (list Q);
  (** [unit_nodes().shape[1]], the number of nodes of one element *)
  nunit_nodes : nat
}.

(** The attributes the methods below write. *)
Record attrs : Type := {
  _cell_node_list : option (list (list Z));
  _num_fdnodes : option Z;
  _fd_to_mesh_reordering : option (list Z);
  _mesh_to_fd_reordering : option (list Z)
}.

(** The attributes as [__init__] leaves them when no function space is
    passed in. *)
Definition init_attrs : attrs :=
  {| _cell_node_list := None; _num_fdnodes := None;
     _fd_to_mesh_reordering := None; _mesh_to_fd_reordering := None |}.

(** A method: it reads and writes the attributes and returns or raises. *)
Definition M (A : Type) : Type := attrs -> attrs * result A.

Definition ret {A} (x : A) : M A := fun s => (s, Ok x).
Definition raise {A} (e : exn) : M A := fun s => (s, Raise e).
Definition lift {A} (r : result A) : M A := fun s => (s, r).
Definition bind {A B} (m : M A) (k : A -> M B) : M B :=
  fun s =>
    match m s with
    | (s', Ok x) => k x s'
    | (s', Raise e) => (s', Raise e)
    end.
Definition read {A} (f : attrs -> A) : M A := fun s => (s, Ok (f s)).
Definition write (f : attrs -> attrs) : M unit := fun s => (f s, Ok tt).

Notation "x <~ m ;; k" := (bind m (fun x => k))
  (at level 100, m at next level, right associativity).
Notation "m ;;; k" := (bind m (fun _ => k))
  (at level 100, right associativity).

Definition set_cell_node_list (v : option (list (list Z))) (s : attrs) : attrs :=
  {| _cell_node_list := v; _num_fdnodes := _num_fdnodes s;
     _fd_to_mesh_reordering := _fd_to_mesh_reordering s;
     _mesh_to_fd_reordering := _mesh_to_fd_reordering s |}.

Definition set_num_fdnodes (v : option Z) (s : attrs) : attrs :=
  {| _cell_node_list := _cell_node_list s; _num_fdnodes := v;
     _fd_to_mesh_reordering := _fd_to_mesh_reordering s;
     _mesh_to_fd_reordering := _mesh_to_fd_reordering s |}.

Definition set_fd_to_mesh_reordering (v : option (list Z)) (s : attrs) : attrs :=
  {| _cell_node_list := _cell_node_list s; _num_fdnodes := _num_fdnodes s;
     _fd_to_mesh_reordering := v;
     _mesh_to_fd_reordering := _mesh_to_fd_reordering s |}.

Definition set_mesh_to_fd_reordering (v : option (list Z)) (s : attrs) : attrs :=
  {| _cell_node_list := _cell_node_list s; _num_fdnodes := _num_fdnodes s;
     _fd_to_mesh_reordering := _fd_to_mesh_reordering s;
     _mesh_to_fd_reordering := v |}.

(** The tolerance of the flip-matrix assertion, [1e-13]. *)
Definition flip_tol : Q := (1 # 10000000000000)%Q.

Module FunctionSpaceAnalog.
Section Methods.

Variable self : analogs.

(** [nelements * nunit_nodes], the shape of [self._nodes]. *)
Definition num_meshmode_nodes : Z :=
  Z.of_nat (length (vertex_indices self) * nunit_nodes self).

Definition _compute_fd_cell_nodes (cell_node_list : option (list (list Z)))
  : M unit :=
  cur <~ read _cell_node_list ;;
  match cur with
  | Some _ => ret tt
  | None =>
      let table := match cell_node_list with
                   | None => fd_cell_node_list self
                   | Some t => t
                   end in
      write (set_cell_node_list (Some table)) ;;;
      m <~ lift (Np.max table) ;;
      write (set_num_fdnodes (Some (m + 1)%Z)) ;;;
      match mesh_analog self with
      | MeshAnalogNearBdy =>
          t <~ lift (Np.take table (cell_id_to_fd_cell_id self)) ;;
          write (set_cell_node_list (Some t))
      | MeshAnalogOnBdy =>
          if (degree self =? 1)%Z
          then write (set_cell_node_list (Some (vertex_indices self)))
          else raise ValueError
      | MeshAnalog => ret tt
      end
  end.

Definition num_firedrake_nodes : M (option Z) :=
  _compute_fd_cell_nodes None ;;;
  read _num_fdnodes.

(** After [_compute_fd_cell_nodes] has returned the attribute is set;
    iterating over [None] would be a [TypeError]. *)
Definition firedrake_cell_node_list : M (list (list Z)) :=
  _compute_fd_cell_nodes None ;;;
  t <~ read _cell_node_list ;;
  match t with
  | Some t => ret t
  | None => raise TypeError
  end.

(** [np.rint] of the flip matrix, transposed for meshmode->firedrake,
    and the assertion that flipping twice is the identity.  [np.dot]
    rejects a matrix that is not square.  The product, the difference
    and the norm are numpy's float64 operations; they are the integer
    operations written here as long as the matrix is
    [Mat.float64_exact]. *)
Definition checked_flip_mat (firedrake_to_meshmode : bool)
  : result (list (list Z)) :=
  let rounded := map (map Np.rint) (flip_matrix self) in
  if Mat.is_square rounded then
    let flip_mat := if firedrake_to_meshmode then rounded
                    else Mat.transpose rounded in
    if Mat.norm_lt (Mat.sub (Mat.mul flip_mat flip_mat)
                            (Mat.eye (length flip_mat))) flip_tol
    then Ok flip_mat
    else Raise AssertionError
  else Raise ValueError.

(** [new_order[orient < 0] = np.einsum("ij,ej->ei", flip_mat,
    new_order[orient < 0])]: the boolean mask must have one entry per
    row, and the rows it selects must have as many entries as the flip
    matrix has columns. *)
Definition flip_cells (flip_mat : list (list Z)) (orient : list Z)
    (new_order : list (list Z)) : result (list (list Z)) :=
  let mask := map (fun o => (o <? 0)%Z) orient in
  if negb (length mask =? length new_order)%nat then Raise IndexError
  else if forallb (fun br : bool * list Z =>
                     implb br.1 (length br.2 =? Mat.ncols flip_mat)%nat)
                  (zip mask new_order)
  then Ok (zip_with (fun (b : bool) r => if b then Mat.vec flip_mat r else r)
                    mask new_order)
  else Raise ValueError.

(** The loop that resizes [new_order] when meshmode has duplicate
    nodes: [newnew_order[fd_index] = new_order[pyt_ndx]] for every entry
    of the cell-node list in turn. *)
Fixpoint collapse_loop (fd_indices : list Z) (pyt_ndx : nat)
    (new_order newnew_order : list Z) : result (list Z) :=
  match fd_indices with
  | [] => Ok newnew_order
  | fd_index :: rest =>
      match new_order !! pyt_ndx with
      | None => Raise IndexError
      | Some v =>
          match Np.index (length newnew_order) fd_index with
          | None => Raise IndexError
          | Some k =>
              collapse_loop rest (S pyt_ndx) new_order
                            (<[k := Np.to_int32 v]> newnew_order)
          end
      end
  end.

(** [np.zeros(n, dtype=np.int32)] followed by the loop. *)
Definition collapse (n : option Z) (cell_node_list : list (list Z))
    (new_order : list Z) : result (list Z) :=
  match n with
  | None => Raise TypeError
  | Some n =>
      if (n <? 0)%Z then Raise ValueError
      else collapse_loop (concat cell_node_list) 0 new_order
                         (replicate (Z.to_nat n) 0%Z)
  end.

(** The computation behind the cache: [order] is always the 1-D
    [np.arange], so of the two flip branches in the source only the
    scalar one ([len(order.shape) > 1] false) can run. *)
Definition compute_reordering (firedrake_to_meshmode : bool) : M (list Z) :=
  order <~ (if firedrake_to_meshmode
            then n <~ num_firedrake_nodes ;;
                 match n with
                 | Some n => ret (Np.arange n)
                 | None => raise TypeError
                 end
            else ret (Np.arange num_meshmode_nodes)) ;;
  flip_mat <~ lift (checked_flip_mat firedrake_to_meshmode) ;;
  new_order <~ (if firedrake_to_meshmode
                then t <~ firedrake_cell_node_list ;;
                     lift (Np.take2 order t)
                else if (nunit_nodes self =? 0)%nat
                     then raise ZeroDivisionError
                     else lift (Np.reshape order
                                  (length order / nunit_nodes self)
                                  (nunit_nodes self))) ;;
  new_order <~ lift (flip_cells flip_mat (orientations self) new_order) ;;
  let new_order := Np.flatten new_order in
  new_order <~ (if firedrake_to_meshmode then ret new_order
                else n <~ num_firedrake_nodes ;;
                     if bool_decide (n = Some num_meshmode_nodes)
                     then ret new_order
                     else n <~ num_firedrake_nodes ;;
                          t <~ firedrake_cell_node_list ;;
                          lift (collapse n t new_order)) ;;
  fd_cache <~ read _fd_to_mesh_reordering ;;
  (match fd_cache with
   | None => ret tt
   | Some _ =>
       n <~ num_firedrake_nodes ;;
       if bool_decide (n = Some num_meshmode_nodes)
          || negb firedrake_to_meshmode
       then write (set_cell_node_list None)
       else ret tt
   end) ;;;
  (if firedrake_to_meshmode
   then write (set_fd_to_mesh_reordering (Some new_order))
   else write (set_mesh_to_fd_reordering (Some new_order))) ;;;
  ret new_order.

(** The array is computed on first use and cached per direction; a
    cached array is returned as it is. *)
Definition _reordering_array (firedrake_to_meshmode : bool) : M (list Z) :=
  cache <~ read (if firedrake_to_meshmode then _fd_to_mesh_reordering
                 else _mesh_to_fd_reordering) ;;
  match cache with
  | Some arr => ret arr
  | None => compute_reordering firedrake_to_meshmode
  end.

Definition reorder_nodes {V} (nodes : ndarray V)
    (firedrake_to_meshmode : bool) : M (ndarray V) :=
  arr <~ _reordering_array firedrake_to_meshmode ;;
  reordered_nodes <~ lift (nd_take nodes arr) ;;
  if (1 <? ndim nodes)%nat
  then ret (nd_transpose reordered_nodes)
  else ret reordered_nodes.

End Methods.
End FunctionSpaceAnalog.

(** ** reorder_nodes on a store of arrays *)

(** numpy arrays are objects: indexing with an integer array and
    [.copy()] allocate a new buffer, [.T] is a view on the buffer of the
    array it is taken from.  The store lists the buffers; a new one goes
    at the end. *)
Module Mem.
Section Store.

Context {V : Type}.

Record handle : Type := { base : nat; transposed : bool }.

Definition alloc (x : ndarray V) (mem : list (ndarray V))
    : list (ndarray V) * handle :=
  (mem ++ [x], {| base := length mem; transposed := false |}).

(** The view [x.T] of a buffer's contents. *)
Definition view_T (x : ndarray V) : ndarray V := nd_transpose x.

Definition value (mem : list (ndarray V)) (h : handle) : option (ndarray V) :=
  match mem !! base h with
  | Some x => Some (if transposed h then view_T x else x)
  | None => None
  end.

(** [h.T] *)
Definition T (h : handle) : handle :=
  {| base := base h; transposed := negb (transposed h) |}.

(** [h.copy()] *)
Definition copy (h : handle) (mem : list (ndarray V))
    : list (ndarray V) * result handle :=
  match value mem h with
  | Some x => let (mem', h') := alloc x mem in (mem', Ok h')
  | None => (mem, Raise TypeError)
  end.

(** [h[idx]] for an integer array [idx] *)
Definition take (h : handle) (idx : list Z) (mem : list (ndarray V))
  : list (ndarray V) * result handle :=
  match value mem h with
  | Some x =>
      match nd_take x idx with
      | Ok y => let (mem', h') := alloc y mem in (mem', Ok h')
      | Raise e => (mem, Raise e)
      end
  | None => (mem, Raise TypeError)
  end.

Definition ndim_of (mem : list (ndarray V)) (h : handle) : nat :=
  match value mem h with
  | Some x => ndim x
  | None => 0
  end.

Definition reorder_nodes (self : analogs) (nodes : handle)
    (firedrake_to_meshmode : bool) (s : attrs) (mem : list (ndarray V))
  : attrs * list (ndarray V) * result handle :=
  match FunctionSpaceAnalog._reordering_array self firedrake_to_meshmode s with
  | (s', Raise e) => (s', mem, Raise e)
  | (s', Ok arr) =>
      match take nodes arr mem with
      | (mem', Raise e) => (s', mem', Raise e)
      | (mem', Ok reordered_nodes) =>
          if (1 <? ndim_of mem nodes)%nat
          then let (mem'', r) := copy (T reordered_nodes) mem' in
               (s', mem'', r)
          else (s', mem', Ok reordered_nodes)
      end
  end.

End Store.
End Mem.

(** ** OpConnection *)

Module OpConnection.

(** The [targets] argument: one boundary id or an iterable of them. *)
Inductive targets_arg : Type :=
| TargetInt (t : Z)
| TargetIter (ts : list Z).

(** An [int] is treated as the one-element list. *)
Definition target_list (targets : targets_arg) : list Z :=
  match targets with
  | TargetInt t => [t]
  | TargetIter ts => ts
  end.

Definition int32_range (v : Z) : bool :=
  ((- 2 ^ 31 <=? v) && (v <? 2 ^ 31))%Z.

Section Init.

(** [out_mesh.exterior_facets.unique_markers] *)
Variable unique_markers : list Z.
(** [out_fspace.boundary_nodes(marker, 'geometric')], firedrake's *)
Variable boundary_nodes : Z -> result (list Z).
(** The order in which Python iterates a [set] is fixed by its hash
    table, that is by the elements and by how they were inserted.
    [markers_order targets] is the order in which [for marker in
    target_markers] meets the elements of [set(targets)], and
    [indices_order nodes] the order in which [list(self.target_indices)]
    lists the set that was updated with the node lists [nodes], one after
    the other. *)
Variable markers_order : list Z -> list Z.
Variable indices_order : list (list Z) -> list Z.

(** The target handling of [__init__]: the warnings issued (each
    names the ids that are not exterior facet ids) and either the
    error raised or [self.target_indices]. *)
Definition __init__ (targets : option targets_arg)
  : list (gset Z) * result (option (list Z)) :=
  match targets with
  | None => ([], Ok None)
  | Some targets =>
      let target_markers : gset Z := list_to_set (target_list targets) in
      let exterior : gset Z := list_to_set unique_markers in
      let warnings :=
        if bool_decide (target_markers ⊆ exterior) then []
        else [target_markers ∖ exterior] in
      if bool_decide (target_markers ∩ exterior = ∅)
      then (warnings, Raise ValueError)
      else
        (warnings,
         rbind (rmapM boundary_nodes (markers_order (target_list targets)))
           (fun nodes =>
              let l := indices_order nodes in
              if forallb int32_range l then Ok (Some l)
              else Raise OverflowError))
  end.

End Init.

Section Call.

Context {V : Type}.
(** [0.0] *)
Variable zero : V.
(** the number of degrees of freedom of [self._out_fspace] *)
Variable ndofs : nat.
(** [converter.convert(queue, ., firedrake_to_meshmode=False)] *)
Variable convert : list V -> result (list V).

(** The values an assignment stores into [n] places: as many values,
    or one value repeated. *)
Definition broadcast (n : nat) (src : list V) : result (list V) :=
  if (length src =? n)%nat then Ok src
  else match src with
       | [v] => Ok (replicate n v)
       | _ => Raise ValueError
       end.

(** [data[:] = src[:]] *)
Definition assign_all (data src : list V) : result (list V) :=
  broadcast (length data) src.

Fixpoint store_at (data : list V) (places : list nat) (src : list V)
  : list V :=
  match places, src with
  | k :: places', v :: src' => store_at (<[k := v]> data) places' src'
  | _, _ => data
  end.

(** [data[idx] = src] for an integer array [idx]: the values are
    broadcast to the shape of the index first, the indices are checked
    next. *)
Definition assign_at (data : list V) (idx : list Z) (src : list V)
  : result (list V) :=
  rbind (broadcast (length idx) src)
        (fun src' =>
           match mapM (Np.index (length data)) idx with
           | None => Raise IndexError
           | Some places => Ok (store_at data places src')
           end).

(** [result_function.dat.data] before the result is stored: all zero
    for the function made when none is passed in. *)
Definition result_data (result_function : option (list V)) : list V :=
  match result_function with
  | None => replicate ndofs zero
  | Some d => d
  end.

(** [__call__]: [op_result] is what the bound operator returned for
    the converted arguments, taken off the queue; the value is
    [result_function.dat.data] of the function returned. *)
Definition __call__ (target_indices : option (list Z))
    (result_function : option (list V)) (op_result : list V)
  : result (list V) :=
  let data := result_data result_function in
  match target_indices with
  | Some idx => assign_at data idx op_result
  | None => rbind (convert op_result) (assign_all data)
  end.

End Call.

Section Kwargs.

Context {V F O : Type}.
(** [0.0] *)
Variable zero : V.
(** the number of degrees of freedom of [self._out_fspace] *)
Variable ndofs : nat.
(** [converter.convert(queue, ., firedrake_to_meshmode=False)] *)
Variable convert : list V -> result (list V).
(** [self.function_converter.convert(queue, f, bdy_id=self._bdy_id,
    put_on_array=True)] for a firedrake [Function] [f] *)
Variable convert_function : F -> result (list V).

(** A keyword argument of [__call__]: a firedrake [Function] or
    anything else. *)
Inductive kwarg : Type :=
| KwFunction (f : F)
| KwOther (o : O).

(** What the bound operator is given for it. *)
Inductive pyt_kwarg : Type :=
| PytArray (pyt_fntn : list V)
| PytOther (o : O).

(** [self.bound_op(queue, **new_kwargs).get(queue=queue)] *)
Variable bound_op : list (string * pyt_kwarg) -> result (list V).

(** The loop that fills [new_kwargs], in the order of [kwargs]. *)
Definition new_kwargs (kwargs : list (string * kwarg))
  : result (list (string * pyt_kwarg)) :=
  rmapM (fun kv : string * kwarg =>
           match kv.2 with
           | KwFunction f =>
               rbind (convert_function f)
                     (fun pyt_fntn => Ok (kv.1, PytArray pyt_fntn))
           | KwOther o => Ok (kv.1, PytOther o)
           end)
        kwargs.

(** [__call__] from its keyword arguments: convert them, evaluate the
    operator, store the result. *)
Definition call_with_kwargs (target_indices : option (list Z))
    (result_function : option (list V)) (kwargs : list (string * kwarg))
  : result (list V) :=
  rbind (new_kwargs kwargs) (fun kw =>
  rbind (bound_op kw) (fun result =>
  __call__ zero ndofs convert target_indices result_function result)).

End Kwargs.

End OpConnection.

(** ** FunctionConverter *)

(** The classes [MeshAnalog], [SimplexCellAnalog], [FinatElementAnalog],
    [DGFunctionSpaceAnalog] and [FiredrakeMeshmodeConverter] are not part
    of these files: an object of one of them is what it was constructed
    from, whether its construction raises is an input, and so are the
    [is_analog] and [can_convert] methods of the first three and the
    last.  [DGFunctionSpaceAnalog] answers [is_analog] as
    [FunctionSpaceAnalog.is_analog] does. *)
Module FunctionConverter.
Section Converter.

Context {mesh_t element_t cell_t : Type}.

(** [finat_element.cell] *)
Variable cell_of : element_t -> cell_t.

(** A function space, as far as it is read here: [space.mesh()] and
    [space.finat_element]. *)
Record space : Type := { space_mesh : mesh_t; finat_element : element_t }.

(** The first argument of [get_converter]. *)
Inductive function_or_space_arg : Type :=
| AFunction (function_space : space)
| ASpace (V : space).

Inductive mesh_analog_obj : Type :=
| MeshAnalog (mesh : mesh_t).

Inductive cell_analog_obj : Type :=
| SimplexCellAnalog (cell : cell_t).

Inductive finat_element_analog_obj : Type :=
| FinatElementAnalog (finat_element : element_t) (cell_analog : cell_analog_obj).

Inductive dg_fspace_analog_obj : Type :=
| DGFunctionSpaceAnalog (mesh_analog : mesh_analog_obj)
    (finat_element_analog : finat_element_analog_obj)
    (cell_analog : cell_analog_obj).

Inductive converter_obj : Type :=
| FiredrakeMeshmodeConverter (fspace_analog : dg_fspace_analog_obj)
    (bdy_id : option Z).

(** [analog.is_analog(obj)] of the three classes outside these files *)
Variable mesh_is_analog : mesh_analog_obj -> mesh_t -> bool.
Variable cell_is_analog : cell_analog_obj -> cell_t -> bool.
Variable element_is_analog : finat_element_analog_obj -> element_t -> bool.
(** [conv.can_convert(space, bdy_id)] *)
Variable can_convert : converter_obj -> space -> option Z -> bool.

(** The exception a constructor raises, if it does. *)
Variable mesh_analog_error : mesh_t -> option exn.
Variable cell_analog_error : cell_t -> option exn.
Variable finat_element_analog_error :
  element_t -> cell_analog_obj -> option exn.
Variable dg_fspace_analog_error :
  mesh_analog_obj -> finat_element_analog_obj -> cell_analog_obj -> option exn.
Variable converter_error : dg_fspace_analog_obj -> option Z -> option exn.

Definition construct {A} (error : option exn) (obj : A) : result A :=
  match error with
  | Some e => Raise e
  | None => Ok obj
  end.

(** [FunctionSpaceAnalog.is_analog(obj)] for a function space [obj]
    (a [WithGeometry]) and no [bdy_id]: the three analogs must each be an
    analog of their part of the space. *)
Definition is_analog (analog : dg_fspace_analog_obj) (obj : space) : bool :=
  match analog with
  | DGFunctionSpaceAnalog mesh_analog finat_element_analog cell_analog =>
      if negb (mesh_is_analog mesh_analog (space_mesh obj)) then false
      else if negb (element_is_analog finat_element_analog (finat_element obj))
      then false
      else if negb (cell_is_analog cell_analog (cell_of (finat_element obj)))
      then false
      else true
  end.

(** The lists [__init__] creates empty. *)
Record converter_attrs : Type := {
  _converters : list converter_obj;
  _dg_fspace_analogs : list dg_fspace_analog_obj;
  _mesh_analogs : list mesh_analog_obj;
  _finat_element_analogs : list finat_element_analog_obj;
  _cell_analogs : list cell_analog_obj
}.

Definition __init__ : converter_attrs :=
  {| _converters := []; _dg_fspace_analogs := []; _mesh_analogs := [];
     _finat_element_analogs := []; _cell_analogs := [] |}.

Definition set_converters (l : list converter_obj) (st : converter_attrs)
  : converter_attrs :=
  {| _converters := l; _dg_fspace_analogs := _dg_fspace_analogs st;
     _mesh_analogs := _mesh_analogs st;
     _finat_element_analogs := _finat_element_analogs st;
     _cell_analogs := _cell_analogs st |}.

Definition set_dg_fspace_analogs (l : list dg_fspace_analog_obj)
    (st : converter_attrs) : converter_attrs :=
  {| _converters := _converters st; _dg_fspace_analogs := l;
     _mesh_analogs := _mesh_analogs st;
     _finat_element_analogs := _finat_element_analogs st;
     _cell_analogs := _cell_analogs st |}.

Definition set_mesh_analogs (l : list mesh_analog_obj) (st : converter_attrs)
  : converter_attrs :=
  {| _converters := _converters st;
     _dg_fspace_analogs := _dg_fspace_analogs st; _mesh_analogs := l;
     _finat_element_analogs := _finat_element_analogs st;
     _cell_analogs := _cell_analogs st |}.

Definition set_finat_element_analogs (l : list finat_element_analog_obj)
    (st : converter_attrs) : converter_attrs :=
  {| _converters := _converters st;
     _dg_fspace_analogs := _dg_fspace_analogs st;
     _mesh_analogs := _mesh_analogs st; _finat_element_analogs := l;
     _cell_analogs := _cell_analogs st |}.

Definition set_cell_analogs (l : list cell_analog_obj) (st : converter_attrs)
  : converter_attrs :=
  {| _converters := _converters st;
     _dg_fspace_analogs := _dg_fspace_analogs st;
     _mesh_analogs := _mesh_analogs st;
     _finat_element_analogs := _finat_element_analogs st; _cell_analogs := l |}.

(** The first analog of the list that is an analog of [obj]. *)
Definition check_for_analog {A B} (is_analog : A -> B -> bool)
    (analog_list : list A) (obj : B) : option A :=
  find (fun pos_analog => is_analog pos_analog obj) analog_list.

(** "Check for an analog and construct if necessary": the analog found,
    or a new one, appended to its list. *)
Definition find_or_construct {A B} (is_analog : A -> B -> bool)
    (new : result A) (get : converter_attrs -> list A)
    (set : list A -> converter_attrs -> converter_attrs) (obj : B)
    (st : converter_attrs) : converter_attrs * result A :=
  match check_for_analog is_analog (get st) obj with
  | Some analog => (st, Ok analog)
  | None =>
      match new with
      | Ok analog => (set (get st ++ [analog]) st, Ok analog)
      | Raise e => (st, Raise e)
      end
  end.

(** The analog of the space, found or built from analogs of its mesh,
    cell and element. *)
Definition get_dg_fspace_analog (space : space) (st : converter_attrs)
  : converter_attrs * result dg_fspace_analog_obj :=
  match check_for_analog is_analog (_dg_fspace_analogs st) space with
  | Some dg_fspace_analog => (st, Ok dg_fspace_analog)
  | None =>
      match find_or_construct mesh_is_analog
              (construct (mesh_analog_error (space_mesh space))
                         (MeshAnalog (space_mesh space)))
              _mesh_analogs set_mesh_analogs (space_mesh space) st with
      | (st, Raise e) => (st, Raise e)
      | (st, Ok mesh_analog) =>
      let cell := cell_of (finat_element space) in
      match find_or_construct cell_is_analog
              (construct (cell_analog_error cell) (SimplexCellAnalog cell))
              _cell_analogs set_cell_analogs cell st with
      | (st, Raise e) => (st, Raise e)
      | (st, Ok cell_analog) =>
      match find_or_construct element_is_analog
              (construct (finat_element_analog_error (finat_element space)
                                                     cell_analog)
                         (FinatElementAnalog (finat_element space) cell_analog))
              _finat_element_analogs set_finat_element_analogs
              (finat_element space) st with
      | (st, Raise e) => (st, Raise e)
      | (st, Ok finat_element_analog) =>
      match construct (dg_fspace_analog_error mesh_analog finat_element_analog
                                              cell_analog)
                      (DGFunctionSpaceAnalog mesh_analog finat_element_analog
                                             cell_analog) with
      | Raise e => (st, Raise e)
      | Ok dg_fspace_analog =>
          (set_dg_fspace_analogs (_dg_fspace_analogs st ++ [dg_fspace_analog])
                                 st,
           Ok dg_fspace_analog)
      end end end end
  end.

(** [function_or_space.function_space()] for a [Function], the argument
    itself otherwise. *)
Definition space_of (function_or_space : function_or_space_arg) : space :=
  match function_or_space with
  | AFunction function_space => function_space
  | ASpace V => V
  end.

Definition get_converter (function_or_space : function_or_space_arg)
    (bdy_id : option Z) (st : converter_attrs)
  : converter_attrs * result converter_obj :=
  let space := space_of function_or_space in
  match find (fun conv => can_convert conv space bdy_id) (_converters st) with
  | Some conv => (st, Ok conv)
  | None =>
      match get_dg_fspace_analog space st with
      | (st, Raise e) => (st, Raise e)
      | (st, Ok dg_fspace_analog) =>
          match construct (converter_error dg_fspace_analog bdy_id)
                          (FiredrakeMeshmodeConverter dg_fspace_analog bdy_id)
          with
          | Raise e => (st, Raise e)
          | Ok conv => (set_converters (_converters st ++ [conv]) st, Ok conv)
          end
      end
  end.

End Converter.

Arguments space : clear implicits.
Arguments function_or_space_arg : clear implicits.
Arguments mesh_analog_obj : clear implicits.
Arguments cell_analog_obj : clear implicits.
Arguments finat_element_analog_obj : clear implicits.
Arguments dg_fspace_analog_obj : clear implicits.
Arguments converter_obj : clear implicits.
Arguments converter_attrs : clear implicits.

End FunctionConverter.

(** ** Vocabulary of the properties *)

(** The permutation matrix whose row [i] has its one in column
    [sigma i]: applied to a vector it gives [v[sigma i]] at place [i]. *)
Definition perm_matrix (sigma : list nat) : list (list Z) :=
  map (fun s => map (fun j => if (j =? s)%nat then 1%Z else 0%Z)
                    (seq 0 (length sigma)))
      sigma.

Definition is_involution (sigma : list nat) : bool :=
  forallb (fun i => match sigma !! i with
                    | Some j => bool_decide (sigma !! j = Some i)
                    | None => false
                    end)
          (seq 0 (length sigma)).

(** The cell-node list of a discontinuous space numbered cell by cell,
    [np.arange(ncells * n).reshape((ncells, n))]: slot [i] of cell [e]
    holds node [e * n + i]. *)
Definition dg_cell_node_list (ncells n : nat) : list (list Z) :=
  Np.chunks ncells n (Np.arange (Z.of_nat (ncells * n))).

(** The rounded flip matrix. *)
Definition rounded_flip_matrix (self : analogs) : list (list Z) :=
  map (map Np.rint) (flip_matrix self).

(** The matrix the assertion is made on. *)
Definition flip_mat_used (self : analogs) (firedrake_to_meshmode : bool)
  : list (list Z) :=
  if firedrake_to_meshmode then rounded_flip_matrix self
  else Mat.transpose (rounded_flip_matrix self).

(** [new_order] of the meshmode->firedrake direction after the flip
    step and [flatten], before any resizing: entry [p] is the meshmode
    node whose value belongs to slot [p] of the cell-node list. *)
Definition meshmode_order (self : analogs) : result (list Z) :=
  let order := Np.arange (FunctionSpaceAnalog.num_meshmode_nodes self) in
  rbind (FunctionSpaceAnalog.checked_flip_mat self false) (fun flip_mat =>
  rbind (if (nunit_nodes self =? 0)%nat then Raise ZeroDivisionError
         else Np.reshape order (length order / nunit_nodes self)
                         (nunit_nodes self))
        (fun new_order =>
  rbind (FunctionSpaceAnalog.flip_cells flip_mat (orientations self) new_order)
        (fun new_order => Ok (Np.flatten new_order)))).

(** [new_order] of the firedrake->meshmode direction for [n] firedrake
    nodes and the cell-node list [t]. *)
Definition firedrake_order (self : analogs) (n : Z) (t : list (list Z))
  : result (list Z) :=
  rbind (FunctionSpaceAnalog.checked_flip_mat self true) (fun flip_mat =>
  rbind (Np.take2 (Np.arange n) t) (fun new_order =>
  rbind (FunctionSpaceAnalog.flip_cells flip_mat (orientations self) new_order)
        (fun new_order => Ok (Np.flatten new_order)))).

(** The attributes after a reordering array has been computed from the
    attributes [s]: the cell-node list is dropped when asked to. *)
Definition drop_cell_node_list (drop : bool) (s : attrs) : attrs :=
  match _fd_to_mesh_reordering s with
  | Some _ => if drop then set_cell_node_list None s else s
  | None => s
  end.

(** The slots of the flattened cell-node list, in iteration order, whose
    entry addresses node [k] of an array of [n] nodes. *)
Definition slots_of (n : nat) (fd_indices : list Z) (k : nat) : list nat :=
  filter (fun p => fd_indices !! p ≫= Np.index n = Some k)
         (seq 0 (length fd_indices)).

(** Degree of freedom [i] of [n] is a target when some target index
    addresses it; with no target indices the whole space is the target. *)
Definition is_target (n : nat) (target_indices : option (list Z)) (i : nat)
  : Prop :=
  match target_indices with
  | None => True
  | Some idx => ∃ j, j ∈ idx ∧ Np.index n j = Some i
  end.

(** What is known of the order in which a set is iterated: it lists
    every element of the set, [elems] with repetitions allowed, once. *)
Definition iterates (order : list Z -> list Z) : Prop :=
  ∀ elems, NoDup (order elems) ∧ ∀ x, x ∈ order elems <-> x ∈ elems.

(** Matrices over [Q], for the flip matrix before rounding. *)
Module QMat.

Definition dot (u v : list Q) : Q := foldr Qplus 0%Q (zip_with Qmult u v).

Definition column (j : nat) (m : list (list Q)) : list Q :=
  map (fun r => nth j r 0%Q) m.

Definition mul (a b : list (list Q)) : list (list Q) :=
  map (fun r => map (fun j => dot r (column j b)) (seq 0 (length b))) a.

Definition eye (n : nat) : list (list Q) :=
  map (fun i => map (fun j => if (i =? j)%nat then 1%Q else 0%Q) (seq 0 n))
      (seq 0 n).

(** [|x - y| <= rtol * |y|] *)
Definition close (rtol x y : Q) : bool :=
  Qle_bool (Qabs (x - y)) (rtol * Qabs y).

(** [f @ f == I] within the relative tolerance [rtol], entry by
    entry, for a square [f]. *)
Definition squares_to_identity (rtol : Q) (f : list (list Q)) : bool :=
  forallb (fun r => (length r =? length f)%nat) f
  && forallb (fun rs : list Q * list Q =>
                forallb (fun xy : Q * Q => close rtol xy.1 xy.2)
                        (zip rs.1 rs.2))
             (zip (mul f f) (eye (length f))).

End QMat.

(** ** Concrete meshes used below *)

Module Examples.

Definition swap2 : list (list Q) := [[0; 1]; [1; 0]]%Q.

Definition swap3 : list (list Q) := [[0; 1; 0]; [1; 0; 0]; [0; 0; 1]]%Q.

(** Two triangles sharing an edge, the second one flipped, continuous
    degree-1 space: four firedrake nodes, six meshmode nodes. *)
Definition two_triangles_cg : analogs :=
  {| mesh_analog := MeshAnalog;
     fd_cell_node_list := [[0; 1; 2]; [1; 2; 3]]%Z;
     cell_id_to_fd_cell_id := [];
     vertex_indices := [[0; 1; 2]; [1; 2; 3]]%Z;
     degree := 1;
     orientations := [1; -1]%Z;
     flip_matrix := swap3;
     nunit_nodes := 3 |}.

(** The same mesh with a discontinuous degree-1 space numbered cell
    by cell. *)
Definition two_triangles_dg : analogs :=
  {| mesh_analog := MeshAnalog;
     fd_cell_node_list := [[0; 1; 2]; [3; 4; 5]]%Z;
     cell_id_to_fd_cell_id := [];
     vertex_indices := [[0; 1; 2]; [1; 2; 3]]%Z;
     degree := 1;
     orientations := [1; -1]%Z;
     flip_matrix := swap3;
     nunit_nodes := 3 |}.

(** One positively oriented interval whose two nodes firedrake numbers
    in the other order. *)
Definition one_interval_swapped : analogs :=
  {| mesh_analog := MeshAnalog;
     fd_cell_node_list := [[1; 0]]%Z;
     cell_id_to_fd_cell_id := [];
     vertex_indices := [[0; 1]]%Z;
     degree := 1;
     orientations := [1]%Z;
     flip_matrix := swap2;
     nunit_nodes := 2 |}.

(** A mesh without cells. *)
Definition no_cells : analogs :=
  {| mesh_analog := MeshAnalog;
     fd_cell_node_list := [];
     cell_id_to_fd_cell_id := [];
     vertex_indices := [];
     degree := 1;
     orientations := [];
     flip_matrix := swap3;
     nunit_nodes := 3 |}.

(** A reflection that is its own inverse exactly, with entries that
    are binary fractions, but whose rounding is not. *)
Definition half_reflection : list (list Q) :=
  [[1 # 2; 3 # 2]; [1 # 2; -1 # 2]]%Q.

Definition one_interval_half_reflection : analogs :=
  {| mesh_analog := MeshAnalog;
     fd_cell_node_list := [[0; 1]]%Z;
     cell_id_to_fd_cell_id := [];
     vertex_indices := [[0; 1]]%Z;
     degree := 1;
     orientations := [-1]%Z;
     flip_matrix := half_reflection;
     nunit_nodes := 2 |}.


(** An integer matrix that is its own inverse without being a
    permutation matrix, on one flipped interval numbered cell by cell. *)
Definition shear : list (list Q) := [[1; 0]; [1; -1]]%Q.

Definition one_interval_shear : analogs :=
  {| mesh_analog := MeshAnalog;
     fd_cell_node_list := [[0; 1]]%Z;
     cell_id_to_fd_cell_id := [];
     vertex_indices := [[0; 1]]%Z;
     degree := 1;
     orientations := [-1]%Z;
     flip_matrix := shear;
     nunit_nodes := 2 |}.

(** The second of the two triangles alone, as the cells near a
    boundary: the node count is that of the whole mesh, and firedrake
    node 0 is in no cell of the analog. *)
Definition near_bdy_one_cell : analogs :=
  {| mesh_analog := MeshAnalogNearBdy;
     fd_cell_node_list := [[0; 1; 2]; [1; 2; 3]]%Z;
     cell_id_to_fd_cell_id := [1]%Z;
     vertex_indices := [[1; 2; 3]]%Z;
     degree := 1;
     orientations := [1]%Z;
     flip_matrix := swap3;
     nunit_nodes := 3 |}.


(** The elements in the order of their first insertion: the order in
    which CPython iterates the sets of small integers of the examples
    below, [{1, 5}], [{1, 7}] and [{10, 11, 50}]. *)
Definition insertion_order (l : list Z) : list Z :=
  reverse (remove_dups (reverse l)).

Definition indices_insertion_order (nodes : list (list Z)) : list Z :=
  insertion_order (concat nodes).

(** An integer matrix that is its own inverse and whose square does not
    fit float64: [(2^27 + 1)^2] needs 55 bits. *)
Definition large_involution : list (list Z) :=
  [[2 ^ 27 + 1; 1]; [1 - (2 ^ 27 + 1) * (2 ^ 27 + 1); - (2 ^ 27 + 1)]]%Z.

(** A function space that knows boundary nodes for the id 1 only. *)
Definition boundary_nodes_only_1 (marker : Z) : result (list Z) :=
  if (marker =? 1)%Z then Ok [10; 11]%Z else Raise LookupError.

(** A converter of [Function]s, numbered, that fails for all but 0. *)
Definition convert_function_0 (f : Z) : result (list Z) :=
  if (f =? 0)%Z then Ok [1; 2]%Z else Raise ValueError.

(** Meshes, elements and cells are numbered; the analogs are analogs of
    what they were made from and no constructor raises. *)
Definition mesh_made_from (a : FunctionConverter.mesh_analog_obj Z) (m : Z)
  : bool :=
  match a with FunctionConverter.MeshAnalog m' => (m' =? m)%Z end.

Definition cell_made_from (a : FunctionConverter.cell_analog_obj Z) (c : Z)
  : bool :=
  match a with FunctionConverter.SimplexCellAnalog c' => (c' =? c)%Z end.

Definition element_made_from
    (a : FunctionConverter.finat_element_analog_obj Z Z) (e : Z) : bool :=
  match a with FunctionConverter.FinatElementAnalog e' _ => (e' =? e)%Z end.

Definition cell_of_element (e : Z) : Z := (e mod 2)%Z.

(** A converter converts the spaces of its analog for its boundary id. *)
Definition converts (c : FunctionConverter.converter_obj Z Z Z)
    (sp : FunctionConverter.space Z Z) (bdy_id : option Z) : bool :=
  match c with
  | FunctionConverter.FiredrakeMeshmodeConverter dg b =>
      FunctionConverter.is_analog cell_of_element mesh_made_from
        cell_made_from element_made_from dg sp
      && bool_decide (b = bdy_id)
  end.

Definition get_converter_by_source :=
  FunctionConverter.get_converter cell_of_element mesh_made_from
    cell_made_from element_made_from converts (fun _ => None) (fun _ => None)
    (fun _ _ => None) (fun _ _ _ => None) (fun _ _ => None).

Definition space_1_2 : FunctionConverter.space Z Z :=
  {| FunctionConverter.space_mesh := 1%Z;
     FunctionConverter.finat_element := 2%Z |}.

(** Another space on the same mesh: its element has the same cell. *)
Definition space_1_4 : FunctionConverter.space Z Z :=
  {| FunctionConverter.space_mesh := 1%Z;
     FunctionConverter.finat_element := 4%Z |}.

(** The function space analog built for [space_1_2]. *)
Definition dg_1_2 : FunctionConverter.dg_fspace_analog_obj Z Z Z :=
  FunctionConverter.DGFunctionSpaceAnalog
    (FunctionConverter.MeshAnalog 1%Z)
    (FunctionConverter.FinatElementAnalog 2%Z
       (FunctionConverter.SimplexCellAnalog 0%Z))
    (FunctionConverter.SimplexCellAnalog 0%Z).

End Examples.

Import FunctionSpaceAnalog.

(** Unfolds a method down to the attribute reads and writes. *)
Ltac run_method :=
  unfold _reordering_array, compute_reordering, firedrake_cell_node_list,
    num_firedrake_nodes, _compute_fd_cell_nodes, bind, read, write, lift,
    ret, raise; simpl.

(** * Properties *)

(** ** Running the methods *)

(** A cached cell-node list is not computed again. *)
Lemma compute_fd_cell_nodes_cached self arg s t :
  _cell_node_list s = Some t ->
  _compute_fd_cell_nodes self arg s = (s, Ok tt).
Proof. intros H. run_method. by rewrite H. Qed.

Lemma num_firedrake_nodes_cached self s t :
  _cell_node_list s = Some t ->
  num_firedrake_nodes self s = (s, Ok (_num_fdnodes s)).
Proof. intros H. run_method. by rewrite H. Qed.

Lemma firedrake_cell_node_list_cached self s t :
  _cell_node_list s = Some t ->
  firedrake_cell_node_list self s = (s, Ok t).
Proof. intros H. run_method. rewrite H. simpl. by rewrite H. Qed.

(** [np.max] of a table without entries raises, which leaves the node
    count unset. *)
Lemma compute_fd_cell_nodes_empty self s :
  _cell_node_list s = None ->
  concat (fd_cell_node_list self) = [] ->
  _compute_fd_cell_nodes self None s
  = (set_cell_node_list (Some (fd_cell_node_list self)) s, Raise ValueError).
Proof.
  intros Hs He. run_method. rewrite Hs. unfold Np.max. by rewrite He.
Qed.

(** ** The flip step *)

Lemma flip_cells_ok flip_mat orient new_order :
  length orient = length new_order ->
  Forall (fun r => length r = Mat.ncols flip_mat) new_order ->
  flip_cells flip_mat orient new_order
  = Ok (zip_with (fun (b : bool) r => if b then Mat.vec flip_mat r else r)
                 (map (fun o => (o <? 0)%Z) orient) new_order).
Proof.
  intros Hlen Hrows. unfold flip_cells.
  rewrite length_map, Hlen, Nat.eqb_refl. simpl.
  destruct (forallb _ _) eqn:Hall; [done | exfalso].
  apply not_true_iff_false in Hall. apply Hall.
  apply forallb_forall. intros [b r] Hin. simpl.
  apply in_combine_r in Hin.
  rewrite Forall_forall in Hrows.
  destruct b; [| done]. simpl.
  apply Nat.eqb_eq, Hrows. by apply list_elem_of_In.
Qed.



(** ** The boundary path *)




(** For degree one the path is taken: the facets' vertex indices become
    the cell-node list. *)
Lemma on_bdy_degree_one self s :
  mesh_analog self = MeshAnalogOnBdy ->
  degree self = 1%Z ->
  _cell_node_list s = None ->
  concat (fd_cell_node_list self) ≠ [] ->
  (firedrake_cell_node_list self s).2 = Ok (vertex_indices self).
Proof.
  intros Hk Hd Hs Hne. run_method. rewrite Hs, Hk, Hd.
  unfold Np.max. destruct (concat _); [done |]. by simpl.
Qed.

(** ** The reordering computation, step by step *)

(** A successful computation of the cell-node list leaves it in its
    attribute, fixes the node count read afterwards and does not touch
    the cached reordering arrays. *)
Lemma compute_fd_cell_nodes_ok self arg s s1 :
  _compute_fd_cell_nodes self arg s = (s1, Ok tt) ->
  (∃ t, _cell_node_list s1 = Some t) ∧
  _fd_to_mesh_reordering s1 = _fd_to_mesh_reordering s ∧
  _mesh_to_fd_reordering s1 = _mesh_to_fd_reordering s.
Proof.
  run_method. destruct (_cell_node_list s) as [t|] eqn:Hs.
  - intros [= <-]. eauto.
  - destruct (Np.max _) as [m|e]; simpl; [| discriminate].
    destruct (mesh_analog self).
    + intros [= <-]. simpl. eauto.
    + destruct (Np.take _ _); simpl; intros [= <-]. simpl. eauto.
    + destruct (degree self =? 1)%Z; simpl; intros [= <-]. simpl. eauto.
Qed.

Lemma num_firedrake_nodes_ok self s s1 n :
  num_firedrake_nodes self s = (s1, Ok n) ->
  (∃ t, _cell_node_list s1 = Some t) ∧
  _num_fdnodes s1 = n ∧
  _fd_to_mesh_reordering s1 = _fd_to_mesh_reordering s ∧
  _mesh_to_fd_reordering s1 = _mesh_to_fd_reordering s.
Proof.
  unfold num_firedrake_nodes, bind, read.
  destruct (_compute_fd_cell_nodes self None s) as [s' [[]|e]] eqn:Hc;
    [| discriminate].
  intros [= <- <-]. apply compute_fd_cell_nodes_ok in Hc.
  destruct Hc as (Ht & Hfd & Hmm). by repeat split.
Qed.

Lemma num_firedrake_nodes_raise self s s1 e :
  num_firedrake_nodes self s = (s1, Raise e) ->
  _compute_fd_cell_nodes self None s = (s1, Raise e).
Proof.
  unfold num_firedrake_nodes, bind, read.
  destruct (_compute_fd_cell_nodes self None s) as [s' [[]|e']];
    [discriminate | by intros [= <- <-]].
Qed.

Lemma firedrake_cell_node_list_raise self s s1 e :
  _compute_fd_cell_nodes self None s = (s1, Raise e) ->
  firedrake_cell_node_list self s = (s1, Raise e).
Proof. unfold firedrake_cell_node_list, bind. by intros ->. Qed.

(** The meshmode->firedrake computation: the flipped order, then the
    node count, then the resizing when the counts differ. *)
Lemma compute_reordering_mm_raise self s e :
  meshmode_order self = Raise e ->
  compute_reordering self false s = (s, Raise e).
Proof.
  unfold meshmode_order, compute_reordering, bind, lift, ret, raise. simpl.
  destruct (checked_flip_mat self false) as [F|e1]; simpl; [| by intros [= ->]].
  destruct (nunit_nodes self =? 0)%nat; simpl; [by intros [= <-] |].
  destruct (Np.reshape _ _ _) as [rows|e2]; simpl; [| by intros [= ->]].
  destruct (flip_cells _ _ _) as [rows'|e3]; simpl; [done | by intros [= ->]].
Qed.

Lemma compute_reordering_mm_nodes_raise self s s1 flat e :
  meshmode_order self = Ok flat ->
  num_firedrake_nodes self s = (s1, Raise e) ->
  compute_reordering self false s = (s1, Raise e).
Proof.
  unfold meshmode_order, compute_reordering, bind, lift, ret, raise. simpl.
  destruct (checked_flip_mat self false) as [F|e1]; simpl; [| done].
  destruct (nunit_nodes self =? 0)%nat; simpl; [done |].
  destruct (Np.reshape _ _ _) as [rows|e2]; simpl; [| done].
  destruct (flip_cells _ _ _) as [rows'|e3]; simpl; [| done].
  by intros _ ->.
Qed.

Lemma compute_reordering_mm_ok self s s1 flat n t :
  meshmode_order self = Ok flat ->
  num_firedrake_nodes self s = (s1, Ok n) ->
  _cell_node_list s1 = Some t ->
  compute_reordering self false s =
  match (if bool_decide (n = Some (num_meshmode_nodes self)) then Ok flat
         else collapse n t flat) with
  | Ok arr =>
      (set_mesh_to_fd_reordering (Some arr) (drop_cell_node_list true s1),
       Ok arr)
  | Raise e => (s1, Raise e)
  end.
Proof.
  intros Hflat Hn Ht.
  pose proof (num_firedrake_nodes_ok _ _ _ _ Hn) as (_ & Hn1 & _ & _).
  pose proof (num_firedrake_nodes_cached self s1 t Ht) as Hn'.
  pose proof (firedrake_cell_node_list_cached self s1 t Ht) as Ht'.
  rewrite Hn1 in Hn'.
  revert Hflat.
  unfold meshmode_order, compute_reordering, bind, lift, ret, raise. simpl.
  destruct (checked_flip_mat self false) as [F|e1]; simpl; [| done].
  destruct (nunit_nodes self =? 0)%nat; simpl; [done |].
  destruct (Np.reshape _ _ _) as [rows|e2]; simpl; [| done].
  destruct (flip_cells _ _ _) as [rows'|e3]; simpl; [| done].
  intros [= <-]. rewrite Hn.
  unfold drop_cell_node_list.
  destruct (bool_decide _) eqn:Heq; simpl.
  - unfold read, write. simpl.
    destruct (_fd_to_mesh_reordering s1); simpl; [| done].
    rewrite Hn'. by rewrite Heq.
  - rewrite Hn', Ht'.
    destruct (collapse n t _) as [arr|e]; simpl; [| done].
    unfold read, write. simpl.
    destruct (_fd_to_mesh_reordering s1); simpl; [| done].
    rewrite Hn'. by rewrite Heq.
Qed.

(** The firedrake->meshmode computation, when no firedrake->meshmode
    array is cached yet. *)
Lemma compute_reordering_fd_nodes_raise self s s1 e :
  num_firedrake_nodes self s = (s1, Raise e) ->
  compute_reordering self true s = (s1, Raise e).
Proof.
  intros Hn. unfold compute_reordering, bind. by rewrite Hn.
Qed.

Lemma compute_reordering_fd_ok self s s1 n t :
  _fd_to_mesh_reordering s = None ->
  num_firedrake_nodes self s = (s1, Ok (Some n)) ->
  _cell_node_list s1 = Some t ->
  compute_reordering self true s =
  match firedrake_order self n t with
  | Ok arr => (set_fd_to_mesh_reordering (Some arr) s1, Ok arr)
  | Raise e => (s1, Raise e)
  end.
Proof.
  intros Hc Hn Ht.
  pose proof (num_firedrake_nodes_ok _ _ _ _ Hn) as (_ & _ & Hc1 & _).
  rewrite Hc in Hc1.
  pose proof (firedrake_cell_node_list_cached self s1 t Ht) as Ht'.
  unfold firedrake_order, compute_reordering, bind, lift, ret, raise.
  rewrite Hn. simpl.
  destruct (checked_flip_mat self true) as [F|e1]; simpl; [| done].
  rewrite Ht'.
  destruct (Np.take2 _ _) as [rows|e2]; simpl; [| done].
  destruct (flip_cells _ _ _) as [rows'|e3]; simpl; [| done].
  unfold read, write. simpl. by rewrite Hc1.
Qed.

(** ** A mesh without cells *)

Lemma no_cells_reordering_raises :
  (_reordering_array Examples.no_cells true init_attrs).2 = Raise ValueError ∧
  (_reordering_array Examples.no_cells false init_attrs).2 = Raise ValueError ∧
  ¬ (∀ firedrake_to_meshmode : bool,
       (_reordering_array Examples.no_cells firedrake_to_meshmode
                          init_attrs).2 = Ok []).
Proof.
  split; [reflexivity |]. split; [reflexivity |].
  intros H. specialize (H true). discriminate H.
Qed.

(** C9, as amended: on a mesh without cells the reordering array cannot
    be computed, in either direction.  The number of firedrake nodes is
    [np.max] of the cell-node list plus one, and [np.max] raises
    [ValueError] on a list without entries: firedrake->meshmode fails with
    it at once, meshmode->firedrake after the (empty) order has been
    flipped and flattened. *)
Theorem zero_cells_reordering_raises self (firedrake_to_meshmode : bool) s :
  concat (fd_cell_node_list self) = [] ->
  _cell_node_list s = None ->
  (if firedrake_to_meshmode then _fd_to_mesh_reordering s
   else _mesh_to_fd_reordering s) = None ->
  is_ok (_reordering_array self firedrake_to_meshmode s).2 = false ∧
  (firedrake_to_meshmode = true ->
   (_reordering_array self firedrake_to_meshmode s).2 = Raise ValueError) ∧
  (firedrake_to_meshmode = false -> is_ok (meshmode_order self) = true ->
   (_reordering_array self firedrake_to_meshmode s).2 = Raise ValueError).
Proof.
  intros He Hs Hcache.
  pose proof (compute_fd_cell_nodes_empty self s Hs He) as Hc.
  assert (Hn : num_firedrake_nodes self s
               = (set_cell_node_list (Some (fd_cell_node_list self)) s,
                  Raise ValueError)).
  { unfold num_firedrake_nodes, bind. by rewrite Hc. }
  unfold _reordering_array, bind, read, ret.
  destruct firedrake_to_meshmode; rewrite Hcache.
  - rewrite (compute_reordering_fd_nodes_raise _ _ _ _ Hn). by simpl.
  - destruct (meshmode_order self) as [flat|e] eqn:Hflat.
    + rewrite (compute_reordering_mm_nodes_raise _ _ _ _ _ Hflat Hn). by simpl.
    + rewrite (compute_reordering_mm_raise _ _ _ Hflat). by simpl.
Qed.

Lemma zero_cells_reordering_raises_witness :
  is_ok (_reordering_array Examples.no_cells false init_attrs).2 = false ∧
  (false = true ->
   (_reordering_array Examples.no_cells false init_attrs).2
   = Raise ValueError) ∧
  (false = false -> is_ok (meshmode_order Examples.no_cells) = true ->
   (_reordering_array Examples.no_cells false init_attrs).2
   = Raise ValueError).
Proof.
  apply (zero_cells_reordering_raises Examples.no_cells false init_attrs).
  - reflexivity.
  - reflexivity.
  - reflexivity.
Defined.

(** ** Integer matrices: shapes, entries, transposition *)

Section MatFacts.

Implicit Types (m a b : list (list Z)) (u v : list Z).

Lemma nth_map_seq {A} (f : nat -> A) n i d :
  i < n -> nth i (map f (seq 0 n)) d = f i.
Proof.
  intros Hi. rewrite (nth_indep _ d (f 0)) by (rewrite length_map, length_seq; lia).
  rewrite map_nth, seq_nth by lia. done.
Qed.

Lemma shaped_row rows cols m i :
  Mat.shaped rows cols m -> i < rows -> length (nth i m []) = cols.
Proof.
  intros [Hl Hr] Hi. rewrite Forall_forall in Hr. apply Hr.
  apply list_elem_of_In, nth_In. lia.
Qed.

Lemma shaped_ext rows cols a b :
  Mat.shaped rows cols a -> Mat.shaped rows cols b ->
  (∀ i j, i < rows -> j < cols -> Mat.entry a i j = Mat.entry b i j) ->
  a = b.
Proof.
  intros Ha Hb He.
  apply (nth_ext a b [] []); [destruct Ha, Hb; lia |].
  intros i Hi. destruct Ha as [Hla Hra] eqn:Ea. rewrite Hla in Hi.
  apply (nth_ext _ _ 0%Z 0%Z).
  - rewrite (shaped_row rows cols a i), (shaped_row rows cols b i); done.
  - intros j Hj. rewrite (shaped_row rows cols a i) in Hj by done.
    by apply He.
Qed.

Lemma is_square_shaped m :
  Mat.is_square m = true <-> Mat.shaped (length m) (length m) m.
Proof.
  unfold Mat.is_square, Mat.shaped. rewrite forallb_forall, Forall_forall.
  split.
  - intros H. split; [done |]. intros r Hr.
    apply Nat.eqb_eq, H. by apply list_elem_of_In.
  - intros [_ H] r Hr. apply Nat.eqb_eq, H. by apply list_elem_of_In.
Qed.

Lemma shaped_ncols rows cols m :
  Mat.shaped rows cols m -> 0 < rows -> Mat.ncols m = cols.
Proof.
  intros [Hl Hr] Hpos. destruct m as [|r m]; simpl in *; [lia |].
  by inversion Hr.
Qed.

Lemma shaped_mul rows cols a b :
  length a = rows -> Mat.ncols b = cols -> Mat.shaped rows cols (Mat.mul a b).
Proof.
  intros Ha Hb. unfold Mat.mul. split; [by rewrite length_map |].
  apply Forall_forall. intros r Hr. apply list_elem_of_In, in_map_iff in Hr.
  destruct Hr as (r0 & <- & _). by rewrite length_map, length_seq.
Qed.

Lemma shaped_transpose rows cols m :
  Mat.shaped rows cols m -> 0 < rows -> Mat.shaped cols rows (Mat.transpose m).
Proof.
  intros Hm Hpos. unfold Mat.transpose.
  rewrite (shaped_ncols rows cols m Hm Hpos).
  split; [by rewrite length_map, length_seq |].
  apply Forall_forall. intros r Hr. apply list_elem_of_In, in_map_iff in Hr.
  destruct Hr as (j & <- & _). unfold Mat.column.
  rewrite length_map. by destruct Hm.
Qed.

Lemma shaped_eye n : Mat.shaped n n (Mat.eye n).
Proof.
  unfold Mat.eye. split; [by rewrite length_map, length_seq |].
  apply Forall_forall. intros r Hr. apply list_elem_of_In, in_map_iff in Hr.
  destruct Hr as (j & <- & _). by rewrite length_map, length_seq.
Qed.

Lemma entry_eye n i j :
  i < n -> j < n -> Mat.entry (Mat.eye n) i j = if (i =? j)%nat then 1%Z else 0%Z.
Proof.
  intros Hi Hj. unfold Mat.entry, Mat.eye.
  rewrite (nth_map_seq _ n i) by done. by rewrite nth_map_seq.
Qed.

Lemma nth_column m i j :
  nth i (Mat.column j m) 0%Z = Mat.entry m i j.
Proof.
  unfold Mat.column, Mat.entry.
  rewrite <- (map_nth (fun r : list Z => nth j r 0%Z) m [] i).
  f_equal. by destruct j.
Qed.

Lemma row_transpose rows cols m i :
  Mat.shaped rows cols m -> 0 < rows -> i < cols ->
  nth i (Mat.transpose m) [] = Mat.column i m.
Proof.
  intros Hm Hpos Hi. unfold Mat.transpose.
  rewrite (shaped_ncols rows cols m Hm Hpos). by rewrite nth_map_seq.
Qed.

Lemma entry_transpose rows cols m i j :
  Mat.shaped rows cols m -> 0 < rows -> i < cols ->
  Mat.entry (Mat.transpose m) i j = Mat.entry m j i.
Proof.
  intros Hm Hpos Hi. unfold Mat.entry at 1.
  rewrite (row_transpose rows cols) by done. apply nth_column.
Qed.

Lemma entry_mul a b i j :
  i < length a -> j < Mat.ncols b ->
  Mat.entry (Mat.mul a b) i j = Mat.dot (nth i a []) (Mat.column j b).
Proof.
  intros Hi Hj. unfold Mat.entry, Mat.mul.
  set (g := fun r => map (fun j => Mat.dot r (Mat.column j b))
                         (seq 0 (Mat.ncols b))).
  rewrite (nth_indep _ [] (g [])) by (by rewrite length_map).
  rewrite map_nth. unfold g. by rewrite nth_map_seq.
Qed.

Lemma dot_comm u v : Mat.dot u v = Mat.dot v u.
Proof.
  unfold Mat.dot. revert v. induction u as [|x u IH]; intros [|y v]; simpl;
    try done.
  rewrite IH. lia.
Qed.

Lemma column_transpose n m j :
  Mat.shaped n n m -> 0 < n -> j < n ->
  Mat.column j (Mat.transpose m) = nth j m [].
Proof.
  intros Hm Hpos Hj.
  pose proof (shaped_transpose n n m Hm Hpos) as [Hl _].
  apply (nth_ext _ _ 0%Z 0%Z).
  - unfold Mat.column. rewrite length_map, Hl.
    by rewrite (shaped_row n n m j).
  - intros k Hk. unfold Mat.column in Hk. rewrite length_map, Hl in Hk.
    rewrite nth_column. by rewrite (entry_transpose n n).
Qed.

Lemma mul_transpose n m :
  Mat.shaped n n m -> 0 < n ->
  Mat.mul (Mat.transpose m) (Mat.transpose m) = Mat.transpose (Mat.mul m m).
Proof.
  intros Hm Hpos.
  pose proof (shaped_transpose n n m Hm Hpos) as Ht.
  pose proof (shaped_ncols n n m Hm Hpos) as Hc.
  pose proof (shaped_ncols n n _ Ht Hpos) as Hct.
  assert (Hmm : Mat.shaped n n (Mat.mul m m))
    by (apply shaped_mul; [by destruct Hm | done]).
  apply (shaped_ext n n).
  - apply shaped_mul; [by destruct Ht | done].
  - by apply shaped_transpose.
  - intros i j Hi Hj.
    rewrite entry_mul by (destruct Ht; lia).
    rewrite (entry_transpose n n) by done.
    rewrite entry_mul by (destruct Hm; lia).
    rewrite (row_transpose n n), (column_transpose n) by done.
    apply dot_comm.
Qed.

Lemma transpose_eye n : Mat.transpose (Mat.eye n) = Mat.eye n.
Proof.
  destruct (decide (n = 0)) as [-> | Hn]; [done |].
  apply (shaped_ext n n).
  - apply shaped_transpose; [apply shaped_eye | lia].
  - apply shaped_eye.
  - intros i j Hi Hj.
    rewrite (entry_transpose n n) by (try apply shaped_eye; lia).
    rewrite !entry_eye by done.
    destruct (Nat.eqb_spec j i), (Nat.eqb_spec i j); congruence.
Qed.

Lemma transpose_transpose n m :
  Mat.shaped n n m -> 0 < n -> Mat.transpose (Mat.transpose m) = m.
Proof.
  intros Hm Hpos.
  pose proof (shaped_transpose n n m Hm Hpos) as Ht.
  apply (shaped_ext n n); [by apply shaped_transpose | done |].
  intros i j Hi Hj. by rewrite !(entry_transpose n n).
Qed.

(** A square matrix is its own inverse exactly when its transpose is. *)
Lemma involution_transpose m :
  Mat.is_square m = true ->
  Mat.mul (Mat.transpose m) (Mat.transpose m)
  = Mat.eye (length (Mat.transpose m))
  <-> Mat.mul m m = Mat.eye (length m).
Proof.
  intros Hsq. apply is_square_shaped in Hsq.
  destruct (decide (length m = 0)) as [Hz | Hz].
  { destruct m; [done | discriminate]. }
  set (n := length m) in *. assert (Hpos : 0 < n) by lia.
  pose proof (shaped_transpose n n m Hsq Hpos) as Ht.
  assert (Hmm : Mat.shaped n n (Mat.mul m m)).
  { apply shaped_mul; [done | by apply (shaped_ncols n n)]. }
  replace (length (Mat.transpose m)) with n by (by destruct Ht).
  rewrite (mul_transpose n) by done.
  split; intros H.
  - rewrite <- (transpose_transpose n (Mat.mul m m)) by done.
    rewrite H. apply transpose_eye.
  - rewrite H. apply transpose_eye.
Qed.

End MatFacts.

(** ** The flip-matrix assertion *)

Lemma sum_squares_nonneg (l : list Z) :
  (0 <= foldr Z.add 0 (map (fun x => x * x) l))%Z.
Proof. induction l as [|x l IH]; simpl; nia. Qed.

Lemma sum_squares_zero (l : list Z) :
  foldr Z.add 0%Z (map (fun x => x * x)%Z l) = 0%Z <-> Forall (fun x => x = 0%Z) l.
Proof.
  induction l as [|x l IH]; simpl; [by split |].
  pose proof (sum_squares_nonneg l). rewrite Forall_cons, <- IH. nia.
Qed.

(** An integer matrix has Frobenius norm below [1e-13] exactly when it
    is zero. *)
Lemma norm_lt_tol_zero (d : list (list Z)) :
  Mat.norm_lt d flip_tol = true <-> Forall (fun x => x = 0%Z) (concat d).
Proof.
  rewrite <- sum_squares_zero. unfold Mat.norm_lt.
  fold (Mat.norm_sq d). pose proof (sum_squares_nonneg (concat d)) as Hpos.
  fold (Mat.norm_sq d) in Hpos.
  rewrite negb_true_iff, <- not_true_iff_false, Qle_bool_iff.
  unfold Qle, flip_tol. simpl. lia.
Qed.

Lemma sub_row_zero (u v : list Z) :
  length u = length v ->
  Forall (fun x => x = 0%Z) (zip_with Z.sub u v) <-> u = v.
Proof.
  revert v. induction u as [|x u IH]; intros [|y v] Hl; simpl in *;
    try done.
  rewrite Forall_cons, IH by lia. split.
  - intros [Hxy ->]. f_equal. lia.
  - intros [= -> ->]. split; [lia | done].
Qed.

Lemma sub_zero rows cols (a b : list (list Z)) :
  Mat.shaped rows cols a -> Mat.shaped rows cols b ->
  Forall (fun x => x = 0%Z) (concat (Mat.sub a b)) <-> a = b.
Proof.
  revert rows b. induction a as [|u a IH]; intros rows [|v b] [Hla Hra] [Hlb Hrb];
    simpl in *; try done; try lia.
  inversion Hra as [|?? Hu Hra']; inversion Hrb as [|?? Hv Hrb']; subst.
  rewrite Forall_app, sub_row_zero by lia.
  rewrite (IH (length a) b) by (split; [done || lia | done]).
  split; [by intros [-> ->] | by intros [= -> ->]].
Qed.

Lemma flip_mat_used_shaped self (ftm : bool) :
  Mat.is_square (rounded_flip_matrix self) = true ->
  let f := flip_mat_used self ftm in
  Mat.shaped (length f) (length f) f ∧ Mat.shaped (length f) (length f) (Mat.mul f f).
Proof.
  intros Hsq. apply is_square_shaped in Hsq. unfold flip_mat_used.
  set (r := rounded_flip_matrix self) in *.
  destruct (decide (length r = 0)) as [Hz | Hz].
  { destruct r; [| discriminate]. destruct ftm; by repeat split. }
  assert (Hpos : 0 < length r) by lia.
  pose proof (shaped_ncols _ _ r Hsq Hpos) as Hc.
  pose proof (shaped_transpose _ _ r Hsq Hpos) as Ht.
  destruct ftm; simpl.
  - split; [done |]. by apply shaped_mul.
  - destruct Ht as [Hl Hr]. rewrite Hl. split; [done |].
    apply shaped_mul; [done |]. by apply (shaped_ncols (length r) (length r)).
Qed.

(** What the assertion decides: whether the rounded matrix (transposed
    for meshmode->firedrake) times itself is exactly the identity. *)
Lemma checked_flip_mat_spec self (ftm : bool) :
  Mat.is_square (rounded_flip_matrix self) = true ->
  let f := flip_mat_used self ftm in
  checked_flip_mat self ftm
  = if bool_decide (Mat.mul f f = Mat.eye (length f)) then Ok f
    else Raise AssertionError.
Proof.
  intros Hsq f.
  destruct (flip_mat_used_shaped self ftm Hsq) as [Hf Hff]. fold f in Hf, Hff.
  unfold checked_flip_mat. fold (rounded_flip_matrix self). rewrite Hsq.
  fold (flip_mat_used self ftm). fold f.
  pose proof (norm_lt_tol_zero (Mat.sub (Mat.mul f f) (Mat.eye (length f)))) as Hn.
  rewrite (sub_zero (length f) (length f)) in Hn by (done || apply shaped_eye).
  destruct (Mat.norm_lt _ _).
  - rewrite bool_decide_eq_true_2; [done | by apply Hn].
  - rewrite bool_decide_eq_false_2; [done |]. intros H. by apply Hn in H.
Qed.

(** A failed flip-matrix check aborts the reordering computation. *)
Lemma reordering_array_flip_raise self (ftm : bool) s e :
  (if ftm then _fd_to_mesh_reordering s else _mesh_to_fd_reordering s) = None ->
  checked_flip_mat self ftm = Raise e ->
  is_ok (_reordering_array self ftm s).2 = false ∧
  (ftm = false -> _reordering_array self ftm s = (s, Raise e)).
Proof.
  intros Hcache He. unfold _reordering_array, bind, read.
  destruct ftm; rewrite Hcache; unfold compute_reordering, bind, lift, ret, raise.
  - split; [| done].
    destruct (num_firedrake_nodes self s) as [s1 [[n|]|e1]]; simpl;
      rewrite ?He; done.
  - simpl. rewrite He. by split.
Qed.

Lemma exact_involution_fails_assertion :
  QMat.squares_to_identity 0 Examples.half_reflection = true ∧
  QMat.squares_to_identity (1 # 1000000000000) Examples.half_reflection = true ∧
  checked_flip_mat Examples.one_interval_half_reflection true
  = Raise AssertionError ∧
  checked_flip_mat Examples.one_interval_half_reflection false
  = Raise AssertionError ∧
  (_reordering_array Examples.one_interval_half_reflection true init_attrs).2
  = Raise AssertionError ∧
  (_reordering_array Examples.one_interval_half_reflection false init_attrs).2
  = Raise AssertionError.
Proof. repeat split; vm_compute; reflexivity. Qed.

Lemma dot_abs_le u v :
  (Z.abs (Mat.dot u v) <= Mat.dot (map Z.abs u) (map Z.abs v))%Z.
Proof.
  unfold Mat.dot. revert v. induction u as [|x u IH]; intros [|y v]; simpl;
    try done.
  specialize (IH v). rewrite <- Z.abs_mul.
  etrans; [apply Z.abs_triangle |]. apply Z.add_le_mono_l, IH.
Qed.

Lemma column_abs j m :
  Mat.column j (map (map Z.abs) m) = map Z.abs (Mat.column j m).
Proof.
  unfold Mat.column. rewrite !map_map. apply map_ext. intros r.
  rewrite <- (map_nth Z.abs r 0%Z j). done.
Qed.

(** What [Mat.float64_exact] bounds: the entries of the product, and
    with them every sum of some of the products that make up an entry. *)
Lemma float64_exact_entries m i j :
  Mat.float64_exact m = true ->
  i < length m -> j < Mat.ncols m ->
  (Z.abs (Mat.entry (Mat.mul m m) i j)
   <= Mat.dot (map Z.abs (nth i m [])) (map Z.abs (Mat.column j m))
   < 2 ^ 53)%Z.
Proof.
  intros Hex Hi Hj. rewrite entry_mul by done. split; [apply dot_abs_le |].
  unfold Mat.float64_exact in Hex. rewrite forallb_forall in Hex.
  specialize (Hex (nth i m []) (nth_In _ _ Hi)).
  rewrite forallb_forall in Hex.
  assert (Hin : In j (seq 0 (Mat.ncols m))) by (apply in_seq; lia).
  specialize (Hex j Hin).
  by apply Z.ltb_lt in Hex.
Qed.

(** The bound is needed: this integer matrix is its own inverse, but
    float64 cannot hold the square of its first entry, so that numpy's
    product is not the identity. *)
Remark large_involution_outside_float64 :
  Mat.mul Examples.large_involution Examples.large_involution = Mat.eye 2 ∧
  Mat.float64_exact Examples.large_involution = false.
Proof. split; vm_compute; reflexivity. Qed.

(** C3, as amended: the reordering computation rounds the flip matrix to
    integers, transposes it for meshmode->firedrake, and asserts that the
    result times itself is the identity up to a Frobenius norm below
    [1e-13].  For a rounded matrix small enough for float64 to form the
    product without rounding ([Mat.float64_exact]) this means exactly:
    when the rounded matrix is its own inverse the assertion passes in
    both directions; when it is not, the assertion fails in both
    directions with [AssertionError] and no reordering array is produced.
    The condition is on the rounded matrix: a flip matrix that is its own
    inverse before rounding can still fail. *)
Theorem flip_assertion_on_rounded_matrix self (ftm : bool) :
  Mat.is_square (rounded_flip_matrix self) = true ->
  Mat.float64_exact (flip_mat_used self ftm) = true ->
  let r := rounded_flip_matrix self in
  (Mat.mul r r = Mat.eye (length r) ->
   checked_flip_mat self ftm = Ok (flip_mat_used self ftm)) ∧
  (Mat.mul r r ≠ Mat.eye (length r) ->
   checked_flip_mat self ftm = Raise AssertionError ∧
   ∀ s, (if ftm then _fd_to_mesh_reordering s
         else _mesh_to_fd_reordering s) = None ->
        is_ok (_reordering_array self ftm s).2 = false ∧
        (ftm = false ->
         _reordering_array self ftm s = (s, Raise AssertionError))).
Proof.
  intros Hsq _ r.
  pose proof (checked_flip_mat_spec self ftm Hsq) as Hspec. simpl in Hspec.
  pose proof (involution_transpose r Hsq) as Ht.
  assert (Hiff : Mat.mul (flip_mat_used self ftm) (flip_mat_used self ftm)
                 = Mat.eye (length (flip_mat_used self ftm))
                 <-> Mat.mul r r = Mat.eye (length r)).
  { unfold flip_mat_used. fold r. by destruct ftm. }
  split; intros Hr.
  - rewrite Hspec, bool_decide_eq_true_2; [done | by apply Hiff].
  - assert (Hchk : checked_flip_mat self ftm = Raise AssertionError).
    { rewrite Hspec, bool_decide_eq_false_2; [done |]. intros H. by apply Hiff in H. }
    split; [done |]. intros s Hs.
    by apply reordering_array_flip_raise.
Qed.

Lemma flip_assertion_on_rounded_matrix_witness :
  checked_flip_mat Examples.two_triangles_cg false
  = Ok (flip_mat_used Examples.two_triangles_cg false) ∧
  checked_flip_mat Examples.one_interval_half_reflection false
  = Raise AssertionError.
Proof.
  split.
  - apply (flip_assertion_on_rounded_matrix Examples.two_triangles_cg false);
      reflexivity.
  - apply (flip_assertion_on_rounded_matrix
             Examples.one_interval_half_reflection false);
      [reflexivity | reflexivity | vm_compute; discriminate].
Defined.

(** ** OpConnection: the target boundary ids *)

Lemma rmapM_ok {A B} (f : A -> result B) (l : list A) :
  (∀ x, x ∈ l -> ∃ y, f x = Ok y) ->
  ∃ ys, rmapM f l = Ok ys ∧ Forall2 (fun x y => f x = Ok y) l ys.
Proof.
  induction l as [|x l IH]; intros H; simpl.
  - eexists. by split.
  - destruct (H x) as [y Hy]; [by left |].
    destruct IH as (ys & Hys & HF); [intros z Hz; apply H; by right |].
    rewrite Hy, Hys. simpl. eexists. split; [done |]. by constructor.
Qed.

Lemma rmapM_raise {A B} (f : A -> result B) (l : list A) x e :
  x ∈ l -> f x = Raise e ->
  ∃ x' e', x' ∈ l ∧ f x' = Raise e' ∧ rmapM f l = Raise e'.
Proof.
  induction l as [|a l IH]; intros Hx He; [by apply elem_of_nil in Hx |].
  simpl. destruct (f a) as [y|e0] eqn:Ha; simpl.
  - apply elem_of_cons in Hx as [-> | Hx]; [congruence |].
    destruct (IH Hx He) as (x' & e' & Hx' & He' & ->).
    exists x', e'. split; [by right | done].
  - exists a, e0. split; [by left | done].
Qed.

Lemma insertion_order_iterates : iterates Examples.insertion_order.
Proof.
  intros l. unfold Examples.insertion_order. split.
  - rewrite reverse_Permutation. apply NoDup_remove_dups.
  - intros x. by rewrite elem_of_reverse, elem_of_remove_dups, elem_of_reverse.
Qed.







(** ** OpConnection: the result function *)

Section CallFacts.

Context {V : Type} (zero : V) (ndofs : nat) (convert : list V -> result (list V)).

Lemma length_store_at (data : list V) places src :
  length (OpConnection.store_at data places src) = length data.
Proof.
  revert data src. induction places as [|k places IH]; intros data [|v src];
    simpl; try done.
  by rewrite IH, length_insert.
Qed.

Lemma store_at_frame (data : list V) places src i :
  i ∉ places ->
  OpConnection.store_at data places src !! i = data !! i.
Proof.
  revert data src. induction places as [|k places IH]; intros data [|v src] Hi;
    simpl; try done.
  apply not_elem_of_cons in Hi as [Hik Hi].
  rewrite IH by done. by apply list_lookup_insert_ne.
Qed.




End CallFacts.




(** ** Indexing with an integer array *)

Lemma index_lt n i k : Np.index n i = Some k -> k < n.
Proof.
  unfold Np.index.
  destruct (_ && _) eqn:H1.
  { intros [= <-]. apply andb_true_iff in H1 as [Hlo Hhi].
    apply Z.leb_le in Hlo. apply Z.ltb_lt in Hhi. lia. }
  clear H1. destruct (_ && _) eqn:H2; [| done].
  intros [= <-]. apply andb_true_iff in H2 as [Hlo Hhi].
  apply Z.leb_le in Hlo. apply Z.ltb_lt in Hhi. lia.
Qed.

Lemma index_nonneg n i :
  (0 <= i < Z.of_nat n)%Z -> Np.index n i = Some (Z.to_nat i).
Proof.
  intros Hi. unfold Np.index.
  by rewrite (proj2 (Z.leb_le 0 i)), (proj2 (Z.ltb_lt i (Z.of_nat n))) by lia.
Qed.

Lemma get_index {A} (a : list A) i k :
  Np.index (length a) i = Some k ->
  ∃ x, a !! k = Some x ∧ Np.get a i = Ok x.
Proof.
  intros Hk. unfold Np.get. rewrite Hk.
  destruct (lookup_lt_is_Some_2 a k (index_lt _ _ _ Hk)) as [x Hx].
  rewrite Hx. eauto.
Qed.

Lemma get_ok {A} (a : list A) i x :
  Np.get a i = Ok x ->
  ∃ k, Np.index (length a) i = Some k ∧ a !! k = Some x.
Proof.
  unfold Np.get. destruct (Np.index _ _) as [k|]; [| discriminate].
  destruct (a !! k) as [y|] eqn:Hy; [| discriminate].
  intros [= <-]. eauto.
Qed.

(** A gather succeeds when every index addresses the array, and then
    entry [k] of the result is the entry of the array that index [k]
    addresses. *)
Lemma take_ok {A} (a : list A) idx :
  Forall (fun i => is_Some (Np.index (length a) i)) idx ->
  ∃ out, Np.take a idx = Ok out.
Proof.
  intros H. destruct (rmapM_ok (Np.get a) idx) as (out & Hout & _); [| eauto].
  intros i Hi. rewrite Forall_forall in H. destruct (H i Hi) as [k Hk].
  destruct (get_index a i k Hk) as (x & _ & Hx). eauto.
Qed.

Lemma take_lookup {A} (a : list A) idx out :
  Np.take a idx = Ok out ->
  length out = length idx ∧
  ∀ k i, idx !! k = Some i ->
    ∃ p, Np.index (length a) i = Some p ∧ out !! k = a !! p.
Proof.
  unfold Np.take. revert out. induction idx as [|i idx IH]; intros out; simpl.
  - intros [= <-]. split; [done |]. intros k i Hk. by destruct k.
  - destruct (Np.get a i) as [x|] eqn:Hx; simpl; [| discriminate].
    destruct (rmapM _ idx) as [ys|]; simpl; [| discriminate].
    intros [= <-]. destruct (IH ys eq_refl) as [Hl Hy].
    split; [simpl; lia |]. intros [|k] j Hk; simpl in *.
    + injection Hk as <-. destruct (get_ok a i x Hx) as (p & Hp & Hpx).
      exists p. by rewrite Hpx.
    + by apply Hy.
Qed.

(** ** Scalar and vector data *)

Section VectorFacts.

Context {V : Type}.
Implicit Types (rows : list (list V)).

Lemma nd_column_cons j (r : list V) rows x :
  r !! j = Some x -> nd_column j (r :: rows) = x :: nd_column j rows.
Proof. intros H. unfold nd_column. simpl. by rewrite H. Qed.

Lemma nd_column_lookup c rows j i r :
  Forall (fun r => length r = c) rows -> j < c ->
  rows !! i = Some r ->
  ∃ x, r !! j = Some x ∧ nd_column j rows !! i = Some x.
Proof.
  intros Hrows Hj. revert i. induction Hrows as [|r0 rows Hr0 Hrows IH];
    intros i Hi; [by destruct i |].
  destruct (lookup_lt_is_Some_2 r0 j) as [x0 Hx0]; [lia |].
  rewrite (nd_column_cons j r0 rows x0 Hx0).
  destruct i as [|i]; simpl in *.
  - injection Hi as <-. eauto.
  - by apply IH.
Qed.

Lemma length_nd_column c rows j :
  Forall (fun r => length r = c) rows -> j < c ->
  length (nd_column j rows) = length rows.
Proof.
  intros Hrows Hj. induction Hrows as [|r0 rows Hr0 Hrows IH]; [done |].
  destruct (lookup_lt_is_Some_2 r0 j) as [x0 Hx0]; [lia |].
  rewrite (nd_column_cons j r0 rows x0 Hx0). simpl. by rewrite IH.
Qed.

(** Gathering rows and then reading component [j] is gathering
    component [j]. *)
Lemma take_nd_column c rows j idx rows' :
  Forall (fun r => length r = c) rows -> j < c ->
  Np.take rows idx = Ok rows' ->
  Forall (fun r => length r = c) rows' ∧
  Np.take (nd_column j rows) idx = Ok (nd_column j rows').
Proof.
  intros Hrows Hj. unfold Np.take. revert rows'.
  induction idx as [|i idx IH]; intros rows'; simpl.
  - intros [= <-]. by split.
  - destruct (Np.get rows i) as [r|] eqn:Hr; simpl; [| discriminate].
    destruct (rmapM _ idx) as [rs|]; simpl; [| discriminate].
    intros [= <-]. destruct (IH rs eq_refl) as [Hrs Hcol].
    destruct (get_ok rows i r Hr) as (p & Hp & Hpr).
    destruct (nd_column_lookup c rows j p r Hrows Hj Hpr) as (x & Hx & Hcx).
    split.
    + constructor; [| done]. rewrite Forall_forall in Hrows.
      apply Hrows, list_elem_of_lookup. eauto.
    + rewrite (nd_column_cons j r rs x Hx).
      unfold Np.get at 1. rewrite (length_nd_column c) by done.
      rewrite Hp, Hcx. simpl. by rewrite Hcol.
Qed.

End VectorFacts.

(** C8: [reorder_nodes] takes data of shape [(nodes,)] and of shape
    [(nodes, dim)] in the firedrake->meshmode direction.  When the
    reordering array is available and addresses the nodes of the input,
    the vector input is reordered into an array of shape [(dim, n)] (one
    row per vector component, [n] the length of the reordering array)
    whose row [j] is what [reorder_nodes] returns for the scalar array made
    of component [j]: the same reordering array gathers the node axis in
    both cases. *)
Theorem reorder_nodes_vector_componentwise {V} self s s' arr c
    (rows : list (list V)) :
  _reordering_array self true s = (s', Ok arr) ->
  Forall (fun r => length r = c) rows ->
  Forall (fun i => is_Some (Np.index (length rows) i)) arr ->
  ∃ out,
    reorder_nodes self (Arr2 c rows) true s = (s', Ok (Arr2 (length arr) out)) ∧
    length out = c ∧
    ∀ j, j < c ->
      ∃ col, out !! j = Some col ∧
             Np.take (nd_column j rows) arr = Ok col ∧
             reorder_nodes self (Arr1 (nd_column j rows)) true s
             = (s', Ok (Arr1 col)).
Proof.
  intros Harr Hrows Hidx.
  destruct (take_ok rows arr Hidx) as [rows' Hrows'].
  destruct (take_lookup rows arr rows' Hrows') as [Hlen _].
  exists (map (fun j => nd_column j rows') (seq 0 c)).
  split; [| split].
  - unfold reorder_nodes, bind, lift, ret. rewrite Harr. simpl.
    rewrite Hrows'. simpl. by rewrite Hlen.
  - by rewrite length_map, length_seq.
  - intros j Hj.
    destruct (take_nd_column c rows j arr rows' Hrows Hj Hrows') as [_ Hcol].
    exists (nd_column j rows'). split; [| split; [done |]].
    + change (map ?f ?l) with (f <$> l).
      by rewrite list_lookup_fmap, lookup_seq_lt.
    + unfold reorder_nodes, bind, lift, ret. rewrite Harr. simpl.
      by rewrite Hcol.
Qed.

Lemma reorder_nodes_vector_componentwise_witness :
  ∃ out,
    reorder_nodes Examples.two_triangles_cg
      (Arr2 2 [[10; 11]; [20; 21]; [30; 31]; [40; 41]]%Z) true init_attrs
    = ((_reordering_array Examples.two_triangles_cg true init_attrs).1,
       Ok (Arr2 (length [0; 1; 2; 2; 1; 3]%Z) out)) ∧
    length out = 2 ∧
    ∀ j, j < 2 ->
      ∃ col, out !! j = Some col ∧
             Np.take (nd_column j [[10; 11]; [20; 21]; [30; 31]; [40; 41]]%Z)
                     [0; 1; 2; 2; 1; 3]%Z = Ok col ∧
             reorder_nodes Examples.two_triangles_cg
               (Arr1 (nd_column j [[10; 11]; [20; 21]; [30; 31]; [40; 41]]%Z))
               true init_attrs
             = ((_reordering_array Examples.two_triangles_cg true init_attrs).1,
                Ok (Arr1 col)).
Proof.
  apply (reorder_nodes_vector_componentwise Examples.two_triangles_cg
           init_attrs _ [0; 1; 2; 2; 1; 3]%Z 2
           [[10; 11]; [20; 21]; [30; 31]; [40; 41]]%Z).
  - reflexivity.
  - repeat constructor.
  - repeat constructor; by eexists.
Defined.

(** ** reorder_nodes and the storage of its argument *)

Section MemFacts.

Context {V : Type}.
Implicit Types (mem : list (ndarray V)) (h : Mem.handle) (x y : ndarray V).

Lemma value_base_lt mem h x : Mem.value mem h = Some x -> Mem.base h < length mem.
Proof.
  unfold Mem.value. destruct (mem !! Mem.base h) eqn:Hb; [| done].
  intros _. by apply lookup_lt_Some in Hb.
Qed.

(** Allocation adds a buffer at the end and changes no other. *)
Lemma alloc_spec mem y mem' h' :
  Mem.alloc y mem = (mem', h') ->
  Mem.base h' = length mem ∧
  Mem.value mem' h' = Some y ∧
  ∀ h x, Mem.value mem h = Some x -> Mem.value mem' h = Some x.
Proof.
  unfold Mem.alloc. intros [= <- <-]. split; [done |]. split.
  - unfold Mem.value. cbn [Mem.base Mem.transposed].
    by rewrite list_lookup_middle.
  - intros h x Hx. pose proof (value_base_lt _ _ _ Hx) as Hlt.
    unfold Mem.value in *. by rewrite lookup_app_l.
Qed.

Lemma alloc_lookup mem y b :
  b < length mem -> (Mem.alloc y mem).1 !! b = mem !! b.
Proof. intros Hb. simpl. by rewrite lookup_app_l. Qed.

End MemFacts.

(** C10: [reorder_nodes] does not write to the array it is given.  On a
    store of arrays in which the argument [nodes] denotes the value [x],
    every buffer of the store is the same after the call, so [nodes] still
    denotes [x]; the array returned lives in a buffer that did not exist
    before the call (indexing with an integer array copies, and so does
    [.T.copy()]), hence shares no storage with [nodes]; and its value is
    the one [reorder_nodes] computes from [x]. *)
Theorem reorder_nodes_fresh_copy {V} self (nodes : Mem.handle) (ftm : bool)
    s (mem : list (ndarray V)) (x : ndarray V) :
  Mem.value mem nodes = Some x ->
  ∃ s' mem' r,
    Mem.reorder_nodes self nodes ftm s mem = (s', mem', r) ∧
    (∀ b, b < length mem -> mem' !! b = mem !! b) ∧
    Mem.value mem' nodes = Some x ∧
    match r with
    | Ok h =>
        length mem <= Mem.base h ∧
        Mem.base h ≠ Mem.base nodes ∧
        ∃ y, Mem.value mem' h = Some y ∧
             reorder_nodes self x ftm s = (s', Ok y)
    | Raise e => reorder_nodes self x ftm s = (s', Raise e)
    end.
Proof.
  intros Hx. pose proof (value_base_lt _ _ _ Hx) as Hlt.
  unfold Mem.reorder_nodes, reorder_nodes, bind, lift, ret.
  destruct (_reordering_array self ftm s) as [s' [arr|e]]; simpl;
    [| by exists s', mem, (Raise e)].
  unfold Mem.take, Mem.ndim_of. rewrite Hx.
  destruct (nd_take x arr) as [y|e]; simpl;
    [| by exists s', mem, (Raise e)].
  destruct (alloc_spec mem y _ _ eq_refl) as (Hb1 & Hv1 & Hk1). simpl in Hb1.
  set (mem1 := mem ++ [y]) in *.
  set (h1 := {| Mem.base := length mem; Mem.transposed := false |}) in *.
  destruct (1 <? ndim x)%nat.
  - unfold Mem.copy.
    assert (Hvt : Mem.value mem1 (Mem.T h1) = Some (nd_transpose y)).
    { unfold Mem.value, Mem.T in *. simpl in *.
      destruct (mem1 !! length mem); [| done]. by injection Hv1 as ->. }
    rewrite Hvt.
    destruct (alloc_spec mem1 (nd_transpose y) _ _ eq_refl) as (Hb2 & Hv2 & Hk2).
    simpl in Hb2.
    eexists s', _, (Ok _). split; [reflexivity |]. split; [| split; [| split; [| split]]].
    + intros b Hb. unfold mem1. rewrite !lookup_app_l; [done | done |].
      rewrite length_app. lia.
    + by apply Hk2, Hk1.
    + simpl. unfold mem1. rewrite length_app. lia.
    + simpl. unfold mem1. rewrite length_app. simpl. lia.
    + exists (nd_transpose y). by split.
  - eexists s', _, (Ok _). split; [reflexivity |]. split; [| split; [| split; [| split]]].
    + intros b Hb. unfold mem1. by rewrite lookup_app_l.
    + by apply Hk1.
    + simpl. lia.
    + simpl. lia.
    + exists y. by split.
Qed.

Lemma reorder_nodes_fresh_copy_witness :
  ∃ s' mem' r,
    Mem.reorder_nodes Examples.two_triangles_cg
      {| Mem.base := 0; Mem.transposed := false |} true init_attrs
      [Arr1 [10; 20; 30; 40]%Z]
    = (s', mem', r) ∧
    (∀ b, b < length [Arr1 [10; 20; 30; 40]%Z] ->
          mem' !! b = [Arr1 [10; 20; 30; 40]%Z] !! b) ∧
    Mem.value mem' {| Mem.base := 0; Mem.transposed := false |}
    = Some (Arr1 [10; 20; 30; 40]%Z) ∧
    match r with
    | Ok h =>
        length [Arr1 [10; 20; 30; 40]%Z] <= Mem.base h ∧
        Mem.base h ≠ 0 ∧
        ∃ y, Mem.value mem' h = Some y ∧
             reorder_nodes Examples.two_triangles_cg (Arr1 [10; 20; 30; 40]%Z)
                           true init_attrs = (s', Ok y)
    | Raise e =>
        reorder_nodes Examples.two_triangles_cg (Arr1 [10; 20; 30; 40]%Z)
                      true init_attrs = (s', Raise e)
    end.
Proof.
  apply (reorder_nodes_fresh_copy Examples.two_triangles_cg
           {| Mem.base := 0; Mem.transposed := false |} true init_attrs
           [Arr1 [10; 20; 30; 40]%Z] (Arr1 [10; 20; 30; 40]%Z)).
  reflexivity.
Defined.

(** ** Resizing when meshmode has duplicate nodes *)

Lemma to_int32_small v : (0 <= v < 2 ^ 31)%Z -> Np.to_int32 v = v.
Proof. intros Hv. unfold Np.to_int32. rewrite Z.mod_small; lia. Qed.

(** The last element of a filtered range is the largest index that
    passes the filter. *)
Lemma last_filter_seq (P : nat -> Prop) `{∀ q, Decision (P q)} m :
  match last (filter P (seq 0 m)) with
  | Some p => P p ∧ p < m ∧ ∀ q, p < q -> q < m -> ¬ P q
  | None => ∀ q, q < m -> ¬ P q
  end.
Proof.
  induction m as [|m IH]; [simpl; intros q Hq; lia |].
  rewrite seq_S, filter_app. simpl.
  destruct (decide (P m)) as [HP | HP].
  - rewrite (filter_cons_True P m []) by done. rewrite filter_nil, last_snoc.
    split; [done |]. split; [lia |]. intros q Hq1 Hq2. lia.
  - rewrite (filter_cons_False P m []) by done. rewrite filter_nil, app_nil_r.
    destruct (last (filter P (seq 0 m))) as [p|].
    + destruct IH as (Hp & Hlt & Hq). split; [done |]. split; [lia |].
      intros q Hq1 Hq2. destruct (decide (q = m)) as [-> | Hne]; [done |].
      apply Hq; lia.
    + intros q Hq. destruct (decide (q = m)) as [-> | Hne]; [done |].
      apply IH. lia.
Qed.

Lemma last_slot_spec n (fd_indices : list Z) k :
  match last (slots_of n fd_indices k) with
  | Some p =>
      fd_indices !! p ≫= Np.index n = Some k ∧
      ∀ q, p < q -> fd_indices !! q ≫= Np.index n ≠ Some k
  | None => ∀ q, fd_indices !! q ≫= Np.index n ≠ Some k
  end.
Proof.
  unfold slots_of.
  pose proof (last_filter_seq
                (fun p => fd_indices !! p ≫= Np.index n = Some k)
                (length fd_indices)) as H.
  destruct (last _) as [p|].
  - destruct H as (Hp & Hlt & Hq). split; [done |]. intros q Hpq.
    destruct (decide (q < length fd_indices)) as [Hlt' | Hge].
    + by apply Hq.
    + rewrite lookup_ge_None_2 by lia. done.
  - intros q. destruct (decide (q < length fd_indices)) as [Hlt' | Hge].
    + by apply H.
    + rewrite lookup_ge_None_2 by lia. done.
Qed.

(** The loop writes, for every node, the entry of [new_order] at the
    last slot that addresses the node, and leaves the nodes no slot
    addresses as they were. *)
Lemma collapse_loop_spec (fd_indices : list Z) :
  ∀ pyt_ndx (new_order newnew_order : list Z),
    Forall (fun c => is_Some (Np.index (length newnew_order) c)) fd_indices ->
    pyt_ndx + length fd_indices <= length new_order ->
    ∃ out,
      collapse_loop fd_indices pyt_ndx new_order newnew_order = Ok out ∧
      length out = length newnew_order ∧
      (∀ k p,
         fd_indices !! p ≫= Np.index (length newnew_order) = Some k ->
         (∀ q, p < q ->
               fd_indices !! q ≫= Np.index (length newnew_order) ≠ Some k) ->
         out !! k = Np.to_int32 <$> new_order !! (pyt_ndx + p)) ∧
      (∀ k,
         (∀ q, fd_indices !! q ≫= Np.index (length newnew_order) ≠ Some k) ->
         out !! k = newnew_order !! k).
Proof.
  induction fd_indices as [|c rest IH]; intros pyt_ndx new_order newnew Hidx Hlen.
  - exists newnew. split; [done |]. split; [done |]. split; [| done].
    intros k p Hp. by destruct p.
  - simpl in Hlen. inversion Hidx as [|?? [kc Hkc] Hrest]; subst.
    destruct (lookup_lt_is_Some_2 new_order pyt_ndx) as [v Hv]; [lia |].
    simpl. rewrite Hv, Hkc.
    pose proof (index_lt _ _ _ Hkc) as Hkn.
    destruct (IH (S pyt_ndx) new_order (<[kc := Np.to_int32 v]> newnew))
      as (out & Hout & Hl & Hlast & Hnone).
    { by rewrite length_insert. }
    { lia. }
    rewrite length_insert in Hl, Hlast, Hnone.
    exists out. split; [done |]. split; [done |]. split.
    + intros k [|p] Hp Hq; simpl in Hp.
      * rewrite Hkc in Hp. injection Hp as <-.
        rewrite Hnone; [| intros q; apply (Hq (S q)); lia].
        rewrite Nat.add_0_r, Hv. simpl. by apply list_lookup_insert_eq.
      * rewrite Hlast with (p := p); [| done | intros q Hpq; apply (Hq (S q)); lia].
        f_equal. f_equal. lia.
    + intros k Hk. rewrite Hnone; [| intros q; apply (Hk (S q))].
      apply list_lookup_insert_ne. intros ->. apply (Hk 0). simpl. by rewrite Hkc.
Qed.

(** The two accessors run the same computation. *)
Lemma accessors_run self s n t :
  (num_firedrake_nodes self s).2 = Ok n ->
  (firedrake_cell_node_list self s).2 = Ok t ->
  ∃ s1, num_firedrake_nodes self s = (s1, Ok n) ∧ _cell_node_list s1 = Some t.
Proof.
  unfold num_firedrake_nodes, firedrake_cell_node_list, bind, read, ret, raise.
  destruct (_compute_fd_cell_nodes self None s) as [s1 [[]|e]]; simpl;
    [| discriminate].
  intros [= <-].
  destruct (_cell_node_list s1) as [t'|] eqn:Ht'; simpl; [| discriminate].
  intros [= <-]. by exists s1.
Qed.

(** C2: meshmode->firedrake with duplicate nodes (the node counts
    differ).  Let [flat] be the meshmode order after the flip step and [t]
    the cell-node list, with one meshmode node per slot.  Then
    [reorder_nodes] returns an array with one entry per firedrake node,
    and the entry of a node is the input value that [flat] holds at the
    last slot of [t], in iteration order, that addresses the node: the
    value of the slot itself when its cell is not flipped, of the slot's
    flip partner when it is.  For a node addressed by exactly one slot
    this is that slot's value; for a node addressed by several it is the
    last one's, never a combination.  Calling again returns the same
    array. *)
Theorem collapse_last_write_wins {V} self s (x : list V) (n : nat) t flat :
  _mesh_to_fd_reordering s = None ->
  (num_firedrake_nodes self s).2 = Ok (Some (Z.of_nat n)) ->
  (firedrake_cell_node_list self s).2 = Ok t ->
  Z.of_nat n ≠ num_meshmode_nodes self ->
  meshmode_order self = Ok flat ->
  length (concat t) <= length flat ->
  Forall (fun c => 0 <= c < Z.of_nat n)%Z (concat t) ->
  Forall (fun v => 0 <= v < Z.of_nat (length x) ∧ v < 2 ^ 31)%Z flat ->
  0 < length x ->
  ∃ s' out,
    reorder_nodes self (Arr1 x) false s = (s', Ok (Arr1 out)) ∧
    length out = n ∧
    (∀ k p v, slots_of n (concat t) k = [p] -> flat !! p = Some v ->
              out !! k = x !! Z.to_nat v) ∧
    (∀ k p v, last (slots_of n (concat t) k) = Some p -> flat !! p = Some v ->
              out !! k = x !! Z.to_nat v) ∧
    reorder_nodes self (Arr1 x) false s' = (s', Ok (Arr1 out)).
Proof.
  intros Hcache Hn Ht Hneq Hflat Hlen Hrange Hvals Hx.
  destruct (accessors_run self s _ _ Hn Ht) as (s1 & Hn1 & Ht1).
  pose proof (compute_reordering_mm_ok self s s1 flat _ t Hflat Hn1 Ht1) as Hc.
  rewrite bool_decide_eq_false_2 in Hc by (intros [= H]; done).
  unfold collapse in Hc.
  rewrite (proj2 (Z.ltb_ge (Z.of_nat n) 0)), Nat2Z.id in Hc by lia.
  destruct (collapse_loop_spec (concat t) 0 flat (replicate n 0%Z))
    as (arr & Harr & Hl & Hlast & Hnone).
  { rewrite length_replicate. eapply Forall_impl; [exact Hrange |].
    intros c Hc'. simpl in Hc'. rewrite index_nonneg by lia. eauto. }
  { simpl. lia. }
  rewrite length_replicate in Hl, Hlast, Hnone.
  rewrite Harr in Hc.
  (* every entry of the resized array addresses the input *)
  assert (Hentry : ∀ k, k < n ->
            match last (slots_of n (concat t) k) with
            | Some p => ∃ v, flat !! p = Some v ∧ arr !! k = Some v
            | None => arr !! k = Some 0%Z
            end).
  { intros k Hk. pose proof (last_slot_spec n (concat t) k) as Hs.
    destruct (last _) as [p|].
    - destruct Hs as [Hp Hq].
      assert (Hplt : p < length flat).
      { destruct (concat t !! p) eqn:Hcp; [| done].
        apply lookup_lt_Some in Hcp. lia. }
      destruct (lookup_lt_is_Some_2 flat p Hplt) as [v Hv].
      exists v. split; [done |]. rewrite (Hlast k p Hp Hq). simpl. rewrite Hv.
      simpl. f_equal. apply to_int32_small.
      rewrite Forall_forall in Hvals.
      destruct (Hvals v) as [? ?]; [apply list_elem_of_lookup; eauto | lia].
    - rewrite (Hnone k Hs). by apply lookup_replicate_2. }
  assert (Hvalid : Forall (fun i => is_Some (Np.index (length x) i)) arr).
  { apply Forall_lookup. intros k i Hki.
    assert (Hk : k < n) by (apply lookup_lt_Some in Hki; lia).
    specialize (Hentry k Hk). destruct (last _) as [p|].
    - destruct Hentry as (v & Hv & Hav). rewrite Hav in Hki. injection Hki as <-.
      rewrite Forall_forall in Hvals.
      destruct (Hvals v) as [? ?]; [apply list_elem_of_lookup; eauto |].
      rewrite index_nonneg by lia. eauto.
    - rewrite Hentry in Hki. injection Hki as <-.
      rewrite index_nonneg by lia. eauto. }
  destruct (take_ok x arr Hvalid) as [out Hout].
  destruct (take_lookup x arr out Hout) as [Hlo Hlk].
  set (s' := set_mesh_to_fd_reordering (Some arr) (drop_cell_node_list true s1)) in *.
  assert (Hkey : ∀ k p v, last (slots_of n (concat t) k) = Some p ->
                          flat !! p = Some v -> out !! k = x !! Z.to_nat v).
  { intros k p v Hp Hv.
    destruct (decide (k < n)) as [Hk | Hk].
    - pose proof (Hentry k Hk) as He. rewrite Hp in He.
      destruct He as (v' & Hv' & Hav). rewrite Hv in Hv'. injection Hv' as <-.
      destruct (Hlk k v Hav) as (q & Hq & Hoq). rewrite Hoq.
      rewrite Forall_forall in Hvals.
      destruct (Hvals v) as [? ?]; [apply list_elem_of_lookup; eauto |].
      rewrite index_nonneg in Hq by lia. by injection Hq as <-.
    - pose proof (last_slot_spec n (concat t) k) as Hs. rewrite Hp in Hs.
      destruct Hs as [Hs _]. destruct (concat t !! p); [| done]. simpl in Hs.
      apply index_lt in Hs. lia. }
  exists s', out. split; [| split; [| split; [| split]]].
  - unfold reorder_nodes, _reordering_array, bind, read, lift, ret.
    rewrite Hcache, Hc. simpl. by rewrite Hout.
  - lia.
  - intros k p v Hp. apply Hkey. by rewrite Hp.
  - exact Hkey.
  - unfold reorder_nodes, _reordering_array, bind, read, lift, ret. simpl.
    by rewrite Hout.
Qed.

Lemma collapse_last_write_wins_witness :
  ∃ s' out,
    reorder_nodes Examples.two_triangles_cg (Arr1 [10; 20; 30; 30; 20; 40]%Z)
                  false init_attrs = (s', Ok (Arr1 out)) ∧
    length out = 4 ∧
    (∀ k p v, slots_of 4 (concat [[0; 1; 2]; [1; 2; 3]]%Z) k = [p] ->
              [0; 1; 2; 4; 3; 5]%Z !! p = Some v ->
              out !! k = [10; 20; 30; 30; 20; 40]%Z !! Z.to_nat v) ∧
    (∀ k p v, last (slots_of 4 (concat [[0; 1; 2]; [1; 2; 3]]%Z) k) = Some p ->
              [0; 1; 2; 4; 3; 5]%Z !! p = Some v ->
              out !! k = [10; 20; 30; 30; 20; 40]%Z !! Z.to_nat v) ∧
    reorder_nodes Examples.two_triangles_cg (Arr1 [10; 20; 30; 30; 20; 40]%Z)
                  false s' = (s', Ok (Arr1 out)).
Proof.
  apply (collapse_last_write_wins Examples.two_triangles_cg init_attrs
           [10; 20; 30; 30; 20; 40]%Z 4 [[0; 1; 2]; [1; 2; 3]]%Z
           [0; 1; 2; 4; 3; 5]%Z).
  - reflexivity.
  - reflexivity.
  - reflexivity.
  - vm_compute. discriminate.
  - reflexivity.
  - simpl. lia.
  - repeat constructor; simpl; lia.
  - repeat constructor; simpl; lia.
  - simpl. lia.
Defined.

(** In the two-triangle mesh the shared nodes 1 and 2 get the values of
    the second (flipped) cell, the last to address them. *)
Example two_triangles_shared_nodes :
  (reorder_nodes Examples.two_triangles_cg (Arr1 [1; 2; 3; 30; 20; 4]%Z) false
                 init_attrs).2
  = Ok (Arr1 [1; 20; 30; 4]%Z).
Proof. reflexivity. Qed.

(** ** Permutation matrices *)

Section PermFacts.

Variable sigma : list nat.
Hypothesis Hinv : is_involution sigma = true.

Lemma involution_lookup i :
  i < length sigma ->
  ∃ j, sigma !! i = Some j ∧ sigma !! j = Some i ∧ j < length sigma.
Proof using Hinv.
  intros Hi. unfold is_involution in Hinv. rewrite forallb_forall in Hinv.
  specialize (Hinv i). destruct (sigma !! i) as [j|] eqn:Hj.
  - exists j. apply bool_decide_eq_true in Hinv; [| apply in_seq; lia].
    split; [done |]. split; [done |]. by apply lookup_lt_Some in Hinv.
  - discriminate Hinv. apply in_seq. lia.
Qed.

Lemma involution_nth i :
  i < length sigma ->
  nth i sigma 0 < length sigma ∧ nth (nth i sigma 0) sigma 0 = i.
Proof using Hinv.
  intros Hi. destruct (involution_lookup i Hi) as (j & Hij & Hji & Hj).
  rewrite (nth_lookup_Some _ _ _ _ Hij). split; [done |].
  by rewrite (nth_lookup_Some _ _ _ _ Hji).
Qed.

Lemma dot_unit_row (v : list Z) a s :
  Mat.dot (map (fun j => if (j =? s)%nat then 1%Z else 0%Z) (seq a (length v))) v
  = if decide (a <= s < a + length v) then nth (s - a) v 0%Z else 0%Z.
Proof.
  unfold Mat.dot. revert a. induction v as [|y v IH]; intros a; simpl.
  - case_decide; [lia | done].
  - rewrite IH. destruct (Nat.eqb_spec a s) as [-> | Hne].
    + rewrite Nat.sub_diag. rewrite decide_False by lia.
      rewrite decide_True by lia. lia.
    + destruct (decide (S a <= s < S a + length v)) as [H1 | H1].
      * rewrite decide_True by lia.
        replace (s - a) with (S (s - S a)) by lia. simpl. lia.
      * rewrite decide_False by lia. lia.
Qed.

Lemma row_perm_matrix i :
  i < length sigma ->
  nth i (perm_matrix sigma) []
  = map (fun j => if (j =? nth i sigma 0)%nat then 1%Z else 0%Z)
        (seq 0 (length sigma)).
Proof.
  intros Hi. unfold perm_matrix.
  set (f := fun s => map _ _).
  rewrite (nth_indep _ [] (f 0)) by (by rewrite length_map).
  by rewrite map_nth.
Qed.

Lemma shaped_perm_matrix :
  Mat.shaped (length sigma) (length sigma) (perm_matrix sigma).
Proof.
  unfold perm_matrix. split; [by rewrite length_map |].
  apply Forall_forall. intros r Hr. apply list_elem_of_In, in_map_iff in Hr.
  destruct Hr as (j & <- & _). by rewrite length_map, length_seq.
Qed.

Lemma entry_perm_matrix i j :
  i < length sigma -> j < length sigma ->
  Mat.entry (perm_matrix sigma) i j
  = if (j =? nth i sigma 0)%nat then 1%Z else 0%Z.
Proof.
  intros Hi Hj. unfold Mat.entry. rewrite row_perm_matrix by done.
  by rewrite nth_map_seq.
Qed.

(** Applied to a vector, the matrix reads entry [sigma i] at place [i]. *)
Lemma vec_perm_matrix (v : list Z) :
  length v = length sigma ->
  Mat.vec (perm_matrix sigma) v = map (fun s => nth s v 0%Z) sigma.
Proof using Hinv.
  intros Hv. unfold Mat.vec, perm_matrix. rewrite map_map.
  apply map_ext_in. intros s Hs. rewrite <- Hv, dot_unit_row.
  apply In_nth with (d := 0) in Hs as (i & Hi & <-).
  destruct (involution_nth i Hi) as [Hlt _].
  rewrite decide_True by lia. by rewrite Nat.sub_0_r.
Qed.

Lemma perm_matrix_square : Mat.is_square (perm_matrix sigma) = true.
Proof.
  apply is_square_shaped. unfold perm_matrix at 1 2. rewrite length_map.
  apply shaped_perm_matrix.
Qed.

Lemma perm_matrix_involution :
  Mat.mul (perm_matrix sigma) (perm_matrix sigma)
  = Mat.eye (length (perm_matrix sigma)).
Proof using Hinv.
  pose proof shaped_perm_matrix as Hs.
  assert (Hl : length (perm_matrix sigma) = length sigma) by (by destruct Hs).
  rewrite Hl.
  destruct (decide (length sigma = 0)) as [Hz | Hz].
  { destruct sigma; [done | discriminate]. }
  assert (Hc : Mat.ncols (perm_matrix sigma) = length sigma).
  { apply (shaped_ncols (length sigma)); [done | lia]. }
  apply (shaped_ext (length sigma) (length sigma)).
  - by apply shaped_mul.
  - apply shaped_eye.
  - intros i j Hi Hj. rewrite entry_mul by lia.
    rewrite entry_eye by done.
    rewrite row_perm_matrix by done.
    destruct (involution_nth i Hi) as [Hlt Hback].
    replace (length sigma) with (length (Mat.column j (perm_matrix sigma))) at 1
      by (unfold Mat.column; by rewrite length_map).
    rewrite dot_unit_row. rewrite decide_True.
    2:{ unfold Mat.column. rewrite length_map. lia. }
    rewrite Nat.sub_0_r, nth_column, entry_perm_matrix by done.
    rewrite Hback. destruct (Nat.eqb_spec j i), (Nat.eqb_spec i j); congruence.
Qed.

Lemma perm_matrix_symmetric :
  Mat.transpose (perm_matrix sigma) = perm_matrix sigma.
Proof using Hinv.
  pose proof shaped_perm_matrix as Hs.
  destruct (decide (length sigma = 0)) as [Hz | Hz].
  { destruct sigma; [done | discriminate]. }
  apply (shaped_ext (length sigma) (length sigma)); [| done |].
  - apply shaped_transpose; [done | lia].
  - intros i j Hi Hj.
    rewrite (entry_transpose (length sigma) (length sigma)) by (done || lia).
    rewrite !entry_perm_matrix by done.
    destruct (involution_nth i Hi) as [_ Hbi].
    destruct (involution_nth j Hj) as [_ Hbj].
    destruct (Nat.eqb_spec i (nth j sigma 0)), (Nat.eqb_spec j (nth i sigma 0));
      congruence.
Qed.

End PermFacts.

(** ** The cell-by-cell numbering *)

Lemma length_arange (n : nat) : length (Np.arange (Z.of_nat n)) = n.
Proof. unfold Np.arange. by rewrite length_seqZ, Nat2Z.id. Qed.

Lemma lookup_arange (n k : nat) :
  k < n -> Np.arange (Z.of_nat n) !! k = Some (Z.of_nat k).
Proof.
  intros Hk. unfold Np.arange. by rewrite lookup_seqZ_lt by lia.
Qed.

Lemma length_chunks r c l : length (Np.chunks r c l) = r.
Proof. revert l. induction r as [|r IH]; intros l; simpl; [done |]. by rewrite IH. Qed.

Lemma chunks_lookup r c l e :
  e < r -> Np.chunks r c l !! e = Some (take c (drop (e * c) l)).
Proof.
  revert l e. induction r as [|r IH]; intros l e He; [lia |].
  destruct e as [|e]; simpl; [done |].
  rewrite IH by lia. by rewrite drop_drop.
Qed.

Lemma chunks_rows r c l :
  r * c <= length l -> Forall (fun row => length row = c) (Np.chunks r c l).
Proof.
  intros Hl. apply Forall_lookup. intros e row He.
  assert (Her : e < r).
  { apply lookup_lt_Some in He. by rewrite length_chunks in He. }
  rewrite chunks_lookup in He by done. injection He as <-.
  rewrite length_take_le; [done |]. rewrite length_drop. nia.
Qed.

Lemma dg_lookup ncells m e i :
  e < ncells -> i < m ->
  ∃ row, dg_cell_node_list ncells m !! e = Some row ∧
         length row = m ∧
         row !! i = Some (Z.of_nat (e * m + i)).
Proof.
  intros He Hi. unfold dg_cell_node_list. eexists.
  split; [by apply chunks_lookup |]. split.
  - rewrite length_take_le; [done |]. rewrite length_drop, length_arange. nia.
  - rewrite lookup_take_lt, lookup_drop by done. apply lookup_arange. nia.
Qed.

Lemma dg_rows ncells m :
  Forall (fun row => length row = m) (dg_cell_node_list ncells m).
Proof. apply chunks_rows. by rewrite length_arange. Qed.

Lemma take_arange (n : nat) (row : list Z) :
  Forall (fun c => 0 <= c < Z.of_nat n)%Z row ->
  Np.take (Np.arange (Z.of_nat n)) row = Ok row.
Proof.
  unfold Np.take. induction 1 as [|c row Hc Hrow IH]; simpl; [done |].
  unfold Np.get at 1. rewrite length_arange, index_nonneg by done.
  rewrite lookup_arange by lia. simpl. rewrite IH. simpl.
  by rewrite Z2Nat.id by lia.
Qed.

Lemma take2_arange_dg ncells m :
  Np.take2 (Np.arange (Z.of_nat (ncells * m))) (dg_cell_node_list ncells m)
  = Ok (dg_cell_node_list ncells m).
Proof.
  assert (H : Forall (Forall (fun c => 0 <= c < Z.of_nat (ncells * m))%Z)
                     (dg_cell_node_list ncells m)).
  { apply Forall_lookup. intros e row He.
    assert (Her : e < ncells).
    { apply lookup_lt_Some in He. unfold dg_cell_node_list in He.
      by rewrite length_chunks in He. }
    unfold dg_cell_node_list in He. rewrite chunks_lookup in He by done.
    injection He as <-. apply Forall_take, Forall_drop.
    unfold Np.arange. apply Forall_seqZ. intros c Hc. lia. }
  unfold Np.take2. induction H as [|row rows Hrow Hrows IH]; simpl; [done |].
  rewrite take_arange by done. simpl. by rewrite IH.
Qed.

Lemma lookup_concat_uniform {A} (rows : list (list A)) m e i :
  Forall (fun r => length r = m) rows -> i < m ->
  concat rows !! (e * m + i) = rows !! e ≫= (.!! i).
Proof.
  intros Hrows Hi. revert e. induction Hrows as [|r rows Hr Hrows IH];
    intros e; [by destruct e |].
  destruct e as [|e]; simpl.
  - by rewrite lookup_app_l by lia.
  - rewrite lookup_app_r by lia. rewrite <- IH. f_equal. lia.
Qed.

Lemma length_concat_uniform {A} (rows : list (list A)) m :
  Forall (fun r => length r = m) rows -> length (concat rows) = length rows * m.
Proof.
  induction 1 as [|r rows Hr Hrows IH]; simpl; [done |].
  rewrite length_app. lia.
Qed.

(** The flip step on the cell-by-cell numbering pairs the slots of each
    cell: the slot [i] of cell [e] holds the node of a slot [j] of the same
    cell, and slot [j] holds the node of slot [i]. *)
Lemma flipped_dg_pairs sigma ncells (orient : list Z) :
  is_involution sigma = true ->
  length orient = ncells ->
  let m := length sigma in
  let rows := zip_with (fun (b : bool) r =>
                          if b then Mat.vec (perm_matrix sigma) r else r)
                       (map (fun o => (o <? 0)%Z) orient)
                       (dg_cell_node_list ncells m) in
  length (concat rows) = ncells * m ∧
  ∀ k, k < ncells * m ->
    ∃ p, p < ncells * m ∧
         concat rows !! k = Some (Z.of_nat p) ∧
         concat rows !! p = Some (Z.of_nat k).
Proof.
  intros Hinv Ho m rows.
  assert (Hrows : Forall (fun r => length r = m) rows).
  { apply Forall_lookup. intros e r He. unfold rows in He.
    apply lookup_zip_with_Some in He as (b & row & -> & Hb & Hrow).
    pose proof (dg_rows ncells m) as Hd. rewrite Forall_lookup in Hd.
    specialize (Hd e row Hrow). destruct b; [| done].
    rewrite vec_perm_matrix by done. by rewrite length_map. }
  assert (Hlen : length rows = ncells).
  { unfold rows, dg_cell_node_list.
    rewrite length_zip_with, length_map, length_chunks. lia. }
  split; [by rewrite (length_concat_uniform rows m), Hlen |].
  intros k Hk.
  assert (Hm : 0 < m) by nia.
  pose proof (Nat.div_mod_eq k m) as Hdm.
  pose proof (Nat.mod_upper_bound k m ltac:(lia)) as Hi.
  set (e := k / m) in *. set (i := k mod m) in *.
  assert (He : e < ncells) by nia.
  destruct (lookup_lt_is_Some_2 orient e ltac:(lia)) as [o Hoe].
  assert (Hrow : ∀ i', i' < m ->
            ∃ row, dg_cell_node_list ncells m !! e = Some row ∧ length row = m ∧
                   row !! i' = Some (Z.of_nat (e * m + i'))).
  { intros i' Hi'. by apply dg_lookup. }
  destruct (Hrow i Hi) as (row & Hre & Hrl & Hri).
  assert (Hrows_e : rows !! e
                    = Some (if (o <? 0)%Z then Mat.vec (perm_matrix sigma) row
                            else row)).
  { unfold rows. rewrite lookup_zip_with, list_lookup_fmap, Hoe, Hre. done. }
  replace k with (e * m + i) by lia.
  destruct (o <? 0)%Z.
  - destruct (involution_nth sigma Hinv i Hi) as [Hj Hback].
    set (j := nth i sigma 0) in *. exists (e * m + j).
    split; [nia |].
    rewrite !(lookup_concat_uniform rows m) by done. rewrite Hrows_e. simpl.
    rewrite vec_perm_matrix by done.
    change (map ?f ?l) with (f <$> l). rewrite !list_lookup_fmap.
    destruct (involution_lookup sigma Hinv i Hi) as (j' & Hij & Hji & _).
    assert (j' = j) as -> by (unfold j; by rewrite (nth_lookup_Some _ _ _ _ Hij)).
    rewrite Hij, Hji. simpl.
    destruct (Hrow j Hj) as (row' & Hre' & _ & Hrj).
    rewrite Hre in Hre'. injection Hre' as <-.
    by rewrite (nth_lookup_Some _ _ _ _ Hrj), (nth_lookup_Some _ _ _ _ Hri).
  - exists (e * m + i). split; [nia |].
    rewrite !(lookup_concat_uniform rows m) by done. rewrite Hrows_e. simpl.
    by rewrite Hri.
Qed.

(** Gathering twice through an index array that pairs its positions
    gives the input back. *)
Lemma take_paired {V} (a : list Z) (x : list V) n :
  length a = n -> length x = n ->
  (∀ k, k < n ->
     ∃ p, p < n ∧ a !! k = Some (Z.of_nat p) ∧ a !! p = Some (Z.of_nat k)) ->
  ∃ y, Np.take x a = Ok y ∧ length y = n ∧ Np.take y a = Ok x.
Proof.
  intros Ha Hx Hpair.
  assert (Hvalid : ∀ l : list V, length l = n ->
            Forall (fun i => is_Some (Np.index (length l) i)) a).
  { intros l Hl. apply Forall_lookup. intros k i Hk.
    destruct (Hpair k) as (p & Hp & Hkp & _).
    { apply lookup_lt_Some in Hk. lia. }
    rewrite Hkp in Hk. injection Hk as <-.
    rewrite index_nonneg by lia. eauto. }
  destruct (take_ok x a (Hvalid x Hx)) as [y Hy].
  destruct (take_lookup x a y Hy) as [Hyl Hyk].
  assert (Hyn : length y = n) by lia.
  destruct (take_ok y a (Hvalid y Hyn)) as [z Hz].
  destruct (take_lookup y a z Hz) as [Hzl Hzk].
  exists y. split; [done |]. split; [done |].
  rewrite Hz. f_equal. apply list_eq. intros k.
  destruct (decide (k < n)) as [Hk | Hk].
  - destruct (Hpair k Hk) as (p & Hp & Hkp & Hpk).
    destruct (Hzk k _ Hkp) as (q & Hq & ->).
    rewrite index_nonneg, Nat2Z.id in Hq by lia. injection Hq as <-.
    destruct (Hyk p _ Hpk) as (q & Hq & ->).
    rewrite index_nonneg, Nat2Z.id in Hq by lia. by injection Hq as <-.
  - rewrite !lookup_ge_None_2 by lia. done.
Qed.

(** ** The round trip *)

Lemma one_interval_swapped_round_trip :
  let self := Examples.one_interval_swapped in
  let s1 := (reorder_nodes self (Arr1 [10; 20]%Z) true init_attrs).1 in
  (num_firedrake_nodes self init_attrs).2 = Ok (Some (num_meshmode_nodes self)) ∧
  (reorder_nodes self (Arr1 [10; 20]%Z) true init_attrs).2
  = Ok (Arr1 [20; 10]%Z) ∧
  (reorder_nodes self (Arr1 [20; 10]%Z) false s1).2 = Ok (Arr1 [20; 10]%Z) ∧
  _fd_to_mesh_reordering (reorder_nodes self (Arr1 [20; 10]%Z) false s1).1
  = Some [1; 0]%Z ∧
  _mesh_to_fd_reordering (reorder_nodes self (Arr1 [20; 10]%Z) false s1).1
  = Some [0; 1]%Z.
Proof. repeat split; reflexivity. Qed.

Section RoundTrip.

Variable self : analogs.
Variable sigma : list nat.

Local Abbreviation ncells := (length (vertex_indices self)).
Local Abbreviation m := (nunit_nodes self).

Hypothesis Hflip : rounded_flip_matrix self = perm_matrix sigma.
Hypothesis Hsigma : length sigma = m.
Hypothesis Hinv : is_involution sigma = true.
Hypothesis Horient : length (orientations self) = ncells.
Hypothesis Hm : 0 < m.

Lemma checked_flip_mat_perm (ftm : bool) :
  checked_flip_mat self ftm = Ok (perm_matrix sigma).
Proof using Hflip Hinv.
  assert (Hsq : Mat.is_square (rounded_flip_matrix self) = true).
  { rewrite Hflip. apply perm_matrix_square. }
  pose proof (checked_flip_mat_spec self ftm Hsq) as Hspec. simpl in Hspec.
  assert (Hused : flip_mat_used self ftm = perm_matrix sigma).
  { unfold flip_mat_used. rewrite Hflip.
    destruct ftm; [done | by apply perm_matrix_symmetric]. }
  rewrite Hspec, Hused.
  by rewrite bool_decide_eq_true_2 by (by apply perm_matrix_involution).
Qed.

(** The order array after the flip step, the same in both directions. *)
Lemma flip_cells_dg :
  flip_cells (perm_matrix sigma) (orientations self)
             (dg_cell_node_list ncells m)
  = Ok (zip_with (fun (b : bool) r =>
                    if b then Mat.vec (perm_matrix sigma) r else r)
                 (map (fun o => (o <? 0)%Z) (orientations self))
                 (dg_cell_node_list ncells m)).
Proof using Hsigma Horient Hm.
  apply flip_cells_ok.
  - unfold dg_cell_node_list. by rewrite length_chunks.
  - rewrite (shaped_ncols (length sigma) (length sigma));
      [| apply shaped_perm_matrix | lia].
    rewrite Hsigma. apply dg_rows.
Qed.

Lemma firedrake_order_dg :
  firedrake_order self (num_meshmode_nodes self) (dg_cell_node_list ncells m)
  = Ok (concat (zip_with (fun (b : bool) r =>
                            if b then Mat.vec (perm_matrix sigma) r else r)
                         (map (fun o => (o <? 0)%Z) (orientations self))
                         (dg_cell_node_list ncells m))).
Proof using Hflip Hsigma Hinv Horient Hm.
  unfold firedrake_order. rewrite checked_flip_mat_perm. simpl.
  unfold num_meshmode_nodes. fold ncells m.
  rewrite take2_arange_dg. simpl. by rewrite flip_cells_dg.
Qed.

Lemma meshmode_order_dg :
  meshmode_order self
  = Ok (concat (zip_with (fun (b : bool) r =>
                            if b then Mat.vec (perm_matrix sigma) r else r)
                         (map (fun o => (o <? 0)%Z) (orientations self))
                         (dg_cell_node_list ncells m))).
Proof using Hflip Hsigma Hinv Horient Hm.
  unfold meshmode_order. rewrite checked_flip_mat_perm. simpl.
  fold m. destruct (Nat.eqb_spec m 0) as [Hz | _]; [lia |].
  unfold num_meshmode_nodes. fold ncells m.
  rewrite length_arange, Nat.div_mul by lia.
  unfold Np.reshape. rewrite length_arange, Nat.eqb_refl. simpl.
  fold (dg_cell_node_list ncells m). by rewrite flip_cells_dg.
Qed.

End RoundTrip.

(** C1, as amended: the round trip holds for scalar data on a
    discontinuous space numbered cell by cell.  When the node counts are
    equal, the cell-node list is the cell-by-cell numbering (slot [i] of
    cell [e] holds node [e * nunit_nodes + i]) and the rounded flip matrix
    is the permutation matrix of an involution, then for every array [x]
    with one value per node, [reorder_nodes] firedrake->meshmode followed
    by [reorder_nodes] meshmode->firedrake returns [x], and the two cached
    reordering arrays compose to the identity permutation.  With equal
    counts the meshmode->firedrake array is built without reading the
    cell-node list, so for any other numbering of the nodes the round trip
    is not the identity. *)
Theorem round_trip_on_cell_numbering {V} self s (x : list V) sigma :
  let ncells := length (vertex_indices self) in
  let m := nunit_nodes self in
  _fd_to_mesh_reordering s = None ->
  _mesh_to_fd_reordering s = None ->
  (num_firedrake_nodes self s).2 = Ok (Some (num_meshmode_nodes self)) ->
  (firedrake_cell_node_list self s).2 = Ok (dg_cell_node_list ncells m) ->
  length (orientations self) = ncells ->
  rounded_flip_matrix self = perm_matrix sigma ->
  length sigma = m ->
  is_involution sigma = true ->
  0 < m ->
  length x = ncells * m ->
  ∃ s1 s2 y,
    reorder_nodes self (Arr1 x) true s = (s1, Ok (Arr1 y)) ∧
    reorder_nodes self (Arr1 y) false s1 = (s2, Ok (Arr1 x)) ∧
    ∃ a b, _fd_to_mesh_reordering s2 = Some a ∧
           _mesh_to_fd_reordering s2 = Some b ∧
           Np.take a b = Ok (Np.arange (num_meshmode_nodes self)).
Proof.
  intros ncells m Hfd Hmm Hn Ht Ho Hflip Hsigma Hinv Hm Hx.
  destruct (accessors_run self s _ _ Hn Ht) as (s0 & Hn0 & Ht0).
  destruct (num_firedrake_nodes_ok _ _ _ _ Hn0) as (_ & Hnum0 & Hfd0 & Hmm0).
  pose proof (firedrake_order_dg self sigma Hflip Hsigma Hinv Ho Hm) as HA.
  pose proof (meshmode_order_dg self sigma Hflip Hsigma Hinv Ho Hm) as HB.
  fold ncells m in HA, HB.
  set (a := concat _) in HA, HB.
  destruct (flipped_dg_pairs sigma ncells (orientations self) Hinv Ho)
    as [Hal Hpair].
  rewrite Hsigma in Hal, Hpair. fold m a in Hal, Hpair.
  (* firedrake -> meshmode *)
  pose proof (compute_reordering_fd_ok self s s0 _ _ Hfd Hn0 Ht0) as Hc1.
  rewrite HA in Hc1.
  set (s1 := set_fd_to_mesh_reordering (Some a) s0) in *.
  destruct (take_paired a x (ncells * m) Hal Hx Hpair) as (y & Hy & Hyl & Hback).
  (* meshmode -> firedrake, from the attributes the first call left *)
  assert (Ht1 : _cell_node_list s1 = Some (dg_cell_node_list ncells m)) by done.
  pose proof (num_firedrake_nodes_cached self s1 _ Ht1) as Hn1.
  pose proof (compute_reordering_mm_ok self s1 s1 a _ _ HB Hn1 Ht1) as Hc2.
  assert (Hnum1 : _num_fdnodes s1 = Some (num_meshmode_nodes self))
    by (simpl; by rewrite Hnum0).
  rewrite Hnum1, bool_decide_eq_true_2 in Hc2 by done.
  set (s2 := set_mesh_to_fd_reordering (Some a) (drop_cell_node_list true s1)) in *.
  exists s1, s2, y. split; [| split].
  - unfold reorder_nodes, _reordering_array, bind, read, lift, ret.
    rewrite Hfd, Hc1. simpl. by rewrite Hy.
  - unfold reorder_nodes, _reordering_array, bind, read, lift, ret.
    replace (_mesh_to_fd_reordering s1) with (@None (list Z))
      by (simpl; by rewrite Hmm0, Hmm).
    rewrite Hc2. simpl. by rewrite Hback.
  - exists a, a. split; [done |]. split; [done |].
    assert (Hvalid : Forall (fun i => is_Some (Np.index (length a) i)) a).
    { apply Forall_lookup. intros k i Hk.
      destruct (Hpair k) as (p & Hp & Hkp & _).
      { apply lookup_lt_Some in Hk. lia. }
      rewrite Hkp in Hk. injection Hk as <-.
      rewrite index_nonneg by lia. eauto. }
    destruct (take_ok a a Hvalid) as [z Hz].
    destruct (take_lookup a a z Hz) as [Hzl Hzk].
    rewrite Hz. f_equal. apply list_eq. intros k.
    unfold num_meshmode_nodes. fold ncells m.
    destruct (decide (k < ncells * m)) as [Hk | Hk].
    + destruct (Hpair k Hk) as (p & Hp & Hkp & Hpk).
      destruct (Hzk k _ Hkp) as (q & Hq & ->).
      rewrite index_nonneg, Nat2Z.id in Hq by lia. injection Hq as <-.
      by rewrite Hpk, lookup_arange.
    + rewrite !lookup_ge_None_2; [done | rewrite length_arange; lia | lia].
Qed.

Lemma round_trip_on_cell_numbering_witness :
  ∃ s1 s2 y,
    reorder_nodes Examples.two_triangles_dg (Arr1 [10; 20; 30; 40; 50; 60]%Z)
                  true init_attrs = (s1, Ok (Arr1 y)) ∧
    reorder_nodes Examples.two_triangles_dg (Arr1 y) false s1
    = (s2, Ok (Arr1 [10; 20; 30; 40; 50; 60]%Z)) ∧
    ∃ a b, _fd_to_mesh_reordering s2 = Some a ∧
           _mesh_to_fd_reordering s2 = Some b ∧
           Np.take a b
           = Ok (Np.arange (num_meshmode_nodes Examples.two_triangles_dg)).
Proof.
  apply (round_trip_on_cell_numbering Examples.two_triangles_dg init_attrs
           [10; 20; 30; 40; 50; 60]%Z [1; 0; 2]).
  - reflexivity.
  - reflexivity.
  - reflexivity.
  - reflexivity.
  - reflexivity.
  - reflexivity.
  - reflexivity.
  - reflexivity.
  - simpl. lia.
  - reflexivity.
Defined.

(** Vector data does not survive the round trip: firedrake->meshmode
    returns shape [(dim, nodes)], and meshmode->firedrake indexes the
    first axis of what it is given. *)
Remark vector_round_trip_raises :
  let self := Examples.two_triangles_dg in
  let x := Arr2 1 [[10]; [20]; [30]; [40]; [50]; [60]]%Z in
  let r := reorder_nodes self x true init_attrs in
  r.2 = Ok (Arr2 6 [[10; 20; 30; 50; 40; 60]]%Z) ∧
  (reorder_nodes self (Arr2 6 [[10; 20; 30; 50; 40; 60]]%Z) false r.1).2
  = Raise IndexError.
Proof. split; reflexivity. Qed.

(** A flip matrix that passes the assertion without being a permutation
    matrix does not give a round trip either. *)
Remark shear_round_trip :
  let self := Examples.one_interval_shear in
  let r := reorder_nodes self (Arr1 [10; 20]%Z) true init_attrs in
  checked_flip_mat self true = Ok [[1; 0]; [1; -1]]%Z ∧
  r.2 = Ok (Arr1 [10; 20]%Z) ∧
  (reorder_nodes self (Arr1 [10; 20]%Z) false r.1).2 = Ok (Arr1 [20; 20]%Z).
Proof. repeat split; reflexivity. Qed.

(** * Further properties of the reordering *)

(** ** The caches *)

(** Computing the cell-node list never touches the cached reordering
    arrays, whether it returns or raises. *)
Lemma compute_fd_cell_nodes_caches self arg s s' r :
  _compute_fd_cell_nodes self arg s = (s', r) ->
  _fd_to_mesh_reordering s' = _fd_to_mesh_reordering s ∧
  _mesh_to_fd_reordering s' = _mesh_to_fd_reordering s.
Proof.
  run_method. destruct (_cell_node_list s) as [t|].
  - by intros [= <- <-].
  - destruct (Np.max _) as [m|e]; simpl; [| by intros [= <- <-]].
    destruct (mesh_analog self).
    + by intros [= <- <-].
    + destruct (Np.take _ _); simpl; by intros [= <- <-].
    + destruct (degree self =? 1)%Z; simpl; by intros [= <- <-].
Qed.

Lemma num_firedrake_nodes_caches self s s' r :
  num_firedrake_nodes self s = (s', r) ->
  _fd_to_mesh_reordering s' = _fd_to_mesh_reordering s ∧
  _mesh_to_fd_reordering s' = _mesh_to_fd_reordering s.
Proof.
  unfold num_firedrake_nodes, bind, read.
  destruct (_compute_fd_cell_nodes self None s) as [s1 [[]|e]] eqn:Hc;
    intros [= <- <-]; by apply compute_fd_cell_nodes_caches in Hc.
Qed.

Lemma compute_reordering_fd_none self s s1 :
  num_firedrake_nodes self s = (s1, Ok None) ->
  compute_reordering self true s = (s1, Raise TypeError).
Proof. intros Hn. unfold compute_reordering, bind. by rewrite Hn. Qed.

(** What [compute_reordering] leaves behind, in both directions: on
    success the array is in the cache of its direction and the other
    cache is as before; on failure both caches are as before. *)
Lemma compute_reordering_outcome self (ftm : bool) s s' r :
  (if ftm then _fd_to_mesh_reordering s else _mesh_to_fd_reordering s) = None ->
  compute_reordering self ftm s = (s', r) ->
  match r with
  | Ok arr =>
      (if ftm then _fd_to_mesh_reordering s' else _mesh_to_fd_reordering s')
      = Some arr ∧
      (if ftm then _mesh_to_fd_reordering s' else _fd_to_mesh_reordering s')
      = (if ftm then _mesh_to_fd_reordering s else _fd_to_mesh_reordering s) ∧
      (_cell_node_list s' = None <->
       ftm = false ∧ is_Some (_fd_to_mesh_reordering s))
  | Raise _ =>
      _fd_to_mesh_reordering s' = _fd_to_mesh_reordering s ∧
      _mesh_to_fd_reordering s' = _mesh_to_fd_reordering s
  end.
Proof.
  intros Hcache.
  destruct (num_firedrake_nodes self s) as [s1 rn] eqn:Hn.
  pose proof (num_firedrake_nodes_caches _ _ _ _ Hn) as [Hfd1 Hmm1].
  destruct ftm.
  - destruct rn as [[n|]|e].
    + destruct (num_firedrake_nodes_ok _ _ _ _ Hn) as ([t Ht] & _).
      rewrite (compute_reordering_fd_ok self s s1 n t Hcache Hn Ht).
      destruct (firedrake_order self n t) as [arr|e]; intros [= <- <-].
      * simpl. split; [done |]. split; [done |]. rewrite Ht.
        split; [done | by intros [? _]].
      * done.
    + rewrite (compute_reordering_fd_none _ _ _ Hn). by intros [= <- <-].
    + rewrite (compute_reordering_fd_nodes_raise _ _ _ _ Hn). by intros [= <- <-].
  - destruct (meshmode_order self) as [flat|e] eqn:Hflat.
    + destruct rn as [n|e].
      * destruct (num_firedrake_nodes_ok _ _ _ _ Hn) as ([t Ht] & _).
        rewrite (compute_reordering_mm_ok self s s1 flat n t Hflat Hn Ht).
        destruct (if bool_decide _ then _ else _) as [arr|e];
          intros [= <- <-]; [| done].
        unfold drop_cell_node_list. rewrite Hfd1.
        destruct (_fd_to_mesh_reordering s) as [a|] eqn:Hfd; simpl.
        -- split; [done |]. split; [done |]. split; [by eauto | done].
        -- split; [done |]. split; [done |]. rewrite Ht.
           split; [done |]. intros [_ [a Ha]]. discriminate.
      * rewrite (compute_reordering_mm_nodes_raise _ _ _ _ _ Hflat Hn).
        by intros [= <- <-].
    + rewrite (compute_reordering_mm_raise _ _ _ Hflat). by intros [= <- <-].
Qed.

(** X1: a reordering array that has been computed is cached.  After a
    successful [_reordering_array] the array is stored in the attribute of
    its direction, the attribute of the other direction is as it was, and
    asking again returns the same array without changing any attribute. *)
Theorem reordering_array_is_cached self (ftm : bool) s s' arr :
  _reordering_array self ftm s = (s', Ok arr) ->
  (if ftm then _fd_to_mesh_reordering s' else _mesh_to_fd_reordering s')
  = Some arr ∧
  (if ftm then _mesh_to_fd_reordering s' else _fd_to_mesh_reordering s')
  = (if ftm then _mesh_to_fd_reordering s else _fd_to_mesh_reordering s) ∧
  _reordering_array self ftm s' = (s', Ok arr).
Proof.
  intros H.
  assert (Hc : (if ftm then _fd_to_mesh_reordering s'
                else _mesh_to_fd_reordering s') = Some arr ∧
               (if ftm then _mesh_to_fd_reordering s'
                else _fd_to_mesh_reordering s')
               = (if ftm then _mesh_to_fd_reordering s
                  else _fd_to_mesh_reordering s)).
  { revert H. unfold _reordering_array, bind, read, ret.
    destruct ftm.
    - destruct (_fd_to_mesh_reordering s) as [a|] eqn:Hcache.
      + intros [= <- <-]. by split.
      + intros H.
        pose proof (compute_reordering_outcome self true s s' _ Hcache H) as Ho.
        simpl in Ho. destruct Ho as (H1 & H2 & _). by split.
    - destruct (_mesh_to_fd_reordering s) as [a|] eqn:Hcache.
      + intros [= <- <-]. by split.
      + intros H.
        pose proof (compute_reordering_outcome self false s s' _ Hcache H) as Ho.
        simpl in Ho. destruct Ho as (H1 & H2 & _). by split. }
  destruct Hc as [H1 H2]. split; [done |]. split; [done |].
  unfold _reordering_array, bind, read, ret. destruct ftm; by rewrite H1.
Qed.

Lemma reordering_array_is_cached_witness :
  let s' := (_reordering_array Examples.two_triangles_cg false init_attrs).1 in
  _mesh_to_fd_reordering s' = Some [0; 4; 3; 5]%Z ∧
  _fd_to_mesh_reordering s' = _fd_to_mesh_reordering init_attrs ∧
  _reordering_array Examples.two_triangles_cg false s'
  = (s', Ok [0; 4; 3; 5]%Z).
Proof.
  apply (reordering_array_is_cached Examples.two_triangles_cg false init_attrs).
  reflexivity.
Defined.

(** X2: a reordering computation that raises caches nothing: both
    reordering attributes are what they were before the call. *)
Theorem reordering_array_failure_caches_nothing self (ftm : bool) s s' e :
  _reordering_array self ftm s = (s', Raise e) ->
  _fd_to_mesh_reordering s' = _fd_to_mesh_reordering s ∧
  _mesh_to_fd_reordering s' = _mesh_to_fd_reordering s.
Proof.
  unfold _reordering_array, bind, read, ret. destruct ftm.
  - destruct (_fd_to_mesh_reordering s) as [a|] eqn:Hcache; [done |].
    intros H. rewrite <- Hcache.
    apply (compute_reordering_outcome self true s s' _ Hcache H).
  - destruct (_mesh_to_fd_reordering s) as [a|] eqn:Hcache; [done |].
    intros H. rewrite <- Hcache.
    apply (compute_reordering_outcome self false s s' _ Hcache H).
Qed.

Lemma reordering_array_failure_caches_nothing_witness :
  let s' := (_reordering_array Examples.one_interval_half_reflection false
                               init_attrs).1 in
  _fd_to_mesh_reordering s' = _fd_to_mesh_reordering init_attrs ∧
  _mesh_to_fd_reordering s' = _mesh_to_fd_reordering init_attrs.
Proof.
  apply (reordering_array_failure_caches_nothing
           Examples.one_interval_half_reflection false init_attrs _
           AssertionError).
  reflexivity.
Defined.

(** X3: when the cell-node list is freed.  A computation of the
    firedrake->meshmode array always leaves the cell-node list in place
    (at that point no firedrake->meshmode array is cached, so the test on
    the node counts is never reached); a computation of the
    meshmode->firedrake array drops it exactly when a firedrake->meshmode
    array is already cached, whatever the node counts. *)
Theorem cell_node_list_freed_after_both self (ftm : bool) s s' arr :
  (if ftm then _fd_to_mesh_reordering s else _mesh_to_fd_reordering s) = None ->
  _reordering_array self ftm s = (s', Ok arr) ->
  (_cell_node_list s' = None <->
   ftm = false ∧ is_Some (_fd_to_mesh_reordering s)).
Proof.
  intros Hcache H.
  assert (Hc : compute_reordering self ftm s = (s', Ok arr)).
  { revert H. unfold _reordering_array, bind, read, ret.
    destruct ftm; by rewrite Hcache. }
  pose proof (compute_reordering_outcome self ftm s s' _ Hcache Hc) as Ho.
  simpl in Ho. by destruct Ho as (_ & _ & Hfree).
Qed.

Lemma cell_node_list_freed_after_both_witness :
  let s := (_reordering_array Examples.two_triangles_cg true init_attrs).1 in
  let s' := (_reordering_array Examples.two_triangles_cg false s).1 in
  _cell_node_list s' = None <-> false = false ∧ is_Some (_fd_to_mesh_reordering s).
Proof.
  apply (cell_node_list_freed_after_both Examples.two_triangles_cg false _ _
           [0; 4; 3; 5]%Z).
  - reflexivity.
  - reflexivity.
Defined.

(** ** The order arrays on an arbitrary cell-node list *)

Lemma take2_arange (n : nat) (t : list (list Z)) :
  Forall (Forall (fun c => 0 <= c < Z.of_nat n)%Z) t ->
  Np.take2 (Np.arange (Z.of_nat n)) t = Ok t.
Proof.
  unfold Np.take2. induction 1 as [|row rows Hrow Hrows IH]; simpl; [done |].
  rewrite take_arange by done. simpl. by rewrite IH.
Qed.

Lemma ncols_perm_matrix sigma : Mat.ncols (perm_matrix sigma) = length sigma.
Proof.
  destruct sigma as [|s sigma]; [done |].
  apply (shaped_ncols (length (s :: sigma))); [apply shaped_perm_matrix |].
  simpl. lia.
Qed.

(** Slot [i] of a cell holds, after the flip step, what slot [i] held
    before when the cell is not flipped, and what slot [sigma i] held when
    it is. *)
Lemma flipped_lookup sigma (orient : list Z) (t : list (list Z)) :
  is_involution sigma = true ->
  Forall (fun row => length row = length sigma) t ->
  length orient = length t ->
  let rows := zip_with (fun (b : bool) r =>
                          if b then Mat.vec (perm_matrix sigma) r else r)
                       (map (fun o => (o <? 0)%Z) orient) t in
  Forall (fun row => length row = length sigma) rows ∧
  length rows = length t ∧
  ∀ e i row o, t !! e = Some row -> orient !! e = Some o -> i < length sigma ->
    nth i sigma 0 < length sigma ∧
    concat rows !! (e * length sigma + i)
    = row !! (if (o <? 0)%Z then nth i sigma 0 else i).
Proof.
  intros Hinv Ht Ho rows.
  assert (Hrows : Forall (fun r => length r = length sigma) rows).
  { apply Forall_lookup. intros e r He. unfold rows in He.
    apply lookup_zip_with_Some in He as (b & row & -> & Hb & Hrow).
    rewrite Forall_lookup in Ht. specialize (Ht e row Hrow).
    destruct b; [| done]. rewrite vec_perm_matrix by done.
    by rewrite length_map. }
  split; [done |]. split.
  { unfold rows. rewrite length_zip_with, length_map. lia. }
  intros e i row o He Hoe Hi.
  destruct (involution_nth sigma Hinv i Hi) as [Hj _]. split; [done |].
  rewrite (lookup_concat_uniform rows (length sigma)) by done.
  unfold rows. rewrite lookup_zip_with, list_lookup_fmap, Hoe, He. simpl.
  destruct (o <? 0)%Z; [| done].
  rewrite Forall_lookup in Ht. specialize (Ht e row He).
  rewrite vec_perm_matrix by done.
  change (map ?f ?l) with (f <$> l). rewrite list_lookup_fmap.
  destruct (involution_lookup sigma Hinv i Hi) as (j & Hij & _ & Hjlt).
  rewrite Hij. simpl. rewrite (nth_lookup_Some _ _ _ _ Hij).
  destruct (lookup_lt_is_Some_2 row j ltac:(lia)) as [c Hc].
  by rewrite Hc, (nth_lookup_Some _ _ _ _ Hc).
Qed.

Lemma firedrake_order_perm self (n : nat) t sigma :
  rounded_flip_matrix self = perm_matrix sigma ->
  is_involution sigma = true ->
  Forall (fun row => length row = length sigma) t ->
  length (orientations self) = length t ->
  Forall (Forall (fun c => 0 <= c < Z.of_nat n)%Z) t ->
  firedrake_order self (Z.of_nat n) t
  = Ok (concat (zip_with (fun (b : bool) r =>
                            if b then Mat.vec (perm_matrix sigma) r else r)
                         (map (fun o => (o <? 0)%Z) (orientations self)) t)).
Proof.
  intros Hflip Hinv Ht Ho Hrange. unfold firedrake_order.
  rewrite (checked_flip_mat_perm self sigma Hflip Hinv). simpl.
  rewrite take2_arange by done. simpl.
  rewrite flip_cells_ok; [done | done |].
  by rewrite ncols_perm_matrix.
Qed.

(** [reorder_nodes] firedrake->meshmode, slot by slot, with the
    attributes it leaves. *)
Lemma reorder_nodes_fd_spec {V} self s (x : list V) (n : nat) t sigma :
  _fd_to_mesh_reordering s = None ->
  (num_firedrake_nodes self s).2 = Ok (Some (Z.of_nat n)) ->
  (firedrake_cell_node_list self s).2 = Ok t ->
  rounded_flip_matrix self = perm_matrix sigma ->
  is_involution sigma = true ->
  Forall (fun row => length row = length sigma) t ->
  length (orientations self) = length t ->
  Forall (Forall (fun c => 0 <= c < Z.of_nat n)%Z) t ->
  length x = n ->
  ∃ s0 a y,
    num_firedrake_nodes self s = (s0, Ok (Some (Z.of_nat n))) ∧
    _cell_node_list s0 = Some t ∧
    reorder_nodes self (Arr1 x) true s
    = (set_fd_to_mesh_reordering (Some a) s0, Ok (Arr1 y)) ∧
    length y = length t * length sigma ∧
    ∀ e i row o c,
      t !! e = Some row -> orientations self !! e = Some o ->
      i < length sigma ->
      row !! (if (o <? 0)%Z then nth i sigma 0 else i) = Some c ->
      y !! (e * length sigma + i) = x !! Z.to_nat c.
Proof.
  intros Hfd Hn Ht Hflip Hinv Hrows Ho Hrange Hx.
  destruct (accessors_run self s _ _ Hn Ht) as (s0 & Hn0 & Ht0).
  pose proof (compute_reordering_fd_ok self s s0 _ _ Hfd Hn0 Ht0) as Hc.
  rewrite (firedrake_order_perm self n t sigma) in Hc by done.
  destruct (flipped_lookup sigma (orientations self) t Hinv Hrows Ho)
    as (Hfl & Hlen & Hlook).
  set (a := concat _) in *.
  assert (Hal : length a = length t * length sigma).
  { unfold a. by rewrite (length_concat_uniform _ (length sigma)), Hlen. }
  assert (Hentries : ∀ p c, a !! p = Some c -> (0 <= c < Z.of_nat n)%Z).
  { intros p c Hp.
    assert (Hpl : p < length t * length sigma)
      by (apply lookup_lt_Some in Hp; lia).
    assert (Hm : 0 < length sigma) by nia.
    pose proof (Nat.div_mod_eq p (length sigma)) as Hdm.
    pose proof (Nat.mod_upper_bound p (length sigma) ltac:(lia)) as Hi.
    set (e := p / length sigma) in *. set (i := p mod length sigma) in *.
    assert (He : e < length t) by nia.
    destruct (lookup_lt_is_Some_2 t e He) as [row Hrow].
    destruct (lookup_lt_is_Some_2 (orientations self) e ltac:(lia)) as [o Hoe].
    destruct (Hlook e i row o Hrow Hoe Hi) as [_ Hl].
    replace p with (e * length sigma + i) in Hp by lia.
    rewrite Hl in Hp.
    rewrite Forall_lookup in Hrange. specialize (Hrange e row Hrow).
    rewrite Forall_lookup in Hrange. by apply (Hrange _ c Hp). }
  assert (Hvalid : Forall (fun i => is_Some (Np.index (length x) i)) a).
  { apply Forall_lookup. intros p c Hp. rewrite Hx.
    rewrite index_nonneg by (by apply (Hentries p)). eauto. }
  destruct (take_ok x a Hvalid) as [y Hy].
  destruct (take_lookup x a y Hy) as [Hyl Hyk].
  exists s0, a, y.
  split; [done |]. split; [done |]. split; [| split].
  - unfold reorder_nodes, _reordering_array, bind, read, lift, ret.
    rewrite Hfd, Hc. simpl. by rewrite Hy.
  - lia.
  - intros e i row o c Hrow Hoe Hi Hcv.
    destruct (Hlook e i row o Hrow Hoe Hi) as [_ Hl].
    rewrite Hcv in Hl.
    destruct (Hyk _ _ Hl) as (q & Hq & ->).
    rewrite Hx, index_nonneg in Hq by (by apply (Hentries _ _ Hl)).
    by injection Hq as <-.
Qed.

(** X5: the values [reorder_nodes] produces firedrake->meshmode.  For a
    cell-node list with in-range entries, one orientation per cell and a
    flip matrix that rounds to the permutation matrix of an involution
    [sigma], the result has one entry per slot of the list; slot [i] of a
    cell that is not flipped holds the input value of the node the list
    names at slot [i], and slot [i] of a flipped cell the input value of
    the node it names at slot [sigma i]. *)
Theorem firedrake_to_meshmode_values {V} self s (x : list V) (n : nat) t sigma :
  _fd_to_mesh_reordering s = None ->
  (num_firedrake_nodes self s).2 = Ok (Some (Z.of_nat n)) ->
  (firedrake_cell_node_list self s).2 = Ok t ->
  rounded_flip_matrix self = perm_matrix sigma ->
  is_involution sigma = true ->
  Forall (fun row => length row = length sigma) t ->
  length (orientations self) = length t ->
  Forall (Forall (fun c => 0 <= c < Z.of_nat n)%Z) t ->
  length x = n ->
  ∃ s' y,
    reorder_nodes self (Arr1 x) true s = (s', Ok (Arr1 y)) ∧
    length y = length t * length sigma ∧
    ∀ e i row o c,
      t !! e = Some row -> orientations self !! e = Some o ->
      i < length sigma ->
      row !! (if (o <? 0)%Z then nth i sigma 0 else i) = Some c ->
      y !! (e * length sigma + i) = x !! Z.to_nat c.
Proof.
  intros Hfd Hn Ht Hflip Hinv Hrows Ho Hrange Hx.
  destruct (reorder_nodes_fd_spec self s x n t sigma)
    as (s0 & a & y & _ & _ & Hr & Hl & Hv); try done.
  by eexists _, y.
Qed.

Lemma firedrake_to_meshmode_values_witness :
  ∃ s' y,
    reorder_nodes Examples.two_triangles_cg (Arr1 [10; 20; 30; 40]%Z) true
                  init_attrs = (s', Ok (Arr1 y)) ∧
    length y = length [[0; 1; 2]; [1; 2; 3]]%Z * length [1; 0; 2] ∧
    ∀ e i row o c,
      [[0; 1; 2]; [1; 2; 3]]%Z !! e = Some row ->
      orientations Examples.two_triangles_cg !! e = Some o ->
      i < length [1; 0; 2] ->
      row !! (if (o <? 0)%Z then nth i [1; 0; 2] 0 else i) = Some c ->
      y !! (e * length [1; 0; 2] + i) = [10; 20; 30; 40]%Z !! Z.to_nat c.
Proof.
  apply (firedrake_to_meshmode_values Examples.two_triangles_cg init_attrs
           [10; 20; 30; 40]%Z 4 [[0; 1; 2]; [1; 2; 3]]%Z [1; 0; 2]).
  - reflexivity.
  - reflexivity.
  - reflexivity.
  - reflexivity.
  - reflexivity.
  - repeat constructor.
  - reflexivity.
  - repeat constructor; simpl; lia.
  - reflexivity.
Defined.

(** ** The resized array, node by node *)

(** Every entry of the resized array: the entry of [flat] at the last
    slot that addresses the node, or zero for a node no slot addresses. *)
Lemma collapse_spec (n : nat) (t : list (list Z)) (flat : list Z) :
  length (concat t) <= length flat ->
  Forall (fun c => 0 <= c < Z.of_nat n)%Z (concat t) ->
  Forall (fun v => 0 <= v < 2 ^ 31)%Z flat ->
  ∃ arr,
    collapse (Some (Z.of_nat n)) t flat = Ok arr ∧
    length arr = n ∧
    ∀ k, k < n ->
      arr !! k = match last (slots_of n (concat t) k) with
                 | Some p => flat !! p
                 | None => Some 0%Z
                 end.
Proof.
  intros Hlen Hrange Hvals. unfold collapse.
  rewrite (proj2 (Z.ltb_ge (Z.of_nat n) 0)), Nat2Z.id by lia.
  destruct (collapse_loop_spec (concat t) 0 flat (replicate n 0%Z))
    as (arr & Harr & Hl & Hlast & Hnone).
  { rewrite length_replicate. eapply Forall_impl; [exact Hrange |].
    intros c Hc. simpl in Hc. rewrite index_nonneg by lia. eauto. }
  { simpl. lia. }
  rewrite length_replicate in Hl, Hlast, Hnone.
  exists arr. split; [done |]. split; [done |]. intros k Hk.
  pose proof (last_slot_spec n (concat t) k) as Hs.
  destruct (last _) as [p|].
  - destruct Hs as [Hp Hq]. rewrite (Hlast k p Hp Hq). simpl.
    destruct (flat !! p) as [v|] eqn:Hv; [| done]. simpl. f_equal.
    apply to_int32_small. rewrite Forall_lookup in Hvals. by apply (Hvals p).
  - rewrite (Hnone k Hs). by apply lookup_replicate_2.
Qed.

Lemma last_slot_addresses n (fd_indices : list Z) k p :
  last (slots_of n fd_indices k) = Some p ->
  Forall (fun c => 0 <= c < Z.of_nat n)%Z fd_indices ->
  fd_indices !! p = Some (Z.of_nat k).
Proof.
  intros Hp Hrange. pose proof (last_slot_spec n fd_indices k) as Hs.
  rewrite Hp in Hs. destruct Hs as [Hs _].
  destruct (fd_indices !! p) as [c|] eqn:Hc; [| done]. simpl in Hs.
  rewrite Forall_lookup in Hrange. specialize (Hrange p c Hc). simpl in Hrange.
  rewrite index_nonneg in Hs by lia. injection Hs as <-. f_equal. lia.
Qed.

Lemma addressed_has_last_slot n (fd_indices : list Z) k :
  k < n ->
  Z.of_nat k ∈ fd_indices ->
  is_Some (last (slots_of n fd_indices k)).
Proof.
  intros Hk Hin. pose proof (last_slot_spec n fd_indices k) as Hs.
  destruct (last _) as [p|]; [eauto | exfalso].
  apply list_elem_of_lookup in Hin as [q Hq]. apply (Hs q).
  rewrite Hq. simpl. rewrite index_nonneg by lia. by rewrite Nat2Z.id.
Qed.

Lemma unaddressed_has_no_slot n (fd_indices : list Z) k :
  Forall (fun c => 0 <= c < Z.of_nat n)%Z fd_indices ->
  Z.of_nat k ∉ fd_indices ->
  last (slots_of n fd_indices k) = None.
Proof.
  intros Hrange Hnot. destruct (last _) as [p|] eqn:Hp; [exfalso | done].
  apply Hnot. apply list_elem_of_lookup. exists p.
  by apply (last_slot_addresses n).
Qed.

(** [reorder_nodes] meshmode->firedrake when the node counts differ,
    entry by entry. *)
Lemma reorder_nodes_resized {V} self s (x : list V) (n : nat) t flat :
  _mesh_to_fd_reordering s = None ->
  (num_firedrake_nodes self s).2 = Ok (Some (Z.of_nat n)) ->
  (firedrake_cell_node_list self s).2 = Ok t ->
  Z.of_nat n ≠ num_meshmode_nodes self ->
  meshmode_order self = Ok flat ->
  length (concat t) <= length flat ->
  Forall (fun c => 0 <= c < Z.of_nat n)%Z (concat t) ->
  Forall (fun v => 0 <= v < Z.of_nat (length x) ∧ v < 2 ^ 31)%Z flat ->
  0 < length x ->
  ∃ s0 arr out,
    num_firedrake_nodes self s = (s0, Ok (Some (Z.of_nat n))) ∧
    reorder_nodes self (Arr1 x) false s
    = (set_mesh_to_fd_reordering (Some arr) (drop_cell_node_list true s0),
       Ok (Arr1 out)) ∧
    length out = n ∧
    ∀ k, k < n ->
      out !! k = match last (slots_of n (concat t) k) with
                 | Some p => flat !! p ≫= fun v => x !! Z.to_nat v
                 | None => x !! 0
                 end.
Proof.
  intros Hcache Hn Ht Hneq Hflat Hlen Hrange Hvals Hx.
  destruct (accessors_run self s _ _ Hn Ht) as (s0 & Hn0 & Ht0).
  pose proof (compute_reordering_mm_ok self s s0 flat _ t Hflat Hn0 Ht0) as Hc.
  rewrite bool_decide_eq_false_2 in Hc by (intros [= H]; done).
  destruct (collapse_spec n t flat Hlen Hrange) as (arr & Harr & Hl & Hk).
  { eapply Forall_impl; [exact Hvals |]. intros v Hv. simpl in Hv. lia. }
  rewrite Harr in Hc.
  assert (Hvalid : Forall (fun i => is_Some (Np.index (length x) i)) arr).
  { apply Forall_lookup. intros k i Hki.
    assert (Hkn : k < n) by (apply lookup_lt_Some in Hki; lia).
    rewrite (Hk k Hkn) in Hki. destruct (last _) as [p|].
    - rewrite Forall_lookup in Hvals. specialize (Hvals p i Hki).
      simpl in Hvals. rewrite index_nonneg by lia. eauto.
    - injection Hki as <-. rewrite index_nonneg by lia. eauto. }
  destruct (take_ok x arr Hvalid) as [out Hout].
  destruct (take_lookup x arr out Hout) as [Hlo Hlk].
  exists s0, arr, out. split; [done |]. split; [| split].
  - unfold reorder_nodes, _reordering_array, bind, read, lift, ret.
    rewrite Hcache, Hc. simpl. by rewrite Hout.
  - lia.
  - intros k Hkn. pose proof (Hk k Hkn) as Hak.
    destruct (last _) as [p|].
    + destruct (lookup_lt_is_Some_2 arr k ltac:(lia)) as [v Hv].
      rewrite Hv in Hak. symmetry in Hak. rewrite Hak. simpl.
      destruct (Hlk _ _ Hv) as (q & Hq & ->).
      rewrite Forall_lookup in Hvals. specialize (Hvals p _ Hak).
      simpl in Hvals. rewrite index_nonneg in Hq by lia.
      by injection Hq as <-.
    + destruct (Hlk _ _ Hak) as (q & Hq & ->).
      rewrite index_nonneg in Hq by lia. by injection Hq as <-.
Qed.

(** X6: firedrake nodes outside the cell-node list.  When the array is
    resized (the node counts differ), a firedrake node that no slot of the
    cell-node list names keeps the zero the resized array starts with, so
    [reorder_nodes] gives it the input value at position zero, not a zero
    value. *)
Theorem unreached_nodes_take_first_value {V} self s (x : list V) (n : nat)
    t flat :
  _mesh_to_fd_reordering s = None ->
  (num_firedrake_nodes self s).2 = Ok (Some (Z.of_nat n)) ->
  (firedrake_cell_node_list self s).2 = Ok t ->
  Z.of_nat n ≠ num_meshmode_nodes self ->
  meshmode_order self = Ok flat ->
  length (concat t) <= length flat ->
  Forall (fun c => 0 <= c < Z.of_nat n)%Z (concat t) ->
  Forall (fun v => 0 <= v < Z.of_nat (length x) ∧ v < 2 ^ 31)%Z flat ->
  0 < length x ->
  ∃ s' out,
    reorder_nodes self (Arr1 x) false s = (s', Ok (Arr1 out)) ∧
    length out = n ∧
    ∀ k, k < n -> Z.of_nat k ∉ concat t -> out !! k = x !! 0.
Proof.
  intros Hcache Hn Ht Hneq Hflat Hlen Hrange Hvals Hx.
  destruct (reorder_nodes_resized self s x n t flat) as
    (s0 & arr & out & _ & Hr & Hl & Hk); try done.
  eexists _, out. split; [exact Hr |]. split; [done |].
  intros k Hkn Hnot. rewrite (Hk k Hkn).
  by rewrite (unaddressed_has_no_slot n (concat t) k Hrange Hnot).
Qed.

Lemma unreached_nodes_take_first_value_witness :
  ∃ s' out,
    reorder_nodes Examples.near_bdy_one_cell (Arr1 [10; 20; 30]%Z) false
                  init_attrs = (s', Ok (Arr1 out)) ∧
    length out = 4 ∧
    ∀ k, k < 4 -> Z.of_nat k ∉ concat [[1; 2; 3]]%Z ->
         out !! k = [10; 20; 30]%Z !! 0.
Proof.
  apply (unreached_nodes_take_first_value Examples.near_bdy_one_cell init_attrs
           [10; 20; 30]%Z 4 [[1; 2; 3]]%Z [0; 1; 2]%Z).
  - reflexivity.
  - reflexivity.
  - reflexivity.
  - vm_compute. discriminate.
  - reflexivity.
  - simpl. lia.
  - repeat constructor; simpl; lia.
  - repeat constructor; simpl; lia.
  - simpl. lia.
Defined.

(** ** Round trips on a continuous space *)

Lemma flipped_dg_lookup sigma ncells (orient : list Z) e i o :
  is_involution sigma = true ->
  length orient = ncells ->
  orient !! e = Some o -> i < length sigma ->
  concat (zip_with (fun (b : bool) r =>
                      if b then Mat.vec (perm_matrix sigma) r else r)
                   (map (fun o => (o <? 0)%Z) orient)
                   (dg_cell_node_list ncells (length sigma)))
    !! (e * length sigma + i)
  = Some (Z.of_nat (e * length sigma
                    + (if (o <? 0)%Z then nth i sigma 0 else i))).
Proof.
  intros Hinv Ho Hoe Hi.
  assert (He : e < ncells) by (apply lookup_lt_Some in Hoe; lia).
  destruct (flipped_lookup sigma orient (dg_cell_node_list ncells (length sigma))
              Hinv (dg_rows _ _))
    as (_ & _ & Hlook).
  { unfold dg_cell_node_list. by rewrite length_chunks. }
  destruct (dg_lookup ncells (length sigma) e i He Hi) as (row & Hrow & _ & _).
  destruct (Hlook e i row o Hrow Hoe Hi) as [Hj ->].
  destruct (o <? 0)%Z.
  - destruct (dg_lookup ncells (length sigma) e _ He Hj) as (row' & Hrow' & _ & Hr).
    rewrite Hrow in Hrow'. by injection Hrow' as <-.
  - destruct (dg_lookup ncells (length sigma) e i He Hi) as (row' & Hrow' & _ & Hr).
    rewrite Hrow in Hrow'. by injection Hrow' as <-.
Qed.

(** X7: the round trip on a space with shared nodes.  When the node
    counts differ, the flip matrix rounds to the permutation matrix of an
    involution and the cell-node list has in-range entries, converting [x]
    firedrake->meshmode and the result back meshmode->firedrake returns,
    at every firedrake node that the cell-node list names, the value [x]
    had there. *)
Theorem round_trip_with_shared_nodes {V} self s (x : list V) (n : nat) t sigma :
  _fd_to_mesh_reordering s = None ->
  _mesh_to_fd_reordering s = None ->
  (num_firedrake_nodes self s).2 = Ok (Some (Z.of_nat n)) ->
  (firedrake_cell_node_list self s).2 = Ok t ->
  Z.of_nat n ≠ num_meshmode_nodes self ->
  rounded_flip_matrix self = perm_matrix sigma ->
  is_involution sigma = true ->
  length sigma = nunit_nodes self ->
  0 < nunit_nodes self ->
  length t = length (vertex_indices self) ->
  0 < length t ->
  Forall (fun row => length row = length sigma) t ->
  length (orientations self) = length t ->
  Forall (Forall (fun c => 0 <= c < Z.of_nat n)%Z) t ->
  (num_meshmode_nodes self < 2 ^ 31)%Z ->
  length x = n ->
  ∃ s1 s2 y z,
    reorder_nodes self (Arr1 x) true s = (s1, Ok (Arr1 y)) ∧
    reorder_nodes self (Arr1 y) false s1 = (s2, Ok (Arr1 z)) ∧
    length z = n ∧
    ∀ k, Z.of_nat k ∈ concat t -> z !! k = x !! k.
Proof.
  intros Hfd Hmm Hn Ht Hneq Hflip Hinv Hsigma Hm Htl Htpos Hrows Ho Hrange
         Hsmall Hx.
  destruct (reorder_nodes_fd_spec self s x n t sigma)
    as (s0 & a & y & Hn0 & Ht0 & Hr1 & Hyl & Hyv); try done.
  destruct (num_firedrake_nodes_ok _ _ _ _ Hn0) as (_ & Hnum0 & Hfd0 & Hmm0).
  set (s1 := set_fd_to_mesh_reordering (Some a) s0) in *.
  assert (Ho' : length (orientations self) = length (vertex_indices self))
    by lia.
  pose proof (meshmode_order_dg self sigma Hflip Hsigma Hinv Ho' Hm) as HB.
  set (flat := concat _) in HB.
  assert (Hflat : ∀ e i o, orientations self !! e = Some o -> i < length sigma ->
            flat !! (e * length sigma + i)
            = Some (Z.of_nat (e * length sigma
                              + (if (o <? 0)%Z then nth i sigma 0 else i)))).
  { intros e i o Hoe Hi. unfold flat. rewrite <- Hsigma.
    by apply flipped_dg_lookup. }
  assert (Hfl : length flat = length t * length sigma).
  { destruct (flipped_dg_pairs sigma (length (vertex_indices self))
                (orientations self) Hinv Ho') as [Hal _].
    unfold flat. rewrite <- Hsigma, Hal. lia. }
  assert (Hct : length (concat t) = length t * length sigma)
    by (by apply length_concat_uniform).
  assert (Hfv : ∀ p v, flat !! p = Some v ->
            ∃ e i o, p = e * length sigma + i ∧ i < length sigma ∧
                     orientations self !! e = Some o ∧
                     v = Z.of_nat (e * length sigma
                                   + (if (o <? 0)%Z then nth i sigma 0 else i)) ∧
                     (if (o <? 0)%Z then nth i sigma 0 else i) < length sigma ∧
                     e < length t).
  { intros p v Hp.
    assert (Hpl : p < length t * length sigma)
      by (apply lookup_lt_Some in Hp; lia).
    pose proof (Nat.div_mod_eq p (length sigma)) as Hdm.
    pose proof (Nat.mod_upper_bound p (length sigma) ltac:(lia)) as Hi.
    set (e := p / length sigma) in *. set (i := p mod length sigma) in *.
    assert (He : e < length t) by nia.
    destruct (lookup_lt_is_Some_2 (orientations self) e ltac:(lia)) as [o Hoe].
    exists e, i, o. split; [lia |]. split; [done |]. split; [done |].
    pose proof (Hflat e i o Hoe Hi) as Hv.
    replace (e * length sigma + i) with p in Hv by lia.
    rewrite Hp in Hv. injection Hv as ->. split; [done |]. split; [| done].
    destruct (involution_nth sigma Hinv i Hi) as [Hj _].
    by destruct (o <? 0)%Z. }
  assert (Hcr : Forall (fun c => 0 <= c < Z.of_nat n)%Z (concat t))
    by (by apply Forall_concat).
  assert (Hnmm : num_meshmode_nodes self
                 = Z.of_nat (length t * length sigma)).
  { unfold num_meshmode_nodes. by rewrite Htl, Hsigma. }
  destruct (reorder_nodes_resized self s1 y n t flat)
    as (s0' & arr & z & _ & Hr2 & Hzl & Hzk); try done.
  { simpl. by rewrite Hmm0. }
  { rewrite (num_firedrake_nodes_cached self s1 t) by done. simpl.
    by rewrite Hnum0. }
  { by rewrite (firedrake_cell_node_list_cached self s1 t). }
  { lia. }
  { apply Forall_lookup. intros p v Hp.
    destruct (Hfv p v Hp) as (e & i & o & -> & Hi & Hoe & -> & Hj & He).
    rewrite Hyl. split; [nia | nia]. }
  { nia. }
  eexists s1, _, y, z. split; [exact Hr1 |]. split; [exact Hr2 |].
  split; [done |]. intros k Hin.
  assert (Hkn : k < n).
  { rewrite Forall_forall in Hcr. specialize (Hcr _ Hin). simpl in Hcr. lia. }
  rewrite (Hzk k Hkn).
  destruct (addressed_has_last_slot n (concat t) k Hkn Hin) as [p Hp].
  rewrite Hp. pose proof (last_slot_addresses n _ k p Hp Hcr) as Hcp.
  assert (Hpl : p < length flat)
    by (apply lookup_lt_Some in Hcp; lia).
  destruct (lookup_lt_is_Some_2 flat p Hpl) as [v Hv]. rewrite Hv. simpl.
  destruct (Hfv p v Hv) as (e & i & o & -> & Hi & Hoe & -> & Hj & He).
  rewrite Nat2Z.id.
  destruct (lookup_lt_is_Some_2 t e He) as [row Hrow].
  rewrite (lookup_concat_uniform t (length sigma)) in Hcp by done.
  rewrite Hrow in Hcp. simpl in Hcp.
  rewrite (Hyv e _ row o (Z.of_nat k) Hrow Hoe Hj); [by rewrite Nat2Z.id |].
  destruct (o <? 0)%Z; [| done].
  destruct (involution_nth sigma Hinv i Hi) as [_ ->]. done.
Qed.

Lemma round_trip_with_shared_nodes_witness :
  ∃ s1 s2 y z,
    reorder_nodes Examples.two_triangles_cg (Arr1 [10; 20; 30; 40]%Z) true
                  init_attrs = (s1, Ok (Arr1 y)) ∧
    reorder_nodes Examples.two_triangles_cg (Arr1 y) false s1
    = (s2, Ok (Arr1 z)) ∧
    length z = 4 ∧
    ∀ k, Z.of_nat k ∈ concat [[0; 1; 2]; [1; 2; 3]]%Z ->
         z !! k = [10; 20; 30; 40]%Z !! k.
Proof.
  apply (round_trip_with_shared_nodes Examples.two_triangles_cg init_attrs
           [10; 20; 30; 40]%Z 4 [[0; 1; 2]; [1; 2; 3]]%Z [1; 0; 2]).
  - reflexivity.
  - reflexivity.
  - reflexivity.
  - reflexivity.
  - vm_compute. discriminate.
  - reflexivity.
  - reflexivity.
  - reflexivity.
  - simpl. lia.
  - reflexivity.
  - simpl. lia.
  - repeat constructor.
  - reflexivity.
  - repeat constructor; simpl; lia.
  - reflexivity.
  - reflexivity.
Defined.

(** X8: the round trip in the other order.  On a discontinuous space
    numbered cell by cell (the setting of the round trip above),
    converting meshmode->firedrake first and firedrake->meshmode second
    also returns the input. *)
Theorem reverse_round_trip_on_cell_numbering {V} self s (x : list V) sigma :
  let ncells := length (vertex_indices self) in
  let m := nunit_nodes self in
  _fd_to_mesh_reordering s = None ->
  _mesh_to_fd_reordering s = None ->
  (num_firedrake_nodes self s).2 = Ok (Some (num_meshmode_nodes self)) ->
  (firedrake_cell_node_list self s).2 = Ok (dg_cell_node_list ncells m) ->
  length (orientations self) = ncells ->
  rounded_flip_matrix self = perm_matrix sigma ->
  length sigma = m ->
  is_involution sigma = true ->
  0 < m ->
  length x = ncells * m ->
  ∃ s1 s2 y,
    reorder_nodes self (Arr1 x) false s = (s1, Ok (Arr1 y)) ∧
    reorder_nodes self (Arr1 y) true s1 = (s2, Ok (Arr1 x)).
Proof.
  intros ncells m Hfd Hmm Hn Ht Ho Hflip Hsigma Hinv Hm Hx.
  destruct (accessors_run self s _ _ Hn Ht) as (s0 & Hn0 & Ht0).
  destruct (num_firedrake_nodes_ok _ _ _ _ Hn0) as (_ & Hnum0 & Hfd0 & Hmm0).
  pose proof (firedrake_order_dg self sigma Hflip Hsigma Hinv Ho Hm) as HA.
  pose proof (meshmode_order_dg self sigma Hflip Hsigma Hinv Ho Hm) as HB.
  fold ncells m in HA, HB.
  set (a := concat _) in HA, HB.
  destruct (flipped_dg_pairs sigma ncells (orientations self) Hinv Ho)
    as [Hal Hpair].
  rewrite Hsigma in Hal, Hpair. fold m a in Hal, Hpair.
  destruct (take_paired a x (ncells * m) Hal Hx Hpair) as (y & Hy & Hyl & Hback).
  pose proof (compute_reordering_mm_ok self s s0 a _ _ HB Hn0 Ht0) as Hc1.
  rewrite bool_decide_eq_true_2 in Hc1 by done.
  assert (Hdrop : drop_cell_node_list true s0 = s0).
  { unfold drop_cell_node_list. by rewrite Hfd0, Hfd. }
  rewrite Hdrop in Hc1.
  set (s1 := set_mesh_to_fd_reordering (Some a) s0) in *.
  assert (Ht1 : _cell_node_list s1 = Some (dg_cell_node_list ncells m)) by done.
  assert (Hfd1 : _fd_to_mesh_reordering s1 = None)
    by (simpl; by rewrite Hfd0).
  pose proof (num_firedrake_nodes_cached self s1 _ Ht1) as Hn1.
  replace (_num_fdnodes s1) with (Some (num_meshmode_nodes self)) in Hn1
    by (simpl; by rewrite Hnum0).
  pose proof (compute_reordering_fd_ok self s1 s1 _ _ Hfd1 Hn1 Ht1) as Hc2.
  rewrite HA in Hc2.
  eexists s1, _, y. split.
  - unfold reorder_nodes, _reordering_array, bind, read, lift, ret.
    rewrite Hmm, Hc1. simpl. by rewrite Hy.
  - unfold reorder_nodes, _reordering_array, bind, read, lift, ret.
    rewrite Hfd1, Hc2. simpl. by rewrite Hback.
Qed.

Lemma reverse_round_trip_on_cell_numbering_witness :
  ∃ s1 s2 y,
    reorder_nodes Examples.two_triangles_dg (Arr1 [10; 20; 30; 40; 50; 60]%Z)
                  false init_attrs = (s1, Ok (Arr1 y)) ∧
    reorder_nodes Examples.two_triangles_dg (Arr1 y) true s1
    = (s2, Ok (Arr1 [10; 20; 30; 40; 50; 60]%Z)).
Proof.
  apply (reverse_round_trip_on_cell_numbering Examples.two_triangles_dg
           init_attrs [10; 20; 30; 40; 50; 60]%Z [1; 0; 2]).
  - reflexivity.
  - reflexivity.
  - reflexivity.
  - reflexivity.
  - reflexivity.
  - reflexivity.
  - reflexivity.
  - reflexivity.
  - simpl. lia.
  - reflexivity.
Defined.

(** ** Flipping twice *)













(** * Further properties of the operator connection *)

Section ScatterFacts.

Context {V : Type}.

Lemma store_at_lookup (data : list V) places src j k v :
  NoDup places ->
  places !! j = Some k ->
  src !! j = Some v ->
  k < length data ->
  OpConnection.store_at data places src !! k = Some v.
Proof.
  revert data src j.
  induction places as [|k0 places IH]; intros data src j Hnd Hj Hv Hk;
    [done |].
  apply NoDup_cons in Hnd as [Hk0 Hnd].
  destruct src as [|v0 src]; [by destruct j |].
  destruct j as [|j]; simpl in *.
  - injection Hj as ->. injection Hv as ->.
    rewrite store_at_frame by done. by apply list_lookup_insert_eq.
  - eapply IH; eauto. by rewrite length_insert.
Qed.

End ScatterFacts.

Lemma in_range_places n idx :
  Forall (fun j => is_Some (Np.index n j)) idx ->
  ∃ places, mapM (Np.index n) idx = Some places.
Proof.
  intros Hidx. destruct (mapM _ idx) as [places|] eqn:Hp; [eauto |].
  exfalso. apply mapM_None in Hp. apply Exists_exists in Hp as (j & Hj & Hn).
  rewrite Forall_forall in Hidx. destruct (Hidx j Hj) as [k Hk]. congruence.
Qed.

Section MoreCallFacts.

Context {V : Type} (zero : V) (ndofs : nat) (convert : list V -> result (list V)).

(** X10: when the target indices address distinct degrees of freedom
    and the operator returned one value per target index, [__call__]
    returns a function that holds the [j]-th value at the degree of
    freedom addressed by the [j]-th target index and is unchanged
    everywhere else. *)
Theorem call_stores_each_value_at_its_target idx places result_function
    (op_result : list V) :
  let data := OpConnection.result_data zero ndofs result_function in
  mapM (Np.index (length data)) idx = Some places ->
  NoDup places ->
  length op_result = length idx ->
  ∃ out,
    OpConnection.__call__ zero ndofs convert (Some idx) result_function
                          op_result = Ok out ∧
    length out = length data ∧
    (∀ j k v, places !! j = Some k -> op_result !! j = Some v ->
              out !! k = Some v) ∧
    (∀ k, k ∉ places -> out !! k = data !! k).
Proof.
  intros data Hp Hnd Hlen.
  unfold OpConnection.__call__, OpConnection.assign_at. fold data.
  unfold OpConnection.broadcast. rewrite Hlen, Nat.eqb_refl. simpl. rewrite Hp.
  eexists. split; [done |]. split; [apply length_store_at |]. split.
  - intros j k v Hj Hv. eapply store_at_lookup; eauto.
    apply mapM_Some in Hp.
    destruct (Forall2_lookup_r _ _ _ _ _ Hp Hj) as (i & _ & Hi).
    by apply index_lt in Hi.
  - intros k Hk. by apply store_at_frame.
Qed.

Lemma store_at_replicate (data : list V) places n v k :
  k ∈ places ->
  length places = n ->
  Forall (fun k => k < length data) places ->
  OpConnection.store_at data places (replicate n v) !! k = Some v.
Proof.
  revert data n.
  induction places as [|k0 places IH]; intros data n Hk Hn Hlt;
    [by apply elem_of_nil in Hk |].
  destruct n as [|n]; [done |]. simpl in *.
  apply Forall_cons in Hlt as [Hk0 Hlt].
  destruct (decide (k ∈ places)) as [Hin | Hnin].
  - apply IH; [done | lia |]. by rewrite length_insert.
  - apply elem_of_cons in Hk as [-> | Hk]; [| done].
    rewrite store_at_frame by done. by apply list_lookup_insert_eq.
Qed.

(** X11: when the operator returned a single value and every target
    index is in range, [__call__] stores that value at every target and
    leaves the other entries as they were. *)
Theorem call_broadcasts_single_value idx result_function (v : V) :
  let data := OpConnection.result_data zero ndofs result_function in
  Forall (fun j => is_Some (Np.index (length data) j)) idx ->
  ∃ out,
    OpConnection.__call__ zero ndofs convert (Some idx) result_function [v]
    = Ok out ∧
    length out = length data ∧
    (∀ k, is_target (length data) (Some idx) k -> out !! k = Some v) ∧
    (∀ k, ¬ is_target (length data) (Some idx) k -> out !! k = data !! k).
Proof.
  intros data Hidx.
  destruct (in_range_places _ _ Hidx) as [places Hp].
  assert (Hin : ∀ k, is_target (length data) (Some idx) k <-> k ∈ places).
  { apply mapM_Some in Hp. intros k. split.
    - intros (j & Hj & Hk). apply list_elem_of_lookup in Hj as [i Hi].
      destruct (Forall2_lookup_l _ _ _ _ _ Hp Hi) as (k' & Hk' & Hik).
      rewrite Hk in Hik. injection Hik as <-.
      apply list_elem_of_lookup. eauto.
    - intros Hk. apply list_elem_of_lookup in Hk as [i Hi].
      destruct (Forall2_lookup_r _ _ _ _ _ Hp Hi) as (j & Hj & Hjk).
      exists j. split; [| done]. apply list_elem_of_lookup. eauto. }
  assert (Hlt : Forall (fun k => k < length data) places).
  { apply mapM_Some in Hp. apply Forall_lookup. intros i k' Hk'.
    destruct (Forall2_lookup_r _ _ _ _ _ Hp Hk') as (j' & _ & Hi).
    by apply index_lt in Hi. }
  assert (Hpl : length places = length idx).
  { apply mapM_Some in Hp. symmetry. by eapply Forall2_length. }
  unfold OpConnection.__call__, OpConnection.assign_at. fold data.
  rewrite Hp. unfold OpConnection.broadcast.
  destruct (Nat.eqb_spec (length [v]) (length idx)) as [He | Hne]; simpl;
    (eexists; split; [done |]); (split; [apply length_store_at |]); split.
  - intros k Hk. apply Hin in Hk. simpl in He.
    change [v] with (replicate 1 v). apply store_at_replicate; [done | lia | done].
  - intros k Hk. apply store_at_frame. by rewrite <- Hin.
  - intros k Hk. apply Hin in Hk. by apply store_at_replicate.
  - intros k Hk. apply store_at_frame. by rewrite <- Hin.
Qed.

(** X12: with every target index in range, the assignment to the
    targets goes through when the operator returned one value per target
    index or a single value, and raises [ValueError] for any other number
    of values. *)
Theorem call_value_count idx result_function (op_result : list V) :
  let data := OpConnection.result_data zero ndofs result_function in
  Forall (fun j => is_Some (Np.index (length data) j)) idx ->
  if bool_decide (length op_result = length idx ∨ length op_result = 1)
  then is_ok (OpConnection.__call__ zero ndofs convert (Some idx)
                result_function op_result) = true
  else OpConnection.__call__ zero ndofs convert (Some idx) result_function
         op_result = Raise ValueError.
Proof.
  intros data Hidx.
  destruct (in_range_places _ _ Hidx) as [places Hp].
  unfold OpConnection.__call__, OpConnection.assign_at. fold data.
  rewrite Hp. unfold OpConnection.broadcast.
  destruct (Nat.eqb_spec (length op_result) (length idx)) as [He | Hne].
  - by rewrite bool_decide_eq_true_2 by by left.
  - destruct op_result as [|v [|w l]]; simpl in *.
    + rewrite bool_decide_eq_false_2; [done | lia].
    + by rewrite bool_decide_eq_true_2 by by right.
    + rewrite bool_decide_eq_false_2; [done | lia].
Qed.

(** X13: a target index outside [-n, n), for [n] degrees of freedom,
    makes [__call__] raise [IndexError] when the operator returned one
    value per target index. *)
Theorem call_index_out_of_range idx result_function (op_result : list V) j :
  let data := OpConnection.result_data zero ndofs result_function in
  j ∈ idx ->
  (j < - Z.of_nat (length data) ∨ Z.of_nat (length data) <= j)%Z ->
  length op_result = length idx ->
  OpConnection.__call__ zero ndofs convert (Some idx) result_function op_result
  = Raise IndexError.
Proof.
  intros data Hj Hr Hlen.
  unfold OpConnection.__call__, OpConnection.assign_at. fold data.
  unfold OpConnection.broadcast. rewrite Hlen, Nat.eqb_refl. simpl.
  destruct (mapM _ idx) as [places|] eqn:Hp; [| done].
  exfalso. apply mapM_Some in Hp. apply list_elem_of_lookup in Hj as [i Hi].
  destruct (Forall2_lookup_l _ _ _ _ _ Hp Hi) as (k & _ & Hk).
  revert Hk. unfold Np.index.
  destruct (_ && _) eqn:H1.
  { apply andb_true_iff in H1 as [Hlo Hhi].
    apply Z.leb_le in Hlo. apply Z.ltb_lt in Hhi. lia. }
  clear H1. destruct (_ && _) eqn:H2; [| done].
  apply andb_true_iff in H2 as [Hlo Hhi].
  apply Z.leb_le in Hlo. apply Z.ltb_lt in Hhi. lia.
Qed.

End MoreCallFacts.

Lemma call_stores_each_value_at_its_target_witness :
  ∃ out,
    OpConnection.__call__ 0%Z 4 (fun x => Ok x) (Some [3; -4]%Z) None
                          [8; 9]%Z = Ok out ∧
    length out = 4 ∧
    (∀ j k v, [3; 0] !! j = Some k -> [8; 9]%Z !! j = Some v ->
              out !! k = Some v) ∧
    (∀ k, k ∉ [3; 0] -> out !! k = replicate 4 0%Z !! k).
Proof.
  apply (call_stores_each_value_at_its_target 0%Z 4 (fun x => Ok x)
           [3; -4]%Z [3; 0] None [8; 9]%Z).
  - reflexivity.
  - apply (bool_decide_unpack _). vm_compute. reflexivity.
  - reflexivity.
Defined.

Lemma call_broadcasts_single_value_witness :
  ∃ out,
    OpConnection.__call__ 0%Z 4 (fun x => Ok x) (Some [3; 1; -4]%Z) None [7%Z]
    = Ok out ∧
    length out = 4 ∧
    (∀ k, is_target 4 (Some [3; 1; -4]%Z) k -> out !! k = Some 7%Z) ∧
    (∀ k, ¬ is_target 4 (Some [3; 1; -4]%Z) k ->
          out !! k = replicate 4 0%Z !! k).
Proof.
  apply (call_broadcasts_single_value 0%Z 4 (fun x => Ok x) [3; 1; -4]%Z None
           7%Z).
  repeat constructor; vm_compute; eauto.
Defined.

Lemma call_value_count_witness :
  OpConnection.__call__ 0%Z 4 (fun x => Ok x) (Some [3; 1; -4]%Z) None
                        [7; 8]%Z = Raise ValueError.
Proof.
  apply (call_value_count 0%Z 4 (fun x => Ok x) [3; 1; -4]%Z None [7; 8]%Z).
  repeat constructor; vm_compute; eauto.
Defined.

Lemma call_index_out_of_range_witness :
  OpConnection.__call__ 0%Z 4 (fun x => Ok x) (Some [3; 4]%Z) None [7; 8]%Z
  = Raise IndexError.
Proof.
  apply (call_index_out_of_range 0%Z 4 (fun x => Ok x) [3; 4]%Z None [7; 8]%Z
           4%Z).
  - apply (bool_decide_unpack _). vm_compute. reflexivity.
  - simpl. lia.
  - reflexivity.
Defined.

Lemma rmapM_inv {A B} (f : A -> result B) (l : list A) ys :
  rmapM f l = Ok ys -> Forall2 (fun x y => f x = Ok y) l ys.
Proof.
  revert ys. induction l as [|x l IH]; intros ys; simpl.
  - intros [= <-]. constructor.
  - destruct (f x) as [y|] eqn:Hy; simpl; [| done].
    destruct (rmapM f l) as [ys'|]; simpl; [| done].
    intros [= <-]. constructor; [done | by apply IH].
Qed.




(** X15: when some requested id is an exterior facet id and
    [boundary_nodes] raises for one of the requested ids, [__init__]
    raises an exception that [boundary_nodes] raised for a requested id,
    in whatever order Python iterates the set of requested ids. *)
Theorem init_boundary_nodes_failure unique_markers boundary_nodes
    markers_order indices_order targets m e :
  iterates markers_order ->
  m ∈ OpConnection.target_list targets ->
  boundary_nodes m = Raise e ->
  (list_to_set (OpConnection.target_list targets) : gset Z)
    ∩ list_to_set unique_markers ≠ ∅ ->
  ∃ m' e',
    m' ∈ OpConnection.target_list targets ∧
    boundary_nodes m' = Raise e' ∧
    (OpConnection.__init__ unique_markers boundary_nodes markers_order
       indices_order (Some targets)).2
    = Raise e'.
Proof.
  intros Hmo Hm He Hne. unfold OpConnection.__init__.
  destruct (Hmo (OpConnection.target_list targets)) as [_ Hel].
  rewrite bool_decide_eq_false_2 by done. simpl.
  destruct (rmapM_raise boundary_nodes
              (markers_order (OpConnection.target_list targets)) m e)
    as (m' & e' & Hm' & He' & ->); [| done |].
  - by apply Hel.
  - exists m', e'. split; [| done]. by apply Hel.
Qed.

Lemma init_boundary_nodes_failure_witness :
  ∃ m' e',
    m' ∈ [1; 7]%Z ∧
    Examples.boundary_nodes_only_1 m' = Raise e' ∧
    (OpConnection.__init__ [1; 2; 3]%Z Examples.boundary_nodes_only_1
       Examples.insertion_order Examples.indices_insertion_order
       (Some (OpConnection.TargetIter [1; 7]%Z))).2
    = Raise e'.
Proof.
  apply (init_boundary_nodes_failure [1; 2; 3]%Z Examples.boundary_nodes_only_1
           Examples.insertion_order Examples.indices_insertion_order
           (OpConnection.TargetIter [1; 7]%Z) 7%Z LookupError).
  - apply insertion_order_iterates.
  - apply (bool_decide_unpack _). vm_compute. reflexivity.
  - reflexivity.
  - apply (bool_decide_unpack _). vm_compute. reflexivity.
Defined.

Section KwargsFacts.

Context {V F O : Type} (zero : V) (ndofs : nat)
        (convert : list V -> result (list V))
        (convert_function : F -> result (list V)).

(** X16: when the keyword arguments are converted, the converted
    arguments have the same keys in the same order; an argument that is
    not a firedrake [Function] is passed on as it is and a [Function] is
    replaced by its converted array. *)
Theorem new_kwargs_entries (kwargs : list (string * OpConnection.kwarg))
    (kw : list (string * OpConnection.pyt_kwarg)) :
  OpConnection.new_kwargs (O := O) convert_function kwargs = Ok kw ->
  kw.*1 = kwargs.*1 ∧
  ∀ i key a, kwargs !! i = Some (key, a) ->
    match a with
    | OpConnection.KwFunction f =>
        ∃ pyt_fntn, convert_function f = Ok pyt_fntn ∧
                    kw !! i = Some (key, OpConnection.PytArray pyt_fntn)
    | OpConnection.KwOther o => kw !! i = Some (key, OpConnection.PytOther o)
    end.
Proof.
  intros H. apply rmapM_inv in H.
  split.
  - induction H as [|[key a] b kwargs kw Hab _ IH]; [done |].
    simpl. f_equal; [| done].
    destruct a as [f|o]; simpl in Hab.
    + destruct (convert_function f); simpl in Hab; [| done]. by injection Hab as <-.
    + by injection Hab as <-.
  - intros i key a Hi.
    destruct (Forall2_lookup_l _ _ _ _ _ H Hi) as (b & Hb & Hab).
    destruct a as [f|o]; simpl in Hab.
    + destruct (convert_function f) as [arr|]; simpl in Hab; [| done].
      injection Hab as <-. eauto.
    + by injection Hab as <-.
Qed.

(** X17: when the conversion of a [Function] keyword argument raises,
    and the arguments before it convert, [__call__] raises that
    exception whatever the bound operator, the target indices and the
    result function are: the operator's result is not used. *)
Theorem failed_conversion_skips_the_operator
    (pre post : list (string * OpConnection.kwarg)) key f e
    (bound_op : list (string * OpConnection.pyt_kwarg) -> result (list V))
    target_indices result_function :
  is_ok (OpConnection.new_kwargs (O := O) convert_function pre) = true ->
  convert_function f = Raise e ->
  OpConnection.call_with_kwargs zero ndofs convert convert_function bound_op
    target_indices result_function
    (pre ++ (key, OpConnection.KwFunction f) :: post)
  = Raise e.
Proof.
  intros Hpre Hf. unfold OpConnection.call_with_kwargs.
  assert (H : OpConnection.new_kwargs (O := O) convert_function
                (pre ++ (key, OpConnection.KwFunction f) :: post) = Raise e);
    [| by rewrite H].
  unfold OpConnection.new_kwargs in *.
  induction pre as [|[k a] pre IH]; simpl in *.
  - by rewrite Hf.
  - destruct a as [g|o]; simpl in *.
    + destruct (convert_function g); simpl in *; [| done].
      destruct (rmapM _ pre); simpl in *; [| done].
      by rewrite IH.
    + destruct (rmapM _ pre); simpl in *; [| done]. by rewrite IH.
Qed.

End KwargsFacts.

Lemma new_kwargs_entries_witness :
  [("u", OpConnection.PytArray [1; 2]%Z); ("k", OpConnection.PytOther 3%Z)].*1
  = [("u", OpConnection.KwFunction 0%Z); ("k", OpConnection.KwOther 3%Z)].*1 ∧
  ∀ i key a,
    [("u", OpConnection.KwFunction 0%Z); ("k", OpConnection.KwOther 3%Z)] !! i
    = Some (key, a) ->
    match a with
    | OpConnection.KwFunction f =>
        ∃ pyt_fntn,
          Examples.convert_function_0 f = Ok pyt_fntn ∧
          [("u", OpConnection.PytArray [1; 2]%Z);
           ("k", OpConnection.PytOther 3%Z)] !! i
          = Some (key, OpConnection.PytArray pyt_fntn)
    | OpConnection.KwOther o =>
        [("u", OpConnection.PytArray [1; 2]%Z);
         ("k", OpConnection.PytOther 3%Z)] !! i
        = Some (key, OpConnection.PytOther o)
    end.
Proof.
  apply (new_kwargs_entries Examples.convert_function_0
           [("u", OpConnection.KwFunction 0%Z); ("k", OpConnection.KwOther 3%Z)]
           [("u", OpConnection.PytArray [1; 2]%Z);
            ("k", OpConnection.PytOther 3%Z)]).
  reflexivity.
Defined.

Lemma failed_conversion_skips_the_operator_witness :
  OpConnection.call_with_kwargs 0%Z 4 (fun x => Ok x)
    Examples.convert_function_0 (fun _ => Ok [5; 6]%Z) (Some [0; 1]%Z) None
    ([("k", OpConnection.KwOther 3%Z)]
     ++ ("u", OpConnection.KwFunction 1%Z) :: [])
  = Raise ValueError.
Proof.
  apply (failed_conversion_skips_the_operator 0%Z 4 (fun x => Ok x)
           Examples.convert_function_0 [("k", OpConnection.KwOther 3%Z)] []
           "u" 1%Z ValueError (fun _ => Ok [5; 6]%Z) (Some [0; 1]%Z) None).
  - reflexivity.
  - reflexivity.
Defined.

(** * Further properties of the function converter *)

Lemma find_snoc_fresh {A} (p : A -> bool) (l : list A) (x : A) :
  find p l = None -> p x = true -> find p (l ++ [x]) = Some x.
Proof.
  induction l as [|a l IH]; simpl; intros Hn Hx.
  - by rewrite Hx.
  - destruct (p a); [done |]. by apply IH.
Qed.

Lemma find_true {A} (p : A -> bool) (l : list A) (x : A) :
  find p l = Some x -> p x = true ∧ x ∈ l.
Proof.
  induction l as [|a l IH]; simpl; [done |].
  destruct (p a) eqn:Ha.
  - intros [= <-]. split; [done | by left].
  - intros H. destruct (IH H). split; [done | by right].
Qed.

Lemma find_None_not_in {A} (p : A -> bool) (l : list A) (x : A) :
  find p l = None -> p x = true -> x ∉ l.
Proof.
  induction l as [|a l IH]; simpl; intros Hn Hx Hin.
  - by apply elem_of_nil in Hin.
  - destruct (p a) eqn:Ha; [done |].
    apply elem_of_cons in Hin as [-> | Hin]; [congruence |]. by apply IH.
Qed.

Section ConverterFacts.

Context {mesh_t element_t cell_t : Type}.
Local Abbreviation space := (FunctionConverter.space mesh_t element_t).
Local Abbreviation mesh_analog_obj := (FunctionConverter.mesh_analog_obj mesh_t).
Local Abbreviation cell_analog_obj := (FunctionConverter.cell_analog_obj cell_t).
Local Abbreviation finat_element_analog_obj :=
  (FunctionConverter.finat_element_analog_obj element_t cell_t).
Local Abbreviation dg_fspace_analog_obj :=
  (FunctionConverter.dg_fspace_analog_obj mesh_t element_t cell_t).
Local Abbreviation converter_obj :=
  (FunctionConverter.converter_obj mesh_t element_t cell_t).
Local Abbreviation converter_attrs :=
  (FunctionConverter.converter_attrs mesh_t element_t cell_t).

Context (cell_of : element_t -> cell_t)
  (mesh_is_analog : mesh_analog_obj -> mesh_t -> bool)
  (cell_is_analog : cell_analog_obj -> cell_t -> bool)
  (element_is_analog : finat_element_analog_obj -> element_t -> bool)
  (can_convert : converter_obj -> space -> option Z -> bool)
  (mesh_analog_error : mesh_t -> option exn)
  (cell_analog_error : cell_t -> option exn)
  (finat_element_analog_error : element_t -> cell_analog_obj -> option exn)
  (dg_fspace_analog_error :
     mesh_analog_obj -> finat_element_analog_obj -> cell_analog_obj ->
     option exn)
  (converter_error : dg_fspace_analog_obj -> option Z -> option exn).

Local Abbreviation get_converter :=
  (FunctionConverter.get_converter cell_of mesh_is_analog cell_is_analog
     element_is_analog can_convert mesh_analog_error cell_analog_error
     finat_element_analog_error dg_fspace_analog_error converter_error).
Local Abbreviation get_dg_fspace_analog :=
  (FunctionConverter.get_dg_fspace_analog cell_of mesh_is_analog
     cell_is_analog element_is_analog mesh_analog_error cell_analog_error
     finat_element_analog_error dg_fspace_analog_error).
Local Abbreviation is_analog :=
  (FunctionConverter.is_analog cell_of mesh_is_analog cell_is_analog
     element_is_analog).

Lemma find_or_construct_cases {A B} (isa : A -> B -> bool) new get set obj
    (st st1 : converter_attrs) r :
  FunctionConverter.find_or_construct isa new get set obj st = (st1, r) ->
  (st1 = st ∧ ∃ a, r = Ok a ∧ isa a obj = true ∧ a ∈ get st) ∨
  (st1 = st ∧ ∃ e, r = Raise e ∧ new = Raise e) ∨
  (∃ a, r = Ok a ∧ new = Ok a ∧
        find (fun x => isa x obj) (get st) = None ∧
        st1 = set (get st ++ [a]) st).
Proof.
  unfold FunctionConverter.find_or_construct,
    FunctionConverter.check_for_analog.
  destruct (find _ _) as [a|] eqn:Hf.
  - intros [= <- <-]. left. split; [done |]. exists a.
    destruct (find_true _ _ _ Hf). eauto.
  - destruct new as [a|e].
    + intros [= <- <-]. right; right. eauto.
    + intros [= <- <-]. right; left. eauto.
Qed.


(** Walks through [get_dg_fspace_analog] along the lookups and
    constructions that produced the outcome [H]. *)
Ltac close_outcome H :=
  first [discriminate H | injection H as <- <-].

Ltac dg_cases H :=
  unfold FunctionConverter.get_dg_fspace_analog,
    FunctionConverter.check_for_analog in H;
  let Hdg := fresh "Hdg" in
  destruct (find _ (FunctionConverter._dg_fspace_analogs _)) eqn:Hdg;
  [ close_outcome H
  | let Hm := fresh "Hm" in let Hc := fresh "Hc" in let Hf := fresh "Hf" in
    destruct (FunctionConverter.find_or_construct mesh_is_analog _ _ _ _ _)
      as [? [?|?]] eqn:Hm;
    apply find_or_construct_cases in Hm;
    [ destruct (FunctionConverter.find_or_construct cell_is_analog _ _ _ _ _)
        as [? [?|?]] eqn:Hc;
      apply find_or_construct_cases in Hc;
      [ destruct (FunctionConverter.find_or_construct element_is_analog
                    _ _ _ _ _) as [? [?|?]] eqn:Hf;
        apply find_or_construct_cases in Hf;
        [ let Hd := fresh "Hd" in
          destruct (FunctionConverter.construct _ _) eqn:Hd in H;
          close_outcome H
        | close_outcome H ]
      | close_outcome H ]
    | close_outcome H ] ].

Ltac split_cases :=
  repeat match goal with
         | H : _ ∨ _ |- _ => destruct H
         | H : _ ∧ _ |- _ => destruct H
         | H : ∃ _, _ |- _ => destruct H
         end;
  simplify_eq.

Lemma get_dg_fspace_analog_converters sp st st1 r :
  get_dg_fspace_analog sp st = (st1, r) ->
  FunctionConverter._converters st1 = FunctionConverter._converters st.
Proof.
  intros H. dg_cases H; split_cases; reflexivity.
Qed.


(** X18: when [get_converter] returns a converter that can convert
    the space for the boundary id, asking again returns the same
    converter and changes none of the lists. *)
Theorem get_converter_repeated function_or_space bdy_id st st1 conv :
  get_converter function_or_space bdy_id st = (st1, Ok conv) ->
  can_convert conv (FunctionConverter.space_of function_or_space) bdy_id
  = true ->
  get_converter function_or_space bdy_id st1 = (st1, Ok conv).
Proof.
  intros H Hcan. unfold FunctionConverter.get_converter in *. cbv zeta in *.
  destruct (find _ (FunctionConverter._converters st)) as [c|] eqn:Hfind.
  - injection H as <- <-. by rewrite Hfind.
  - destruct (get_dg_fspace_analog _ st) as [st' [dg|e]] eqn:Hdg; [| done].
    apply get_dg_fspace_analog_converters in Hdg.
    destruct (FunctionConverter.construct _ _) as [c|e] eqn:Hc; [| done].
    injection H as <- <-. simpl. rewrite Hdg.
    by rewrite (find_snoc_fresh _ _ _ Hfind Hcan).
Qed.

Lemma get_dg_fspace_analog_appends sp st st1 r :
  get_dg_fspace_analog sp st = (st1, r) ->
  (FunctionConverter._dg_fspace_analogs st1
   = FunctionConverter._dg_fspace_analogs st ∨
   ∃ a, r = Ok a ∧
        FunctionConverter._dg_fspace_analogs st1
        = FunctionConverter._dg_fspace_analogs st ++ [a]) ∧
  (FunctionConverter._mesh_analogs st1 = FunctionConverter._mesh_analogs st ∨
   ∃ a, FunctionConverter._mesh_analogs st1
        = FunctionConverter._mesh_analogs st ++ [a]) ∧
  (FunctionConverter._finat_element_analogs st1
   = FunctionConverter._finat_element_analogs st ∨
   ∃ a, FunctionConverter._finat_element_analogs st1
        = FunctionConverter._finat_element_analogs st ++ [a]) ∧
  (FunctionConverter._cell_analogs st1 = FunctionConverter._cell_analogs st ∨
   ∃ a, FunctionConverter._cell_analogs st1
        = FunctionConverter._cell_analogs st ++ [a]).
Proof.
  intros H. dg_cases H; split_cases; simpl; repeat split; eauto.
Qed.

(** X19: [get_converter] only appends: each of the five lists is
    afterwards what it was or that with one element appended, and
    [_converters] is extended only by the converter returned. *)
Theorem get_converter_only_appends function_or_space bdy_id st :
  let out := get_converter function_or_space bdy_id st in
  (FunctionConverter._converters out.1 = FunctionConverter._converters st ∨
   ∃ conv, out.2 = Ok conv ∧
           FunctionConverter._converters out.1
           = FunctionConverter._converters st ++ [conv]) ∧
  (FunctionConverter._dg_fspace_analogs out.1
   = FunctionConverter._dg_fspace_analogs st ∨
   ∃ a, FunctionConverter._dg_fspace_analogs out.1
        = FunctionConverter._dg_fspace_analogs st ++ [a]) ∧
  (FunctionConverter._mesh_analogs out.1 = FunctionConverter._mesh_analogs st ∨
   ∃ a, FunctionConverter._mesh_analogs out.1
        = FunctionConverter._mesh_analogs st ++ [a]) ∧
  (FunctionConverter._finat_element_analogs out.1
   = FunctionConverter._finat_element_analogs st ∨
   ∃ a, FunctionConverter._finat_element_analogs out.1
        = FunctionConverter._finat_element_analogs st ++ [a]) ∧
  (FunctionConverter._cell_analogs out.1 = FunctionConverter._cell_analogs st ∨
   ∃ a, FunctionConverter._cell_analogs out.1
        = FunctionConverter._cell_analogs st ++ [a]).
Proof.
  cbv zeta. unfold FunctionConverter.get_converter. cbv zeta.
  destruct (find _ (FunctionConverter._converters st)) as [c|] eqn:Hfind;
    [simpl; tauto |].
  destruct (get_dg_fspace_analog _ st) as [st' r] eqn:Hdg.
  pose proof (get_dg_fspace_analog_converters _ _ _ _ Hdg) as Hcs.
  apply get_dg_fspace_analog_appends in Hdg as (Hd & Hm & Hf & Hc).
  destruct r as [dg|e]; simpl.
  - destruct (FunctionConverter.construct _ _) as [c|e]; simpl.
    + rewrite Hcs. repeat split; try done; [eauto |].
      destruct Hd as [Hd | (a & _ & Hd)]; eauto.
    + repeat split; try done; [by left |].
      destruct Hd as [Hd | (a & _ & Hd)]; eauto.
  - repeat split; try done; [by left |].
    destruct Hd as [Hd | (a & _ & Hd)]; eauto.
Qed.

Section Recognition.

(** A new analog is an analog of the object it was made from. *)
Hypothesis mesh_analog_recognised :
  ∀ mesh, mesh_is_analog (FunctionConverter.MeshAnalog mesh) mesh = true.
Hypothesis cell_analog_recognised :
  ∀ cell, cell_is_analog (FunctionConverter.SimplexCellAnalog cell) cell = true.
Hypothesis finat_element_analog_recognised :
  ∀ finat_element cell_analog,
    element_is_analog
      (FunctionConverter.FinatElementAnalog finat_element cell_analog)
      finat_element = true.

Lemma get_dg_fspace_analog_registered sp st st1 dg :
  get_dg_fspace_analog sp st = (st1, Ok dg) ->
  find (fun a => is_analog a sp) (FunctionConverter._dg_fspace_analogs st1)
  = Some dg.
Proof using mesh_analog_recognised cell_analog_recognised
  finat_element_analog_recognised.
  intros H. dg_cases H; [done |].
  unfold FunctionConverter.construct in *.
  split_cases; simpl;
    repeat match goal with
           | H : match ?x with _ => _ end = _ |- _ => destruct x; simplify_eq
           end;
    (apply find_snoc_fresh; [done |]); simpl;
    rewrite ?mesh_analog_recognised, ?cell_analog_recognised,
      ?finat_element_analog_recognised;
    repeat match goal with H : _ = true |- _ => rewrite H end; done.
Qed.

Lemma get_dg_fspace_analog_found sp st dg :
  find (fun a => is_analog a sp) (FunctionConverter._dg_fspace_analogs st)
  = Some dg ->
  get_dg_fspace_analog sp st = (st, Ok dg).
Proof.
  intros H. unfold FunctionConverter.get_dg_fspace_analog,
    FunctionConverter.check_for_analog. by rewrite H.
Qed.

(** X20: provided a new mesh, cell or element analog is an analog of
    what it was made from: when a converter is built for a space and
    then, for another boundary id of the same space, no converter fits,
    the second converter is built on the function space analog of the
    first and only [_converters] changes. *)
Theorem converters_of_one_space_share_the_analog function_or_space
    function_or_space' bdy_id bdy_id' st st1 st2 conv conv' :
  let sp := FunctionConverter.space_of function_or_space in
  FunctionConverter.space_of function_or_space' = sp ->
  find (fun c => can_convert c sp bdy_id) (FunctionConverter._converters st)
  = None ->
  get_converter function_or_space bdy_id st = (st1, Ok conv) ->
  find (fun c => can_convert c sp bdy_id') (FunctionConverter._converters st1)
  = None ->
  get_converter function_or_space' bdy_id' st1 = (st2, Ok conv') ->
  ∃ dg,
    conv = FunctionConverter.FiredrakeMeshmodeConverter dg bdy_id ∧
    conv' = FunctionConverter.FiredrakeMeshmodeConverter dg bdy_id' ∧
    is_analog dg sp = true ∧
    st2 = FunctionConverter.set_converters
            (FunctionConverter._converters st1 ++ [conv']) st1.
Proof using mesh_analog_recognised cell_analog_recognised
  finat_element_analog_recognised.
  intros sp Hsp Hmiss H1 Hmiss' H2.
  unfold FunctionConverter.get_converter in H1, H2. cbv zeta in H1, H2.
  rewrite Hsp in H2. fold sp in H1, H2. rewrite Hmiss in H1. rewrite Hmiss' in H2.
  destruct (get_dg_fspace_analog sp st) as [st' [dg|e]] eqn:Hdg; [| done].
  pose proof (get_dg_fspace_analog_converters _ _ _ _ Hdg) as Hcs.
  apply get_dg_fspace_analog_registered in Hdg.
  unfold FunctionConverter.construct in H1, H2.
  destruct (converter_error dg bdy_id); [done |].
  injection H1 as <- <-.
  rewrite (get_dg_fspace_analog_found sp _ dg) in H2 by done.
  destruct (converter_error dg bdy_id'); [done |].
  injection H2 as <- <-.
  exists dg. repeat split. by destruct (find_true _ _ _ Hdg).
Qed.

Lemma NoDup_snoc_fresh {A} (p : A -> bool) (l : list A) (x : A) :
  NoDup l -> find p l = None -> p x = true -> NoDup (l ++ [x]).
Proof.
  intros Hnd Hn Hx. apply NoDup_app. split; [done |]. split.
  - intros y Hy Hin. apply list_elem_of_singleton in Hin as ->.
    by apply (find_None_not_in p l x).
  - apply NoDup_singleton.
Qed.

(** X21: provided a new mesh, cell or element analog is an analog of
    what it was made from, [get_converter] keeps the four analog lists
    free of repetitions: no analog is built twice from the same
    arguments. *)
Theorem analogs_registered_once function_or_space bdy_id st st1 r :
  NoDup (FunctionConverter._dg_fspace_analogs st) ->
  NoDup (FunctionConverter._mesh_analogs st) ->
  NoDup (FunctionConverter._finat_element_analogs st) ->
  NoDup (FunctionConverter._cell_analogs st) ->
  get_converter function_or_space bdy_id st = (st1, r) ->
  NoDup (FunctionConverter._dg_fspace_analogs st1) ∧
  NoDup (FunctionConverter._mesh_analogs st1) ∧
  NoDup (FunctionConverter._finat_element_analogs st1) ∧
  NoDup (FunctionConverter._cell_analogs st1).
Proof using mesh_analog_recognised cell_analog_recognised
  finat_element_analog_recognised.
  intros Hd Hm Hf Hc H.
  unfold FunctionConverter.get_converter in H. cbv zeta in H.
  destruct (find _ (FunctionConverter._converters st)); [by injection H as <- <- |].
  destruct (get_dg_fspace_analog _ st) as [st' r'] eqn:Hdg.
  assert (Hst' : NoDup (FunctionConverter._dg_fspace_analogs st') ∧
                 NoDup (FunctionConverter._mesh_analogs st') ∧
                 NoDup (FunctionConverter._finat_element_analogs st') ∧
                 NoDup (FunctionConverter._cell_analogs st')).
  { clear H. dg_cases Hdg; [done |..];
      unfold FunctionConverter.construct in *;
      split_cases; simpl in *;
      repeat match goal with
             | H : match ?x with _ => _ end = _ |- _ => destruct x; simplify_eq
             end;
      repeat split; try done;
      try (eapply NoDup_snoc_fresh; [done | done |]; simpl;
           rewrite ?mesh_analog_recognised, ?cell_analog_recognised,
             ?finat_element_analog_recognised;
           repeat match goal with H : _ = true |- _ => rewrite H end; done). }
  destruct r' as [dg|e]; [| by injection H as <- <-].
  destruct (FunctionConverter.construct _ _); by injection H as <- <-.
Qed.

End Recognition.

End ConverterFacts.

Lemma get_converter_repeated_witness :
  let out :=
    Examples.get_converter_by_source
      (FunctionConverter.ASpace Examples.space_1_2) (Some 3%Z)
      FunctionConverter.__init__ in
  ∃ conv,
    out.2 = Ok conv ∧
    Examples.get_converter_by_source
      (FunctionConverter.ASpace Examples.space_1_2) (Some 3%Z) out.1
    = (out.1, Ok conv).
Proof.
  cbv zeta. eexists. split; [vm_compute; reflexivity |].
  apply (get_converter_repeated Examples.cell_of_element
           Examples.mesh_made_from Examples.cell_made_from
           Examples.element_made_from Examples.converts (fun _ => None)
           (fun _ => None) (fun _ _ => None) (fun _ _ _ => None)
           (fun _ _ => None) (FunctionConverter.ASpace Examples.space_1_2)
           (Some 3%Z) FunctionConverter.__init__).
  - vm_compute. reflexivity.
  - vm_compute. reflexivity.
Defined.

Lemma converters_of_one_space_share_the_analog_witness :
  let st1 :=
    (Examples.get_converter_by_source
       (FunctionConverter.ASpace Examples.space_1_2) (Some 3%Z)
       FunctionConverter.__init__).1 in
  let conv' :=
    FunctionConverter.FiredrakeMeshmodeConverter Examples.dg_1_2 None in
  ∃ dg,
    FunctionConverter.FiredrakeMeshmodeConverter Examples.dg_1_2 (Some 3%Z)
    = FunctionConverter.FiredrakeMeshmodeConverter dg (Some 3%Z) ∧
    conv' = FunctionConverter.FiredrakeMeshmodeConverter dg None ∧
    FunctionConverter.is_analog Examples.cell_of_element
      Examples.mesh_made_from Examples.cell_made_from
      Examples.element_made_from dg Examples.space_1_2 = true ∧
    (Examples.get_converter_by_source
       (FunctionConverter.AFunction Examples.space_1_2) None st1).1
    = FunctionConverter.set_converters
        (FunctionConverter._converters st1 ++ [conv']) st1.
Proof.
  cbv zeta.
  apply (converters_of_one_space_share_the_analog
           Examples.cell_of_element Examples.mesh_made_from
           Examples.cell_made_from Examples.element_made_from
           Examples.converts (fun _ => None) (fun _ => None)
           (fun _ _ => None) (fun _ _ _ => None) (fun _ _ => None)
           (fun m => Z.eqb_refl m) (fun c => Z.eqb_refl c)
           (fun e _ => Z.eqb_refl e)
           (FunctionConverter.ASpace Examples.space_1_2)
           (FunctionConverter.AFunction Examples.space_1_2)
           (Some 3%Z) None FunctionConverter.__init__).
  - reflexivity.
  - reflexivity.
  - vm_compute. reflexivity.
  - vm_compute. reflexivity.
  - vm_compute. reflexivity.
Defined.

Lemma analogs_registered_once_witness :
  let st1 :=
    (Examples.get_converter_by_source
       (FunctionConverter.ASpace Examples.space_1_2) (Some 3%Z)
       FunctionConverter.__init__).1 in
  let out :=
    Examples.get_converter_by_source
      (FunctionConverter.ASpace Examples.space_1_4) (Some 3%Z) st1 in
  (FunctionConverter._mesh_analogs st1 = [FunctionConverter.MeshAnalog 1%Z] ∧
   FunctionConverter._mesh_analogs out.1 = [FunctionConverter.MeshAnalog 1%Z] ∧
   FunctionConverter._cell_analogs out.1
   = [FunctionConverter.SimplexCellAnalog 0%Z] ∧
   length (FunctionConverter._finat_element_analogs out.1) = 2 ∧
   length (FunctionConverter._dg_fspace_analogs out.1) = 2) ∧
  NoDup (FunctionConverter._dg_fspace_analogs out.1) ∧
  NoDup (FunctionConverter._mesh_analogs out.1) ∧
  NoDup (FunctionConverter._finat_element_analogs out.1) ∧
  NoDup (FunctionConverter._cell_analogs out.1).
Proof.
  cbv zeta. split; [repeat split; vm_compute; reflexivity |].
  apply (analogs_registered_once Examples.cell_of_element
           Examples.mesh_made_from Examples.cell_made_from
           Examples.element_made_from Examples.converts (fun _ => None)
           (fun _ => None) (fun _ _ => None) (fun _ _ _ => None)
           (fun _ _ => None) (fun m => Z.eqb_refl m) (fun c => Z.eqb_refl c)
           (fun e _ => Z.eqb_refl e)
           (FunctionConverter.ASpace Examples.space_1_4) (Some 3%Z)
           (Examples.get_converter_by_source
              (FunctionConverter.ASpace Examples.space_1_2) (Some 3%Z)
              FunctionConverter.__init__).1
           _
           (Examples.get_converter_by_source
              (FunctionConverter.ASpace Examples.space_1_4) (Some 3%Z)
              (Examples.get_converter_by_source
                 (FunctionConverter.ASpace Examples.space_1_2) (Some 3%Z)
                 FunctionConverter.__init__).1).2).
  - vm_compute. apply NoDup_singleton.
  - vm_compute. apply NoDup_singleton.
  - vm_compute. apply NoDup_singleton.
  - vm_compute. apply NoDup_singleton.
  - reflexivity.
Defined.
